(** * arxiv_latex_cleaner: a shallow embedding and its properties

    The development follows [arxiv_latex_cleaner.py].  Part I embeds the
    Python string primitives and the fragment of the [regex] library the
    program relies on; Part II embeds the functions of the program under
    their own names; Part III holds the notions used in the statements;
    Part IV states and proves the properties.

    A Python [str] is a list of characters.  Characters are the code points
    U+0000 to U+00FF (Rocq's [ascii]); texts with code points beyond that
    range are outside the model. *)

From Stdlib Require Import Ascii String.
From stdpp Require Import base option list gmap sets strings.

#[local] Set Warnings "-via-type-mismatch,-via-type-remapping,-register-all,-clear-no-such-hyp".

(* ===================================================================== *)
(** * Part I.  Python strings and regular expressions                    *)
(* ===================================================================== *)

(** ** Strings *)

Abbreviation str := (list ascii).

(** String literals are read as lists of characters. *)
Inductive literal : Set := LNil | LCons (c : ascii) (s : literal).

Fixpoint literal_of_bytes (l : list Byte.byte) : literal :=
  match l with
  | [] => LNil
  | b :: l' => LCons (ascii_of_byte b) (literal_of_bytes l')
  end.

Fixpoint bytes_of_literal (s : literal) : list Byte.byte :=
  match s with
  | LNil => []
  | LCons c s' => byte_of_ascii c :: bytes_of_literal s'
  end.

Declare Scope str_scope.
Delimit Scope str_scope with str.
String Notation list literal_of_bytes bytes_of_literal
  (via literal mapping [[nil] => LNil, [cons] => LCons]) : str_scope.
Open Scope str_scope.

Definition nl : ascii := "010"%char.
Definition tab : ascii := "009"%char.
Definition backslash : ascii := "\"%char.
Definition percent : ascii := "%"%char.

Definition ord (c : ascii) : nat := nat_of_ascii c.

Definition between (lo hi : nat) (c : ascii) : bool :=
  (lo <=? ord c) && (ord c <=? hi).

(** [c.isspace()]: the characters Python counts as whitespace. *)
Definition isspace (c : ascii) : bool :=
  between 9 13 c || between 28 32 c || (ord c =? 133) || (ord c =? 160).

(** [s.lstrip(chars)] and [s.lstrip()]. *)
Fixpoint lstrip_where (p : ascii → bool) (s : str) : str :=
  match s with
  | c :: s' => if p c then lstrip_where p s' else s
  | [] => []
  end.

Definition lstrip_chars (chars : str) (s : str) : str :=
  lstrip_where (λ c, bool_decide (c ∈ chars)) s.

Definition lstrip (s : str) : str := lstrip_where isspace s.

(** [s.startswith(t)] and [s.endswith(t)]. *)
Fixpoint startswith (s t : str) {struct t} : bool :=
  match t, s with
  | [], _ => true
  | c :: t', d :: s' => bool_decide (c = d) && startswith s' t'
  | _ :: _, [] => false
  end.

Definition endswith (s t : str) : bool := startswith (reverse s) (reverse t).

(** [s.find(t)]: the lowest index at which [t] occurs in [s]; Python's -1
    is [None].  [t in s] is [is_Some (find s t)] and [s.index(t)] is the
    index found. *)
Fixpoint find (s t : str) : option nat :=
  if startswith s t then Some 0
  else match s with
       | [] => None
       | _ :: s' => S <$> find s' t
       end.

Definition contains (s t : str) : bool := bool_decide (is_Some (find s t)).

(** [s.rfind(c)] for a single character: the highest index of [c]. *)
Fixpoint rfind_char (s : str) (c : ascii) : option nat :=
  match s with
  | [] => None
  | d :: s' =>
      match rfind_char s' c with
      | Some i => Some (S i)
      | None => if bool_decide (d = c) then Some 0 else None
      end
  end.

(** [s.replace(c, '')] for a single character [c]. *)
Definition remove_char (c : ascii) (s : str) : str :=
  filter (λ d, d ≠ c) s.

(** [sep.join(parts)]. *)
Fixpoint join (sep : str) (parts : list str) : str :=
  match parts with
  | [] => []
  | [s] => s
  | s :: rest => s ++ sep ++ join sep rest
  end.

(** [c * n] for a character: [n] copies of it. *)
Definition spaces (n : nat) : str := replicate n " "%char.

(** ** Regular expressions: character sets *)

(** [\s], [\d] and [\w] of the [regex] library on the modelled range. *)
Definition re_space (c : ascii) : bool :=
  between 9 13 c || (ord c =? 32) || (ord c =? 133) || (ord c =? 160).

Definition re_digit (c : ascii) : bool := between 48 57 c.

Definition re_word (c : ascii) : bool :=
  re_digit c || between 65 90 c || between 97 122 c || (ord c =? 95)
  || (ord c =? 170) || (ord c =? 181) || (ord c =? 186)
  || between 192 214 c || between 216 246 c || between 248 255 c.

(** Simple case folding, as the IGNORECASE flag applies it. *)
Definition lower (c : ascii) : ascii :=
  if between 65 90 c || (between 192 222 c && negb (ord c =? 215))
  then ascii_of_nat (ord c + 32) else c.

Inductive citem : Set :=
| IChar (c : ascii)
| ISpace (neg : bool)
| IDigit (neg : bool)
| IWord (neg : bool).

Inductive cset : Set :=
| One (i : citem)
| Dot
| Among (neg : bool) (items : list citem).

Definition in_item (ic : bool) (i : citem) (c : ascii) : bool :=
  match i with
  | IChar d => if ic then bool_decide (lower c = lower d) else bool_decide (c = d)
  | ISpace neg => xorb neg (re_space c)
  | IDigit neg => xorb neg (re_digit c)
  | IWord neg => xorb neg (re_word c)
  end.

Definition in_cset (ic : bool) (cs : cset) (c : ascii) : bool :=
  match cs with
  | One i => in_item ic i c
  | Dot => negb (bool_decide (c = nl))
  | Among neg items => xorb neg (existsb (λ i, in_item ic i c) items)
  end.

(** ** Regular expressions: syntax *)

Inductive re : Set :=
| Eps
| Chr (cs : cset)
| Seq (x y : re)
| Alt (x y : re)
| Star (x : re)
| Look (ahead neg : bool) (x : re)
| Atomic (x : re)
| Recurse.

Definition seq_of (atoms : list re) : re := foldr Seq Eps atoms.

Fixpoint alt_of (alts : list re) : re :=
  match alts with
  | [] => Eps
  | [x] => x
  | x :: rest => Alt x (alt_of rest)
  end.

(** ** Regular expressions: reading a pattern

    The pattern is read one character at a time.  A pattern outside the
    fragment below (anchors, counted or lazy repetition, back references,
    ranges inside a set, named groups, an unbalanced parenthesis) has no
    reading: [compile] gives [None]. *)

Inductive gkind : Set :=
| GTop
| GGroup
| GAtomic
| GLook (ahead neg : bool).

(** An open group: the alternatives already closed by [|] and the atoms of
    the alternative being read, both latest first. *)
Record frame : Set := Frame {
  f_kind : gkind;
  f_alts : list re;
  f_seq : list re
}.

Inductive mode : Set :=
| MNormal (quantified : bool)
| MEscape
| MOpen
| MOpenQ
| MOpenQLt
| MOpenQR
| MSetStart
| MSet (neg : bool) (items : list citem)
| MSetEscape (neg : bool) (items : list citem).

Record pstate : Set := PState {
  p_mode : mode;
  p_cur : frame;
  p_stack : list frame
}.

Definition close_frame (f : frame) : re :=
  alt_of (reverse (seq_of (reverse (f_seq f)) :: f_alts f)).

Definition wrap (k : gkind) (r : re) : re :=
  match k with
  | GTop | GGroup => r
  | GAtomic => Atomic r
  | GLook ahead neg => Look ahead neg r
  end.

Definition push_atom (a : re) (f : frame) : frame :=
  Frame (f_kind f) (f_alts f) (a :: f_seq f).

Definition open_group (k : gkind) (st : pstate) : pstate :=
  PState (MNormal false) (Frame k [] []) (p_cur st :: p_stack st).

Definition emit (a : re) (st : pstate) : pstate :=
  PState (MNormal false) (push_atom a (p_cur st)) (p_stack st).

Definition quantify (f : re → re) (st : pstate) : option pstate :=
  match p_mode st, f_seq (p_cur st) with
  | MNormal false, a :: s =>
      Some (PState (MNormal true)
              (Frame (f_kind (p_cur st)) (f_alts (p_cur st)) (f a :: s))
              (p_stack st))
  | _, _ => None
  end.

Definition alnum (c : ascii) : bool :=
  between 48 57 c || between 65 90 c || between 97 122 c.

(** The item an escape [\c] stands for. *)
Definition escape_item (c : ascii) : option citem :=
  if bool_decide (c = "s"%char) then Some (ISpace false)
  else if bool_decide (c = "S"%char) then Some (ISpace true)
  else if bool_decide (c = "d"%char) then Some (IDigit false)
  else if bool_decide (c = "D"%char) then Some (IDigit true)
  else if bool_decide (c = "w"%char) then Some (IWord false)
  else if bool_decide (c = "W"%char) then Some (IWord true)
  else if bool_decide (c = "n"%char) then Some (IChar nl)
  else if bool_decide (c = "t"%char) then Some (IChar tab)
  else if alnum c then None
  else Some (IChar c).

(** The characters with a meaning of their own outside a set. *)
Definition special : str := "\.[](){}*+?|^$".

Definition step_normal (st : pstate) (c : ascii) : option pstate :=
  if bool_decide (c = "\"%char) then
    Some (PState MEscape (p_cur st) (p_stack st))
  else if bool_decide (c = "("%char) then
    Some (PState MOpen (p_cur st) (p_stack st))
  else if bool_decide (c = ")"%char) then
    match p_stack st with
    | parent :: rest =>
        let g := wrap (f_kind (p_cur st)) (close_frame (p_cur st)) in
        Some (PState (MNormal false) (push_atom g parent) rest)
    | [] => None
    end
  else if bool_decide (c = "["%char) then
    Some (PState MSetStart (p_cur st) (p_stack st))
  else if bool_decide (c = "|"%char) then
    let f := p_cur st in
    Some (PState (MNormal false)
            (Frame (f_kind f) (seq_of (reverse (f_seq f)) :: f_alts f) [])
            (p_stack st))
  else if bool_decide (c = "*"%char) then quantify Star st
  else if bool_decide (c = "+"%char) then quantify (λ a, Seq a (Star a)) st
  else if bool_decide (c = "?"%char) then quantify (λ a, Alt a Eps) st
  else if bool_decide (c = "."%char) then Some (emit (Chr Dot) st)
  else if bool_decide (c ∈ special) then None
  else Some (emit (Chr (One (IChar c))) st).

Definition step_set (neg : bool) (items : list citem) (st : pstate) (c : ascii)
  : option pstate :=
  if bool_decide (c = "]"%char) then
    match items with
    | [] => None
    | _ => Some (emit (Chr (Among neg (reverse items))) st)
    end
  else if bool_decide (c = "\"%char) then
    Some (PState (MSetEscape neg items) (p_cur st) (p_stack st))
  else if bool_decide (c = "-"%char) || bool_decide (c = "["%char) then None
  else Some (PState (MSet neg (IChar c :: items)) (p_cur st) (p_stack st)).

Definition step (st : pstate) (c : ascii) : option pstate :=
  match p_mode st with
  | MNormal _ => step_normal st c
  | MEscape => i ← escape_item c; Some (emit (Chr (One i)) st)
  | MOpen =>
      if bool_decide (c = "?"%char)
      then Some (PState MOpenQ (p_cur st) (p_stack st))
      else step_normal (open_group GGroup st) c
  | MOpenQ =>
      if bool_decide (c = "!"%char) then Some (open_group (GLook true true) st)
      else if bool_decide (c = "="%char) then Some (open_group (GLook true false) st)
      else if bool_decide (c = ">"%char) then Some (open_group GAtomic st)
      else if bool_decide (c = ":"%char) then Some (open_group GGroup st)
      else if bool_decide (c = "<"%char) then Some (PState MOpenQLt (p_cur st) (p_stack st))
      else if bool_decide (c = "R"%char) then Some (PState MOpenQR (p_cur st) (p_stack st))
      else None
  | MOpenQLt =>
      if bool_decide (c = "!"%char) then Some (open_group (GLook false true) st)
      else if bool_decide (c = "="%char) then Some (open_group (GLook false false) st)
      else None
  | MOpenQR =>
      if bool_decide (c = ")"%char) then Some (emit Recurse st) else None
  | MSetStart =>
      if bool_decide (c = "^"%char)
      then Some (PState (MSet true []) (p_cur st) (p_stack st))
      else step_set false [] st c
  | MSet neg items => step_set neg items st c
  | MSetEscape neg items =>
      i ← escape_item c;
      Some (PState (MSet neg (i :: items)) (p_cur st) (p_stack st))
  end.

Fixpoint read (st : pstate) (pattern : str) : option pstate :=
  match pattern with
  | [] => Some st
  | c :: rest => st' ← step st c; read st' rest
  end.

Definition start_state : pstate := PState (MNormal false) (Frame GTop [] []) [].

Definition compile (pattern : str) : option re :=
  st ← read start_state pattern;
  match p_mode st, p_stack st with
  | MNormal _, [] => Some (close_frame (p_cur st))
  | _, _ => None
  end.

(** ** Regular expressions: matching

    A position in a text is the text before it, latest character first,
    and the text after it.  The matcher is a backtracking one, in
    continuation-passing style: [m r k p] matches [r] from [p] and hands
    each position where [r] can end to [k], in the order of preference of
    the library (the first alternative first, the longest repetition
    first), until [k] accepts one. *)

Definition pos : Type := list ascii * list ascii.

Definition at_text (text : str) : pos := ([], text).

(** The positions at or before [(b, a)], nearest first. *)
Fixpoint positions_before (b a : list ascii) : list pos :=
  (b, a) :: match b with
            | [] => []
            | c :: b' => positions_before b' (c :: a)
            end.

(** The loop of a repetition: [mx] matches the repeated expression once.
    A turn that reads no character ends the repetition; [n] bounds the
    turns by the characters left. *)
Fixpoint star_loop (mx : (pos → option pos) → pos → option pos)
  (k : pos → option pos) (n : nat) (p : pos) {struct n} : option pos :=
  match n with
  | 0 => k p
  | S n' =>
      match mx (λ q, if length q.2 <? length p.2 then star_loop mx k n' q
                     else None) p with
      | Some q => Some q
      | None => k p
      end
  end.

(** Whether [mx] matches a stretch of text that starts at [p]. *)
Definition ahead_of (mx : (pos → option pos) → pos → option pos) (p : pos)
  : bool :=
  bool_decide (is_Some (mx Some p)).

(** Whether [mx] matches a stretch of text that ends at [p]. *)
Definition behind_of (mx : (pos → option pos) → pos → option pos) (p : pos)
  : bool :=
  existsb
    (λ p0, bool_decide (is_Some
       (mx (λ q, if length q.2 =? length p.2 then Some q else None) p0)))
    (positions_before p.1 p.2).

Fixpoint m (ic : bool) (depth : nat) (whole : re) {struct depth}
  : re → (pos → option pos) → pos → option pos :=
  fix go (r : re) (k : pos → option pos) (p : pos) {struct r} : option pos :=
    match r with
    | Eps => k p
    | Chr cs =>
        match p with
        | (b, c :: a) => if in_cset ic cs c then k (c :: b, a) else None
        | (_, []) => None
        end
    | Seq x y => go x (go y k) p
    | Alt x y =>
        match go x k p with
        | Some q => Some q
        | None => go y k p
        end
    | Star x => star_loop (go x) k (length p.2) p
    | Look ahead neg x =>
        let found := if ahead then ahead_of (go x) p else behind_of (go x) p in
        if xorb neg found then k p else None
    | Atomic x =>
        match go x Some p with
        | Some q => k q
        | None => None
        end
    | Recurse =>
        match depth with
        | 0 => None
        | S d => m ic d whole whole k p
        end
    end.

(** The match of [r] that starts at [p], if there is one: where it ends. *)
Definition match_at (ic : bool) (r : re) (p : pos) : option pos :=
  m ic (length p.2) r r Some p.

(** A match object: [m.start()], [m.end()] and [m.group()]. *)
Record rmatch : Set := RMatch {
  m_start : nat;
  m_end : nat;
  m_group : str
}.

Definition mk_match (p q : pos) : rmatch :=
  RMatch (length p.1) (length q.1)
         (reverse (take (length q.1 - length p.1) q.1)).

(** The leftmost match at or after [(b, a)]. *)
Fixpoint search_from (ic : bool) (r : re) (b a : list ascii) : option rmatch :=
  match match_at ic r (b, a) with
  | Some q => Some (mk_match (b, a) q)
  | None =>
      match a with
      | [] => None
      | c :: a' => search_from ic r (c :: b) a'
      end
  end.

(** The successive matches, left to right, none overlapping another.
    [skip] counts the characters of the last match still to be passed.
    A match of the empty string is followed by a step of one character. *)
Fixpoint finditer_from (ic : bool) (r : re) (b a : list ascii) (skip : nat)
  : list rmatch :=
  match skip with
  | S skip' =>
      match a with
      | [] => []
      | c :: a' => finditer_from ic r (c :: b) a' skip'
      end
  | 0 =>
      match match_at ic r (b, a) with
      | Some q =>
          mk_match (b, a) q ::
          match a with
          | [] => []
          | c :: a' =>
              finditer_from ic r (c :: b) a' (pred (length q.1 - length b))
          end
      | None =>
          match a with
          | [] => []
          | c :: a' => finditer_from ic r (c :: b) a' 0
          end
      end
  end.

(** Outcome of a call into the library on a pattern given as a string. *)
Definition regex_search (ic : bool) (pattern text : str) : option (option rmatch) :=
  r ← compile pattern; Some (search_from ic r [] text).

Definition regex_match (ic : bool) (pattern text : str) : option (option rmatch) :=
  r ← compile pattern;
  Some (mk_match (at_text text) <$> match_at ic r (at_text text)).

Definition regex_finditer (ic : bool) (pattern text : str) : option (list rmatch) :=
  r ← compile pattern; Some (finditer_from ic r [] text 0).

(** [regex.compile] of a pattern that is a constant of the program. *)
Definition compiled (pattern : str) : re := default Eps (compile pattern).

Definition finditer (r : re) (text : str) : list rmatch :=
  finditer_from false r [] text 0.

Definition search (r : re) (text : str) : option rmatch :=
  search_from false r [] text.

(* ===================================================================== *)
(** * Part II.  The program                                              *)
(* ===================================================================== *)

(** ** Effects

    A computation writes lines to [stderr] and either returns a value or
    raises an exception. *)

Inductive exn : Set :=
| TypeError
| KeyError (key : str)
| ValueError (msg : str)
| RuntimeError (msg : str).

Definition io (A : Type) : Type := list str * (exn + A).

Definition ret {A} (a : A) : io A := ([], inr a).
Definition raise {A} (e : exn) : io A := ([], inl e).
Definition write (s : str) : io unit := ([s], inr tt).

Definition bind {A B} (x : io A) (f : A → io B) : io B :=
  match x with
  | (w, inl e) => (w, inl e)
  | (w, inr a) => let '(w', r) := f a in (w ++ w', r)
  end.

Notation "x ←← c ; k" := (bind c (λ x, k))
  (at level 100, c at next level, right associativity).
Notation "c ;;; k" := (bind c (λ _, k))
  (at level 100, right associativity).

(** [for x in l: body x]. *)
Definition for_each {A} (body : A → io unit) : list A → io unit :=
  fix go l :=
    match l with
    | [] => ret tt
    | x :: rest => body x ;;; go rest
    end.

Definition stderr {A} (x : io A) : list str := x.1.
Definition outcome {A} (x : io A) : exn + A := x.2.

(** ** [_simplify_conditional_blocks] *)

Inductive kind : Set := toplevel | iffalse | iftrue | unknown.

(** A node of the conditional tree: the dictionary with the keys [kind],
    [start], [else], [end], [left] and [right].  A key that is absent is
    [None].  The [parent] key is the path to the root kept by [cursor]. *)
Inductive tree : Set := Tree {
  t_kind : kind;
  t_start : option rmatch;
  t_else : option rmatch;
  t_end : option rmatch;
  t_left : list tree;
  t_right : list tree
}.

(** The variable [tree] of the scan: the node it points to and, nearest
    first, its ancestors up to [toplevel_tree].  An ancestor is kept without
    the open child below it; [add_subtree] puts the child back. *)
Record cursor : Set := Cursor {
  focus : tree;
  parents : list tree
}.

Definition new_subtree (k : kind) : tree := Tree k None None None [] [].

Definition set_start (t : tree) (mm : rmatch) : tree :=
  Tree (t_kind t) (Some mm) (t_else t) (t_end t) (t_left t) (t_right t).

Definition set_else (t : tree) (mm : rmatch) : tree :=
  Tree (t_kind t) (t_start t) (Some mm) (t_end t) (t_left t) (t_right t).

Definition set_end (t : tree) (mm : rmatch) : tree :=
  Tree (t_kind t) (t_start t) (t_else t) (Some mm) (t_left t) (t_right t).

(** [add_subtree(tree, subtree)]: the subtree goes to the left of a node
    that has no [else] yet, to its right otherwise. *)
Definition add_subtree (t subtree : tree) : tree :=
  match t_else t with
  | None =>
      Tree (t_kind t) (t_start t) (t_else t) (t_end t)
           (t_left t ++ [subtree]) (t_right t)
  | Some _ =>
      Tree (t_kind t) (t_start t) (t_else t) (t_end t)
           (t_left t) (t_right t ++ [subtree])
  end.

(** [toplevel_tree] as it stands in the middle of the scan. *)
Definition toplevel_tree (c : cursor) : tree :=
  foldl (λ child parent, add_subtree parent child) (focus c) (parents c).

Definition initial_cursor : cursor := Cursor (new_subtree toplevel) [].

(** The three lines that open a node: a fresh subtree with its start
    token, added below the current node, becomes the current node. *)
Definition open_subtree (k : kind) (mm : rmatch) (c : cursor) : cursor :=
  Cursor (set_start (new_subtree k) mm) (focus c :: parents c).

Definition exceptions (if_exceptions : list str) : list str :=
  [ "iff";
    "ifpatchable"; "ifpatchable*"; "ifbool"; "iftoggle"; "ifdef"; "ifcsdef";
    "ifundef"; "ifcsundef"; "ifdefmacro"; "ifcsmacro"; "ifdefparam";
    "ifcsparam"; "ifcsprefix"; "ifdefprotected"; "ifcsprotected";
    "ifdefltxprotect"; "ifcsltxprotect"; "ifdefempty"; "ifcsempty";
    "ifdefvoid"; "ifcsvoid"; "ifdefequal"; "ifcsequal"; "ifdefstring";
    "ifcsstring"; "ifdefstrequal"; "ifcsstrequal"; "ifdefcounter";
    "ifcscounter"; "ifltxcounter"; "ifdeflength"; "ifcslength"; "ifdefdimen";
    "ifcsdimen"; "ifstrequal"; "ifstrempty"; "ifblank"; "ifnumcomp";
    "ifnumequal"; "ifnumodd"; "ifdimcomp"; "ifdimequal"; "ifdimgreater";
    "ifdimless"; "ifboolexpr"; "ifboolexpe"; "ifinlist"; "ifinlistcs";
    "ifrmnum";
    "ifpdfstringunicode";
    "ifthenelse" ] ++ if_exceptions.

(** [print_tree(tree, indent, write)].  The call for a subtree on the right
    passes two arguments where the function takes three. *)
Fixpoint print_tree (t : tree) (indent : nat) : io unit :=
  match t_start t with
  | Some mm => write (spaces indent ++ m_group mm ++ [nl])
  | None => ret tt
  end ;;;
  for_each (λ subtree, print_tree subtree (indent + 2)) (t_left t) ;;;
  match t_else t with
  | Some mm => write (spaces indent ++ m_group mm ++ [nl])
  | None => ret tt
  end ;;;
  for_each (λ _, raise TypeError) (t_right t) ;;;
  match t_end t with
  | Some mm => write (spaces indent ++ m_group mm ++ [nl])
  | None => ret tt
  end.

Definition print_abort (c : cursor) (error_finding : str) : io unit :=
  write ("Warning: Found " ++ error_finding
         ++ "! Not removing any conditional blocks..." ++ [nl]) ;;;
  write ("         This is the matched tree (as built up to the error):"
         ++ [nl]) ;;;
  print_tree (toplevel_tree c) 9 ;;;
  write ("         Potentially, you need to supply an exception using"
         ++ " --if_exceptions'." ++ [nl]).

(** The pattern [p] of the token scan. *)
Definition p_pattern : str :=
  "(?!(?<=\\newif\s*))\\if\s*(\w+)|\\else(?!\w)|\\fi(?!\w)".

Definition p : re := compiled p_pattern.

(** One turn of the loop over the tokens.  [None] stands for the early
    [return text]. *)
Definition scan_token (exc : list str) (c : cursor) (mm : rmatch)
  : io (option cursor) :=
  let m_no_space := remove_char " "%char (m_group mm) in
  if bool_decide (m_no_space = "\iffalse") || bool_decide (m_no_space = "\if0")
  then ret (Some (open_subtree iffalse mm c))
  else if bool_decide (m_no_space = "\iftrue") || bool_decide (m_no_space = "\if1")
  then ret (Some (open_subtree iftrue mm c))
  else if startswith m_no_space "\if" then
    if bool_decide (drop 1 m_no_space ∈ exc) then ret (Some c)
    else ret (Some (open_subtree unknown mm c))
  else if bool_decide (m_no_space = "\else") then
    match parents c with
    | [] => print_abort c "unmatched \else" ;;; ret None
    | _ :: _ =>
        match t_else (focus c) with
        | Some _ => print_abort c "duplicate \else" ;;; ret None
        | None => ret (Some (Cursor (set_else (focus c) mm) (parents c)))
        end
    end
  else if bool_decide (m_group mm = "\fi") then
    match parents c with
    | [] => print_abort c "unmatched \fi" ;;; ret None
    | parent :: rest =>
        ret (Some (Cursor (add_subtree parent (set_end (focus c) mm)) rest))
    end
  else raise (RuntimeError "Unreachable!").

Fixpoint scan (exc : list str) (c : cursor) (tokens : list rmatch)
  : io (option cursor) :=
  match tokens with
  | [] => ret (Some c)
  | mm :: rest =>
      r ←← scan_token exc c mm;
      match r with
      | Some c' => scan exc c' rest
      | None => ret None
      end
  end.

Definition span : Set := nat * nat.

Definition key {A} (name : str) (v : option A) : io A :=
  match v with
  | Some a => ret a
  | None => raise (KeyError name)
  end.

(** [traverse_tree(tree)]; the spans appended to [positions_to_delete] are
    the value returned, in the order of the appends. *)
Fixpoint traverse_tree (t : tree) : io (list span) :=
  let forest :=
    fix forest (l : list tree) : io (list span) :=
      match l with
      | [] => ret []
      | s :: rest =>
          a ←← traverse_tree s; b ←← forest rest; ret (a ++ b)
      end in
  match t_kind t with
  | iffalse =>
      match t_else t with
      | Some el =>
          st ←← key "start" (t_start t);
          inner ←← forest (t_right t);
          en ←← key "end" (t_end t);
          ret ([(m_start st, m_end el)] ++ inner ++ [(m_start en, m_end en)])
      | None =>
          st ←← key "start" (t_start t);
          en ←← key "end" (t_end t);
          ret [(m_start st, m_end en)]
      end
  | iftrue =>
      match t_else t with
      | Some el =>
          st ←← key "start" (t_start t);
          inner ←← forest (t_left t);
          en ←← key "end" (t_end t);
          ret ([(m_start st, m_end st)] ++ inner ++ [(m_start el, m_end en)])
      | None =>
          st ←← key "start" (t_start t);
          en ←← key "end" (t_end t);
          ret [(m_start st, m_end st); (m_start en, m_end en)]
      end
  | unknown =>
      a ←← forest (t_left t); b ←← forest (t_right t); ret (a ++ b)
  | toplevel => raise (ValueError "Unreachable!")
  end.

Definition traverse_forest : list tree → io (list span) :=
  fix forest (l : list tree) : io (list span) :=
    match l with
    | [] => ret []
    | s :: rest => a ←← traverse_tree s; b ←← forest rest; ret (a ++ b)
    end.

(** One turn of the loop that deletes the spans. *)
Definition delete_span (text : str) (sp : span) : str :=
  let '(start, end_) := sp in
  let end_to_del :=
    match text !! end_ with
    | Some c => if isspace c then end_ + 1 else end_
    | None => end_
    end in
  take start text ++ drop end_to_del text.

Definition _simplify_conditional_blocks (text : str) (if_exceptions : list str)
  : io str :=
  r ←← scan (exceptions if_exceptions) initial_cursor (finditer p text);
  match r with
  | None => ret text
  | Some c =>
      match parents c with
      | _ :: _ =>
          st ←← key "start" (t_start (focus c));
          print_abort c ("unmatched " ++ m_group st) ;;;
          ret text
      | [] =>
          positions_to_delete ←← traverse_forest (t_left (focus c));
          ret (foldl delete_span text (reverse positions_to_delete))
      end
  end.

(** ** [_remove_comments_inline] *)

Definition auto_ignore_pattern : str := "(%\s*auto-ignore).*".

(** Group 1 of [auto_ignore_pattern]. *)
Definition auto_ignore_group1 : str := "%\s*auto-ignore".

Definition url_pattern : str := "\\url\{(?>[^{}]|(?R))*\}".

Definition comment_pattern : str := "(?<!\\)%".

(** [regex.sub(pattern, r'\1', text)] for a pattern [whole] that opens with
    its group 1, [g], and goes on with a part that cannot fail: every match
    is replaced by what [g] matched at its start. *)
Fixpoint sub_group1 (whole g : re) (b a : list ascii) (skip : nat) : str :=
  match skip with
  | S skip' =>
      match a with
      | [] => []
      | c :: a' => sub_group1 whole g (c :: b) a' skip'
      end
  | 0 =>
      match match_at false whole (b, a) with
      | Some q =>
          let n := length q.1 - length b in
          let kept :=
            match match_at false g (b, a) with
            | Some q1 => take (length q1.1 - length b) a
            | None => []
            end in
          kept ++
          match a with
          | [] => []
          | c :: a' =>
              (if n =? 0 then [c] else [])
              ++ sub_group1 whole g (c :: b) a' (pred n)
          end
      | None =>
          match a with
          | [] => []
          | c :: a' => c :: sub_group1 whole g (c :: b) a' 0
          end
      end
  end.

(** [regex.split(pattern, text)] for a pattern that is one capturing group:
    the pieces between the matches, each followed by the match that ends
    it.  [seg] is the piece being read, latest character first.  A match of
    the empty string splits nothing. *)
Fixpoint split_from (r : re) (b a : list ascii) (skip : nat) (seg : list ascii)
  : list str :=
  match a with
  | [] => [reverse seg]
  | c :: a' =>
      match skip with
      | S skip' => split_from r (c :: b) a' skip' seg
      | 0 =>
          match match_at false r (b, a) with
          | Some q =>
              let n := length q.1 - length b in
              if n =? 0 then split_from r (c :: b) a' 0 (c :: seg)
              else reverse seg :: take n a
                   :: split_from r (c :: b) a' (pred n) []
          | None => split_from r (c :: b) a' 0 (c :: seg)
          end
      end
  end.

Definition split (r : re) (text : str) : list str := split_from r [] text 0 [].

(** [remove_comments(segment)]. *)
Definition remove_comments (segment : str) : str * bool :=
  if startswith (lstrip segment) "%" then ([], true)
  else
    match search (compiled comment_pattern) segment with
    | Some mm => (take (m_end mm) segment ++ [nl], true)
    | None => (segment, false)
    end.

(** The loop over the segments, up to its [break]. *)
Fixpoint strip_segments (segments : list str) : list str :=
  match segments with
  | [] => []
  | s :: rest =>
      if bool_decide (is_Some (match_at false (compiled url_pattern) (at_text s)))
      then s :: strip_segments rest
      else
        let '(s', matched) := remove_comments s in
        if matched then [s'] else s' :: strip_segments rest
  end.

Definition _remove_comments_inline (text : str) : str :=
  if bool_decide (is_Some (search (compiled auto_ignore_pattern) text)) then
    sub_group1 (compiled auto_ignore_pattern) (compiled auto_ignore_group1)
               [] text 0
  else if startswith (lstrip_chars [tab] (lstrip_chars " " text)) "%" then []
  else
    let segments := split (compiled ("(" ++ url_pattern ++ ")")) text in
    let final_text := concat (strip_segments segments) in
    if endswith final_text [nl] || endswith final_text "\n" then final_text
    else final_text ++ [nl].

(** ** [_strip_tex_contents] *)

(** The loop from line [i] on; [rest] is [lines[i:]]. *)
Fixpoint strip_from (lines : list str) (end_str : str) (i : nat)
  (rest : list str) : list str :=
  match rest with
  | [] => lines
  | line :: rest' =>
      match find line end_str with
      | Some at_end =>
          match find line "%" with
          | None => take (i + 1) lines
          | Some at_percent =>
              if at_end <? at_percent then take (i + 1) lines
              else strip_from lines end_str (i + 1) rest'
          end
      | None => strip_from lines end_str (i + 1) rest'
      end
  end.

Definition _strip_tex_contents (lines : list str) (end_str : str) : list str :=
  strip_from lines end_str 0 lines.

(** ** [_search_reference] *)

(** [os.sep]. *)
Definition sep : str := "/".

(** [s.split('/')]. *)
Fixpoint split_sep (s : str) : list str :=
  match s with
  | [] => [[]]
  | c :: s' =>
      if bool_decide (c = "/"%char) then [] :: split_sep s'
      else match split_sep s' with
           | part :: parts => (c :: part) :: parts
           | [] => [[c]]
           end
  end.

(** The components of [pathlib.Path(filename)]: empty components and
    components [.] are dropped. *)
Definition path_parts (filename : str) : list str :=
  filter (λ part, part ≠ [] ∧ part ≠ ".") (split_sep filename).

(** [Path.name], [Path.suffix] and [Path.stem]. *)
Definition path_name (filename : str) : str :=
  default [] (last (path_parts filename)).

Definition suffix_at (name : str) : option nat :=
  match rfind_char name "."%char with
  | Some i => if (0 <? i) && (i <? length name - 1) then Some i else None
  | None => None
  end.

Definition path_suffix (filename : str) : str :=
  let name := path_name filename in
  match suffix_at name with
  | Some i => drop i name
  | None => []
  end.

Definition path_stem (filename : str) : str :=
  let name := path_name filename in
  match suffix_at name with
  | Some i => take i name
  | None => name
  end.

(** The names of [reversed(Path(filename).parents)]: the name of [Path('.')],
    which is empty, then the directories from the outermost inwards. *)
Definition parent_names (filename : str) : list str :=
  match path_parts filename with
  | [] => []
  | parts => [] :: take (length parts - 1) parts
  end.

(** [regex.escape(s)]. *)
Definition escape_chars : str := "()[]{}?*+|^$\.-#&~".

Definition regex_escape (s : str) : str :=
  concat (map (λ c, if bool_decide (c ∈ escape_chars) || isspace c
                    then [backslash; c] else [c]) s).

(** [s.replace('.', r'\.')]. *)
Definition escape_dots (s : str) : str :=
  concat (map (λ c, if bool_decide (c = "."%char) then "\." else [c]) s).

(** The value is the outcome of [regex.search]; [None] on top of it: the
    pattern built from the file name has no reading. *)
Definition _search_reference (filename contents : str) (strict : bool)
  : option (option rmatch) :=
  let filename_regex :=
    if strict then escape_dots filename
    else
      let basename_regex :=
        regex_escape (path_stem filename)
        ++ "(" ++ regex_escape (path_suffix filename) ++ ")?" in
      let path_prefix_regex :=
        foldl (λ prefix fragment,
                 if bool_decide (fragment = ".") then prefix
                 else "(" ++ prefix ++ regex_escape fragment ++ sep ++ ")?")
              [] (parent_names filename) in
      path_prefix_regex ++ basename_regex in
  let filename_regex := "(." ++ sep ++ ")?" ++ filename_regex in
  let patn :=
    if strict then "(\{)?[\s%]*" ++ filename_regex ++ "[\s%]*(\})?"
    else "\{[\s%]*" ++ filename_regex ++ "[\s%]*\}" in
  regex_search true patn contents.

Definition _keep_only_referenced (filenames : list str) (contents : str)
  (strict : bool) : option (list str) :=
  foldr (λ fn acc,
           r ← _search_reference fn contents strict;
           rest ← acc;
           Some (if bool_decide (is_Some r) then fn :: rest else rest))
        (Some []) filenames.

(** ** [_keep_only_referenced_tex] *)

(** [os.path.splitext(p)]: the extension starts at the last dot of the last
    component, unless only dots stand before it in that component. *)
Definition splitext (path : str) : str * str :=
  let filenameIndex :=
    match rfind_char path "/"%char with
    | Some sepIndex => sepIndex + 1
    | None => 0
    end in
  match rfind_char path "."%char with
  | Some dotIndex =>
      if (filenameIndex <=? dotIndex)
         && existsb (λ c, negb (bool_decide (c = "."%char)))
                    (take (dotIndex - filenameIndex) (drop filenameIndex path))
      then (take dotIndex path, drop dotIndex path)
      else (path, [])
  | None => (path, [])
  end.

(** The keys of [splits] the function reads and writes. *)
Record splits : Set := Splits {
  tex_in_root : list str;
  tex_not_in_root : list str;
  tex_to_copy : list str
}.

(** How a call of the function ends: it returns, an exception leaves it
    ([contents] has no entry for a file, or the pattern built from a file
    name has no reading), or the passes allowed are used up. *)
Inductive run (A : Type) : Type :=
| Returns (a : A)
| Raises
| Unfinished.
Arguments Returns {A} a.
Arguments Raises {A}.
Arguments Unfinished {A}.

Definition run_map {A B} (f : A → B) (r : run A) : run B :=
  match r with
  | Returns a => Returns (f a)
  | Raises => Raises
  | Unfinished => Unfinished
  end.

(** The pattern searched for the file [fn]. *)
Definition reference_pattern (fn : str) : str :=
  "(?<!\w)(" ++ (splitext fn).1 ++ "[.}])".

(** The condition of the [if]: the search for [fn] in the lines of [fn2]. *)
Definition mentions (contents : gmap str (list str)) (fn fn2 : str)
  : option bool :=
  lines ← contents !! fn2;
  r ← regex_search false (reference_pattern fn) (join [nl] lines);
  Some (bool_decide (is_Some r)).

(** [for fn2 in referenced], with [next_referenced] threaded through. *)
Fixpoint for_referenced (contents : gmap str (list str)) (fn : str)
  (referenced : list str) (next_referenced : gset str) : option (gset str) :=
  match referenced with
  | [] => Some next_referenced
  | fn2 :: rest =>
      b ← mentions contents fn fn2;
      for_referenced contents fn rest
        (if b : bool then {[fn]} ∪ next_referenced else next_referenced)
  end.

(** [for fn in old_referenced]. *)
Fixpoint for_old_referenced (contents : gmap str (list str))
  (old_referenced referenced : list str) (next_referenced : gset str)
  : option (gset str) :=
  match old_referenced with
  | [] => Some next_referenced
  | fn :: rest =>
      next ← for_referenced contents fn referenced next_referenced;
      for_old_referenced contents rest referenced next
  end.

(** One full pass: the two nested loops.  A Python set is iterated in an
    order of its own; [order] is that order. *)
Definition pass (order : gset str → list str) (contents : gmap str (list str))
  (old_referenced referenced : gset str) : option (gset str) :=
  for_old_referenced contents (order old_referenced) (order referenced)
                     referenced.

(** The [while True] loop, for at most [passes] passes. *)
Fixpoint closure (passes : nat) (order : gset str → list str)
  (contents : gmap str (list str)) (old_referenced referenced : gset str)
  : run (gset str) :=
  match passes with
  | 0 => Unfinished
  | S passes' =>
      match pass order contents old_referenced referenced with
      | None => Raises
      | Some next_referenced =>
          if bool_decide (referenced = next_referenced)
          then Returns referenced
          else closure passes' order contents old_referenced next_referenced
      end
  end.

Definition _keep_only_referenced_tex (passes : nat)
  (order : gset str → list str) (contents : gmap str (list str))
  (sp : splits) (start_with : option str) : run splits :=
  let old_referenced : gset str :=
    list_to_set (tex_in_root sp ++ tex_not_in_root sp) in
  let referenced : gset str :=
    match start_with with
    | Some fn => {[fn]}
    | None => list_to_set (tex_in_root sp)
    end in
  run_map (λ referenced,
             Splits (tex_in_root sp) (tex_not_in_root sp) (order referenced))
          (closure passes order contents old_referenced referenced).


(** ** [_add_root_tex_files] *)

(** The body of the loop: [fn] is appended to the list unless it is in it. *)
Definition add_missing (to_copy : list str) (fn : str) : list str :=
  if bool_decide (fn ∈ to_copy) then to_copy else to_copy ++ [fn].

(** The list under [tex_to_copy] is appended to in place while the list
    under [tex_in_root] is iterated; the two are different lists. *)
Definition _add_root_tex_files (sp : splits) : splits :=
  Splits (tex_in_root sp) (tex_not_in_root sp)
         (foldl add_missing (tex_to_copy sp) (tex_in_root sp)).

(** ** [_read_file_content] *)

(** [lines] is what [fp.readlines()] returns. *)
Definition _read_file_content (lines : list str) : list str :=
  _strip_tex_contents lines "\end{document}".

(** ** [_keep_pattern] and [_remove_pattern] *)

(** [any(regex.findall(rem, item) for rem in patterns)]: the patterns are
    tried in turn, up to the first that has a match in [item]; a list of
    matches counts as true when it is not empty.  [None]: a pattern met on
    the way has no reading in the fragment of Part I. *)
Fixpoint any_findall (patterns : list str) (item : str) : option bool :=
  match patterns with
  | [] => Some false
  | rem :: rest =>
      found ← regex_finditer false rem item;
      if bool_decide (found = []) then any_findall rest item else Some true
  end.

Definition _keep_pattern (haystack patterns_to_keep : list str)
  : option (list str) :=
  foldl (λ out item,
           out ← out;
           b ← any_findall patterns_to_keep item;
           Some (if b : bool then out ++ [item] else out))
        (Some []) haystack.

(** The list comprehension, item by item. *)
Fixpoint _remove_pattern (haystack patterns_to_remove : list str)
  : option (list str) :=
  match haystack with
  | [] => Some []
  | item :: rest =>
      kept ← _keep_pattern [item] patterns_to_remove;
      out ← _remove_pattern rest patterns_to_remove;
      Some (if bool_decide (item ∉ kept) then item :: out else out)
  end.

(** ** [strip_whitespace] *)

(** [regex.sub(pattern, '', text)]: the text without the matches of the
    pattern.  [skip] counts the characters of the last match still to be
    passed. *)
Fixpoint sub_empty (r : re) (b a : list ascii) (skip : nat) : str :=
  match skip with
  | S skip' =>
      match a with
      | [] => []
      | c :: a' => sub_empty r (c :: b) a' skip'
      end
  | 0 =>
      match match_at false r (b, a) with
      | Some q =>
          let n := length q.1 - length b in
          match a with
          | [] => []
          | c :: a' =>
              (if n =? 0 then [c] else []) ++ sub_empty r (c :: b) a' (pred n)
          end
      | None =>
          match a with
          | [] => []
          | c :: a' => c :: sub_empty r (c :: b) a' 0
          end
      end
  end.

Definition strip_whitespace (text : str) : str :=
  sub_empty (compiled "\s+") [] text 0.

(** ** The lines of a file in [run_arxiv_cleaner] *)

(** [content.split(sep)] for a separator of one character. *)
Fixpoint split_on (sep : ascii) (content : str) : list str :=
  match content with
  | [] => [[]]
  | c :: content' =>
      if bool_decide (c = sep) then [] :: split_on sep content'
      else match split_on sep content' with
           | line :: lines => (c :: line) :: lines
           | [] => [[c]]
           end
  end.

(** What the loop over the files leaves under [tex_contents[tex_file]]
    for a text [content], and what the later loop joins again. *)
Definition split_lines (content : str) : list str := split_on nl content.
Definition join_lines (lines : list str) : str := join [nl] lines.

(** ** [merge_args_into_config] *)

(** The values of the arguments and of the configuration, as far as the
    [isinstance] tests tell them apart; a float is kept as it is written.
    [VNone] stands for [None] and for every value of another type. *)
Inductive value : Type :=
| VStr (s : str)
| VBool (b : bool)
| VFloat (x : str)
| VInt (n : Z)
| VList (l : list value)
| VDict (d : gmap str value)
| VNone.

(** [any([isinstance(value, t) for t in [str, bool, float, int]])]. *)
Definition scalar (v : value) : bool :=
  match v with
  | VStr _ | VBool _ | VFloat _ | VInt _ => true
  | _ => false
  end.

(** One turn of the loop over [args.items()].  [None]: an exception
    leaves the function, [TypeError] from the concatenation of a list and a
    value that is no list, [AttributeError] from [update] on a value that
    is no dictionary. *)
Definition merge_arg (config_params : gmap str value) (key : str)
  (v : value) (final_args : gmap str value) : option (gmap str value) :=
  match config_params !! key with
  | Some config_value =>
      if scalar v then Some (<[key := v]> final_args)
      else
        match v with
        | VList l =>
            match config_value with
            | VList config_list =>
                Some (<[key := VList (l ++ config_list)]> final_args)
            | _ => None
            end
        | VDict d =>
            match final_args !! key with
            | Some (VDict final_dict) =>
                Some (<[key := VDict (d ∪ final_dict)]> final_args)
            | _ => None
            end
        | _ => Some final_args
        end
  | None => Some (<[key := v]> final_args)
  end.

(** [final_args] starts as a deep copy of [config_params]; the items of
    [args] are taken in the order of the dictionary. *)
Definition merge_args_into_config (args config_params : gmap str value)
  : option (gmap str value) :=
  map_fold (λ key v final_args,
              final_args ≫= merge_arg config_params key v)
           (Some config_params) args.

(* ===================================================================== *)
(** * Part III.  Notions used in the statements                          *)
(* ===================================================================== *)

(** ** Matching *)

(** [q] is [p] moved forward over a stretch [t] of the text. *)
Definition reaches (p q : pos) : Prop :=
  ∃ t, q.1 = reverse t ++ p.1 ∧ p.2 = t ++ q.2.

(** A matcher is forward when it hands to its continuation only positions
    reached from the one it starts at. *)
Definition forward (mx : (pos → option pos) → pos → option pos) : Prop :=
  ∀ k p res, mx k p = Some res → ∃ q, reaches p q ∧ k q = Some res.

(** The matches are in the order of the text, within [from] and [len], and
    none overlaps another. *)
Fixpoint ordered (from len : nat) (ms : list rmatch) : Prop :=
  match ms with
  | [] => True
  | mm :: rest =>
      from ≤ m_start mm ∧ m_start mm ≤ m_end mm ∧ m_end mm ≤ len ∧
      ordered (m_end mm) len rest
  end.

(** ** The conditional resolver *)

(** What the chain of tests of the scan makes of a token. *)
Inductive token : Set := TIf (k : kind) | TSkip | TElse | TFi | TOther.

Definition classify (exc : list str) (mm : rmatch) : token :=
  let m_no_space := remove_char " "%char (m_group mm) in
  if bool_decide (m_no_space = "\iffalse") || bool_decide (m_no_space = "\if0")
  then TIf iffalse
  else if bool_decide (m_no_space = "\iftrue") || bool_decide (m_no_space = "\if1")
  then TIf iftrue
  else if startswith m_no_space "\if" then
    if bool_decide (drop 1 m_no_space ∈ exc) then TSkip else TIf unknown
  else if bool_decide (m_no_space = "\else") then TElse
  else if bool_decide (m_group mm = "\fi") then TFi
  else TOther.

(** The character after a deleted span goes with it when it is whitespace. *)
Definition eat_space (s : str) : str :=
  match s with
  | c :: s' => if isspace c then s' else s
  | [] => []
  end.

(** [text[i:j]]. *)
Definition slice (i j : nat) (text : str) : str := take (j - i) (drop i text).

(** The token opens a conditional: the scan adds a node for it. *)
Definition opens (exc : list str) (mm : rmatch) : bool :=
  match classify exc mm with
  | TIf _ => true
  | _ => false
  end.

(** What [print_tree] writes, from [indent] on, for conditionals that are
    nested one in the next and have a start token only: a line for each
    token, two columns further in than the line before. *)
Fixpoint nested_lines (indent : nat) (starts : list rmatch) : list str :=
  match starts with
  | [] => []
  | mm :: rest =>
      (spaces indent ++ m_group mm ++ [nl]) :: nested_lines (indent + 2) rest
  end.

(** ** The comment stripper and the truncation *)

(** The definition that follows the words of the specification for the
    cut made by [_strip_tex_contents]: the first line that holds the marker
    with no % at a smaller index than the marker, that line included; the
    whole list when there is no such line. *)
Definition percent_before_marker (end_str line : str) : bool :=
  match find line end_str with
  | Some at_end => bool_decide (percent ∈ take at_end line)
  | None => false
  end.

Fixpoint spec_cut (end_str : str) (lines : list str) : list str :=
  match lines with
  | [] => []
  | line :: rest =>
      if contains line end_str && negb (percent_before_marker end_str line)
      then [line]
      else line :: spec_cut end_str rest
  end.

(** What the loop of [_strip_tex_contents] tests on a line: the line holds
    the marker, and its first %, if it has one, stands strictly after the
    start of the first occurrence of the marker. *)
Definition stops_at (end_str line : str) : bool :=
  match find line end_str, find line "%" with
  | Some at_end, Some at_percent => at_end <? at_percent
  | Some _, None => true
  | None, _ => false
  end.

(** ** The reference closure *)

(** The Required set read off the result of the function. *)
Definition required_set (r : run splits) : run (gset str) :=
  run_map (λ sp, list_to_set (tex_to_copy sp)) r.

(** [order] lists the elements of every set, each once. *)
Definition enumerates (order : gset str → list str) : Prop :=
  ∀ X, order X ≡ₚ elements X.

(** No search of the pass fails. *)
Definition defined_on (contents : gmap str (list str))
  (old_referenced referenced : list str) : Prop :=
  Forall (λ fn, Forall (λ fn2, is_Some (mentions contents fn fn2)) referenced)
         old_referenced.

(** Some file of [referenced] mentions [fn]. *)
Definition hit (contents : gmap str (list str)) (fn : str)
  (referenced : list str) : Prop :=
  Exists (λ fn2, mentions contents fn fn2 = Some true) referenced.

(** A character that stands for itself in a pattern. *)
Definition plain (c : ascii) : bool := negb (bool_decide (c ∈ special)).

Definition lit (c : ascii) : re := Chr (One (IChar c)).

(** The reading of [(?<!\w)(stem[.}])] for a stem of plain characters. *)
Definition reference_re (stem : str) : re :=
  Seq (Look false true (Seq (Chr (One (IWord false))) Eps))
      (Seq (seq_of (map lit stem
                    ++ [Chr (Among false [IChar "."%char; IChar "}"%char])]))
           Eps).

(** [stem] stands in [text] with no word character before it and one of
    [.] and [}] after it. *)
Definition occurs_bounded (stem text : str) : Prop :=
  ∃ before c after,
    text = before ++ stem ++ c :: after ∧
    (c = "."%char ∨ c = "}"%char) ∧
    (∀ d, last before = Some d → re_word d = false).

(** The name the specification matches on: the last component of the
    path, without its extension. *)
Definition spec_basename (fn : str) : str := (splitext (path_name fn)).1.

(** ** The pattern of the token scan, part by part *)

Definition space_re : re := Chr (One (ISpace false)).
Definition word_re : re := Chr (One (IWord false)).

(** The look ahead that refuses a word character. *)
Definition no_word_ahead : re := Look true true (Seq word_re Eps).

(** The inside of the look behind: [\newif] and the whitespace after it. *)
Definition newif_re : re := seq_of (map lit "\newif" ++ [Star space_re]).

(** The first alternative: an [\if] with its name, not after [\newif]. *)
Definition if_re : re :=
  Seq (Look true true (Seq (Look false false newif_re) Eps))
      (seq_of (map lit "\if"
               ++ [Star space_re; Seq (Seq word_re (Star word_re)) Eps])).

(** The second and the third alternative: [\else] and [\fi]. *)
Definition else_re : re := seq_of (map lit "\else" ++ [no_word_ahead]).
Definition fi_re : re := seq_of (map lit "\fi" ++ [no_word_ahead]).

(** A repetition of one set of characters, as a recursion on the text: the
    longest run first, then the shorter ones. *)
Fixpoint star_class (holds : ascii → bool) (k : pos → option pos)
  (b a : list ascii) : option pos :=
  match a with
  | c :: a' =>
      if holds c then
        match star_class holds k (c :: b) a' with
        | Some q => Some q
        | None => k (b, a)
        end
      else k (b, a)
  | [] => k (b, a)
  end.

(** No backslash in the text, and no word character at its start. *)
Definition inert (s : str) : Prop :=
  (backslash ∉ s) ∧ ∀ c, head s = Some c → re_word c = false.

(** ** The reference closure, continued *)

(** [S] is closed under references: a known file that a file of [S]
    mentions is in [S]. *)
Definition closed (contents : gmap str (list str)) (files S : gset str)
  : Prop :=
  ∀ fn fn2, fn ∈ files → fn2 ∈ S → mentions contents fn fn2 = Some true →
            fn ∈ S.

(** The set the loop starts from. *)
Definition start_set (sp : splits) (start_with : option str) : gset str :=
  match start_with with
  | Some fn => {[fn]}
  | None => list_to_set (tex_in_root sp)
  end.

(** The known files. *)
Definition known_files (sp : splits) : gset str :=
  list_to_set (tex_in_root sp ++ tex_not_in_root sp).

(** A small project for the examples: [main.tex] includes [a.tex], which
    includes [b.tex]; [c.tex] includes [a.tex] and nothing includes it. *)
Definition example_contents : gmap str (list str) :=
  <["main.tex" := ["\input{a}"]]>
    (<["a.tex" := ["\input{b.tex}"]]>
       (<["b.tex" := ["text"]]> (<["c.tex" := ["\input{a}"]]> ∅))).

Definition example_splits : splits :=
  Splits ["main.tex"] ["a.tex"; "b.tex"; "c.tex"] [].

(** ** The truncation, continued *)

(** The lines up to and including the first at which the loop of
    [_strip_tex_contents] stops. *)
Fixpoint up_to_stop (end_str : str) (lines : list str) : list str :=
  match lines with
  | [] => []
  | line :: rest =>
      if stops_at end_str line then [line]
      else line :: up_to_stop end_str rest
  end.

(** ** The merge of the arguments *)

(** What the result holds under a key, for the arguments seen so far. *)
Definition merged (args config_params final_args : gmap str value) : Prop :=
  ∀ key,
    match args !! key, config_params !! key with
    | None, config_value => final_args !! key = config_value
    | Some v, None => final_args !! key = Some v
    | Some v, Some config_value =>
        if scalar v then final_args !! key = Some v
        else
          match v with
          | VList l =>
              ∃ config_list, config_value = VList config_list ∧
                             final_args !! key = Some (VList (l ++ config_list))
          | VDict d =>
              ∃ config_dict, config_value = VDict config_dict ∧
                             final_args !! key = Some (VDict (d ∪ config_dict))
          | _ => final_args !! key = Some config_value
          end
    end.


(** A configuration and arguments for the examples. *)
Definition example_config : gmap str value :=
  <["im_size" := VInt 500]>
    (<["commands_to_delete" := VList [VStr "red"]]>
       (<["keep_bib" := VBool false]> ∅)).

Definition example_args : gmap str value :=
  <["im_size" := VInt 300]>
    (<["commands_to_delete" := VList [VStr "todo"]]>
       (<["keep_bib" := VNone]> (<["verbose" := VBool true]> ∅))).

Definition example_merged : gmap str value :=
  <["im_size" := VInt 300]>
    (<["commands_to_delete" := VList [VStr "todo"; VStr "red"]]>
       (<["keep_bib" := VBool false]> (<["verbose" := VBool true]> ∅))).

(** ** The pattern of a search that is not strict *)

(** [[\s%]*]. *)
Definition blank_re : re :=
  Star (Chr (Among false [ISpace false; IChar "%"%char])).

(** The pattern that [_search_reference] builds, when it is not strict,
    for a file [stem.ext] in the root, stem and extension being made of
    letters and digits. *)
Definition nonstrict_pattern (stem ext : str) : str :=
  "\{[\s%]*(./)?(/)?" ++ stem ++ "(\." ++ ext ++ ")?[\s%]*\}".

(** Its reading. *)
Definition nonstrict_re (stem ext : str) : re :=
  seq_of ([lit "{"%char; blank_re;
           Alt (Seq (Chr Dot) (Seq (lit "/"%char) Eps)) Eps;
           Alt (Seq (lit "/"%char) Eps) Eps]
          ++ map lit stem
          ++ [Alt (seq_of (lit "."%char :: map lit ext)) Eps;
              blank_re; lit "}"%char]).

(** ** The pattern of a strict search *)

(** A character of a path that stands for itself in the pattern, or a dot,
    which [_search_reference] escapes. *)
Definition path_char (c : ascii) : bool :=
  plain c || bool_decide (c = "."%char).

(** The pattern that the strict search builds for a path. *)
Definition strict_pattern (filename : str) : str :=
  "(\{)?[\s%]*(./)?" ++ escape_dots filename ++ "[\s%]*(\})?".

(** Its reading. *)
Definition strict_re (filename : str) : re :=
  seq_of ([Alt (Seq (lit "{"%char) Eps) Eps; blank_re;
           Alt (Seq (Chr Dot) (Seq (lit "/"%char) Eps)) Eps]
          ++ map lit filename
          ++ [blank_re; Alt (Seq (lit "}"%char) Eps) Eps]).

(** ** The pattern of a [\url] *)

(** [[^{}]]. *)
Definition no_brace : cset := Among true [IChar "{"%char; IChar "}"%char].

(** One turn of the repetition: a character that is no brace, or the
    whole pattern again. *)
Definition url_turn : re :=
  Atomic (Alt (Seq (Chr no_brace) Eps) (Seq Recurse Eps)).

(** The reading of [url_pattern]. *)
Definition url_re : re :=
  seq_of (map lit "\url{" ++ [Star url_turn; lit "}"%char]).

(* ===================================================================== *)
(** * Part IV.  Properties                                               *)
(* ===================================================================== *)


(** ** The matcher *)

(** The equation of [m], whatever the depth left for [(?R)]. *)
Lemma m_eq (ic : bool) (depth : nat) (whole r : re) (k : pos → option pos)
  (p : pos) :
  m ic depth whole r k p =
  match r with
  | Eps => k p
  | Chr cs =>
      match p with
      | (b, c :: a) => if in_cset ic cs c then k (c :: b, a) else None
      | (_, []) => None
      end
  | Seq x y => m ic depth whole x (m ic depth whole y k) p
  | Alt x y =>
      match m ic depth whole x k p with
      | Some q => Some q
      | None => m ic depth whole y k p
      end
  | Star x => star_loop (m ic depth whole x) k (length p.2) p
  | Look ahead neg x =>
      if xorb neg (if ahead then ahead_of (m ic depth whole x) p
                   else behind_of (m ic depth whole x) p)
      then k p else None
  | Atomic x =>
      match m ic depth whole x Some p with
      | Some q => k q
      | None => None
      end
  | Recurse =>
      match depth with
      | 0 => None
      | S d => m ic d whole whole k p
      end
  end.
Proof. destruct depth, r; reflexivity. Qed.

Lemma reaches_refl (p : pos) : reaches p p.
Proof. by exists []. Qed.

Lemma reaches_trans (p q r : pos) : reaches p q → reaches q r → reaches p r.
Proof.
  intros [t [H1 H2]] [u [H3 H4]]. exists (t ++ u).
  rewrite H3, H1, H2, H4, reverse_app. by rewrite !(assoc_L (++)).
Qed.

Lemma reaches_length (p q : pos) :
  reaches p q →
  length p.1 ≤ length q.1 ∧
  length q.1 + length q.2 = length p.1 + length p.2.
Proof.
  intros [t [H1 H2]]. rewrite H1, H2, !length_app, length_reverse. lia.
Qed.

Lemma star_loop_forward (mx : (pos → option pos) → pos → option pos)
  (k : pos → option pos) :
  forward mx →
  ∀ n p res, star_loop mx k n p = Some res →
             ∃ q, reaches p q ∧ k q = Some res.
Proof.
  intros Hmx. induction n as [|n IH]; intros p res; simpl.
  - intros Hk. exists p. split; [apply reaches_refl | done].
  - destruct (mx _ p) as [q0|] eqn:Hturn.
    + intros [= ->]. apply Hmx in Hturn as (q & Hpq & Hq).
      destruct (length q.2 <? length p.2); [|done].
      apply IH in Hq as (q' & Hqq' & Hk).
      exists q'. split; [by eapply reaches_trans | done].
    + intros Hk. exists p. split; [apply reaches_refl | done].
Qed.

Lemma m_forward_step (ic : bool) (whole : re) (depth : nat) :
  forward (m ic depth whole Recurse) →
  ∀ r, forward (m ic depth whole r).
Proof.
  intros Hrec.
  induction r as [|cs|x IHx y IHy|x IHx y IHy|x IHx|ahead neg x IHx|x IHx|];
    [intros k p res; rewrite m_eq..|exact Hrec].
  - intros Hk. exists p. split; [apply reaches_refl | done].
  - destruct p as [b [|c a]]; [done|].
    destruct (in_cset ic cs c); [|done].
    intros Hk. exists (c :: b, a). split; [by exists [c] | done].
  - intros H. apply IHx in H as (q & Hpq & H).
    apply IHy in H as (q' & Hqq' & H).
    exists q'. split; [by eapply reaches_trans | done].
  - destruct (m ic depth whole x k p) eqn:Hx.
    + intros [= ->]. by apply IHx in Hx.
    + apply IHy.
  - by apply star_loop_forward.
  - destruct (xorb neg _); [|done].
    intros Hk. exists p. split; [apply reaches_refl | done].
  - destruct (m ic depth whole x Some p) as [q|] eqn:Hx; [|done].
    apply IHx in Hx as (q' & Hpq' & [= ->]).
    intros Hk. by exists q.
Qed.

Lemma m_forward (ic : bool) (whole : re) (depth : nat) (r : re) :
  forward (m ic depth whole r).
Proof.
  revert r. induction depth as [|d IHd]; apply m_forward_step.
  - intros k p res. by rewrite m_eq.
  - intros k p res. rewrite m_eq. apply IHd.
Qed.

Lemma match_at_reaches (ic : bool) (r : re) (p q : pos) :
  match_at ic r p = Some q → reaches p q.
Proof.
  intros H. apply m_forward in H as (q' & Hpq' & [= ->]). done.
Qed.

(** ** The successive matches *)

Lemma ordered_weaken (from from' len : nat) (ms : list rmatch) :
  from ≤ from' → ordered from' len ms → ordered from len ms.
Proof. destruct ms; simpl; [done|]. intros ? (? & ? & ? & ?). repeat split; [lia|done..]. Qed.

Lemma finditer_from_ordered (ic : bool) (r : re) (a b : list ascii)
  (skip from len : nat) :
  from ≤ length b + skip → len = length b + length a →
  ordered from len (finditer_from ic r b a skip).
Proof.
  revert b skip from. induction a as [|c a IH]; intros b skip from Hfrom ->.
  - destruct skip; simpl; [|done].
    destruct (match_at ic r (b, [])) as [q|] eqn:Hq; simpl; [|done].
    apply match_at_reaches, reaches_length in Hq. simpl in Hq. lia.
  - destruct skip as [|skip]; simpl.
    + destruct (match_at ic r (b, c :: a)) as [q|] eqn:Hq; simpl.
      * apply match_at_reaches, reaches_length in Hq. simpl in Hq.
        split_and!; [lia..|]. apply IH; simpl; lia.
      * apply IH; simpl; lia.
    + apply IH; simpl; lia.
Qed.

Lemma finditer_ordered (r : re) (text : str) :
  ordered 0 (length text) (finditer r text).
Proof. apply finditer_from_ordered; simpl; lia. Qed.

(** ** Reading a pattern *)

Lemma read_app (st : pstate) (s1 s2 : str) :
  read st (s1 ++ s2) = st' ← read st s1; read st' s2.
Proof.
  revert st. induction s1 as [|c s1 IH]; intros st; simpl; [done|].
  destruct (step st c); simpl; [apply IH | done].
Qed.

Lemma step_normal_plain (st : pstate) (c : ascii) :
  plain c = true → step_normal st c = Some (emit (lit c) st).
Proof.
  unfold plain. rewrite negb_true_iff, bool_decide_eq_false. intros Hc.
  unfold step_normal.
  repeat (rewrite (bool_decide_eq_false_2 (c = _))
            by (intros ->; apply Hc; repeat constructor)).
  by rewrite bool_decide_eq_false_2.
Qed.

Lemma read_plain (stem : str) (st : pstate) (q : bool) :
  forallb plain stem = true → p_mode st = MNormal q →
  read st stem = Some (foldl (λ st c, emit (lit c) st) st stem).
Proof.
  revert st q. induction stem as [|c stem IH]; intros st q Hplain Hmode;
    simpl; [done|].
  simpl in Hplain. apply andb_true_iff in Hplain as [Hc Hstem].
  unfold step. rewrite Hmode, step_normal_plain by done. simpl.
  by apply (IH _ false).
Qed.

Lemma foldl_emit (stem : str) (k : gkind) (alts atoms : list re)
  (stack : list frame) :
  foldl (λ st c, emit (lit c) st)
        (PState (MNormal false) (Frame k alts atoms) stack) stem
  = PState (MNormal false) (Frame k alts (reverse (map lit stem) ++ atoms))
           stack.
Proof.
  revert atoms. induction stem as [|c stem IH]; intros atoms; simpl; [done|].
  unfold emit at 2. simpl. unfold push_atom. simpl. rewrite IH.
  by rewrite reverse_cons, <- (assoc_L (++)).
Qed.


(** ** Matching a character, a literal and a repetition *)

Lemma startswith_app (s t : str) : startswith (t ++ s) t = true.
Proof.
  induction t as [|c t IH]; simpl; [done|].
  rewrite bool_decide_eq_true_2 by done. exact IH.
Qed.

Lemma endswith_app (s t : str) : endswith (s ++ t) t = true.
Proof. unfold endswith. rewrite reverse_app. apply startswith_app. Qed.

Lemma startswith_longer (a s1 s2 : str) :
  startswith a s1 = false → startswith a (s1 ++ s2) = false.
Proof.
  revert a. induction s1 as [|c s1 IH]; intros a; simpl; [done|].
  destruct a as [|d a]; [done|].
  case_bool_decide; simpl; [apply IH | done].
Qed.

Lemma m_one_char (ic : bool) (depth : nat) (whole : re) (cs : cset)
  (k : pos → option pos) (b a : list ascii) :
  m ic depth whole (Seq (Chr cs) Eps) k (b, a) =
  match a with
  | c :: a' => if in_cset ic cs c then k (c :: b, a') else None
  | [] => None
  end.
Proof.
  rewrite !m_eq. destruct a as [|c a]; [done|].
  destruct (in_cset ic cs c); [|done]. by rewrite m_eq.
Qed.

Lemma one_char_ends (ic : bool) (depth : nat) (whole : re) (cs : cset)
  (n : nat) (b0 a0 : list ascii) :
  bool_decide (is_Some
    (m ic depth whole (Seq (Chr cs) Eps)
       (λ q, if length q.2 =? n then Some q else None) (b0, a0)))
  = match a0 with
    | c :: a0' => in_cset ic cs c && (length a0' =? n)
    | [] => false
    end.
Proof.
  rewrite m_one_char. destruct a0 as [|c a0]; simpl; [done|].
  destruct (in_cset ic cs c); simpl; [destruct (length a0 =? n)|]; done.
Qed.

Lemma ahead_one_char (ic : bool) (depth : nat) (whole : re) (cs : cset)
  (b a : list ascii) :
  ahead_of (m ic depth whole (Seq (Chr cs) Eps)) (b, a) =
  match a with
  | c :: _ => in_cset ic cs c
  | [] => false
  end.
Proof.
  unfold ahead_of. rewrite m_one_char. destruct a as [|c a]; [done|].
  by destruct (in_cset ic cs c).
Qed.

(** A look behind for one character reads the character before. *)
Lemma behind_far (ic : bool) (depth : nat) (whole : re) (cs : cset)
  (n : nat) :
  ∀ b a0, n + 1 < length a0 →
    existsb
      (λ p0, bool_decide (is_Some
         (m ic depth whole (Seq (Chr cs) Eps)
            (λ q, if length q.2 =? n then Some q else None) p0)))
      (positions_before b a0) = false.
Proof.
  induction b as [|c b IH]; intros a0 Hlen; simpl;
    rewrite one_char_ends; destruct a0 as [|c0 a0]; simpl in *; try lia;
    rewrite (proj2 (Nat.eqb_neq (length a0) n)), andb_false_r by lia;
    [done|].
  apply IH. simpl. lia.
Qed.

Lemma behind_one_char (ic : bool) (depth : nat) (whole : re) (cs : cset)
  (b a : list ascii) :
  behind_of (m ic depth whole (Seq (Chr cs) Eps)) (b, a) =
  match b with
  | c :: _ => in_cset ic cs c
  | [] => false
  end.
Proof.
  unfold behind_of. cbn [fst snd].
  destruct b as [|c b]; cbn [positions_before existsb];
    rewrite one_char_ends.
  - destruct a as [|c0 a]; [done|]. simpl.
    by rewrite (proj2 (Nat.eqb_neq _ _)), andb_false_r by lia.
  - assert ((match a with
             | c0 :: a0' => in_cset ic cs c0 && (length a0' =? length a)
             | [] => false
             end) = false) as ->.
    { destruct a as [|c0 a]; [done|]. simpl.
      by rewrite (proj2 (Nat.eqb_neq _ _)), andb_false_r by lia. }
    destruct b as [|c0 b]; cbn [positions_before existsb orb];
      rewrite one_char_ends, Nat.eqb_refl, andb_true_r.
    + by rewrite orb_false_r.
    + rewrite behind_far by (simpl; lia). by rewrite orb_false_r.
Qed.

(** A run of literal characters matches itself and nothing else. *)
Lemma m_literals (depth : nat) (whole : re) (rest : list re)
  (k : pos → option pos) (s : str) :
  ∀ b a,
    is_Some (m false depth whole (seq_of (map lit s ++ rest)) k (b, a)) ↔
    ∃ a', a = s ++ a' ∧
          is_Some (m false depth whole (seq_of rest) k (reverse s ++ b, a')).
Proof.
  induction s as [|c s IH]; intros b a; simpl.
  - split; [intros H; by exists a | by intros (a' & -> & H)].
  - rewrite m_eq. unfold lit at 1. rewrite m_eq.
    destruct a as [|c0 a].
    + split; [by intros [? ?] | by intros (a' & ? & _)].
    + simpl. case_bool_decide as Hc.
      * subst c0. fold (seq_of (map lit s ++ rest)). rewrite IH.
        split; intros (a' & Ha & H); exists a'.
        -- subst a. by rewrite reverse_cons, <- (assoc_L (++)).
        -- injection Ha as ->. by rewrite reverse_cons, <- (assoc_L (++)) in H.
      * split; [by intros [? ?]|]. intros (a' & Ha & _). congruence.
Qed.

Lemma m_literals_eq (depth : nat) (whole : re) (rest : list re)
  (k : pos → option pos) (s : str) (b a : list ascii) :
  m false depth whole (seq_of (map lit s ++ rest)) k (b, s ++ a)
  = m false depth whole (seq_of rest) k (reverse s ++ b, a).
Proof.
  revert b. induction s as [|c s IH]; intros b; simpl; [done|].
  rewrite m_eq. unfold lit at 1. rewrite m_eq. simpl.
  rewrite bool_decide_eq_true_2 by done.
  fold (seq_of (map lit s ++ rest)). rewrite IH.
  by rewrite reverse_cons, <- (assoc_L (++)).
Qed.

Lemma m_literals_none (depth : nat) (whole : re) (rest : list re)
  (k : pos → option pos) (s : str) (b a : list ascii) :
  startswith a s = false →
  m false depth whole (seq_of (map lit s ++ rest)) k (b, a) = None.
Proof.
  intros Hs. apply eq_None_not_Some. rewrite m_literals.
  intros (a' & -> & _). by rewrite startswith_app in Hs.
Qed.

Lemma star_loop_class (ic : bool) (depth : nat) (whole : re) (cs : cset)
  (k : pos → option pos) (n : nat) :
  ∀ b a, length a ≤ n →
    star_loop (m ic depth whole (Chr cs)) k n (b, a)
    = star_class (in_cset ic cs) k b a.
Proof.
  induction n as [|n IH]; intros b a Hlen.
  - destruct a; [done | simpl in Hlen; lia].
  - simpl. rewrite m_eq. destruct a as [|c a]; [done|]. simpl.
    destruct (in_cset ic cs c); [|done].
    rewrite (proj2 (Nat.ltb_lt _ _)) by lia.
    rewrite IH by (simpl in Hlen; lia). done.
Qed.

Lemma m_star_class (ic : bool) (depth : nat) (whole : re) (cs : cset)
  (k : pos → option pos) (b a : list ascii) :
  m ic depth whole (Star (Chr cs)) k (b, a) = star_class (in_cset ic cs) k b a.
Proof. rewrite m_eq. by apply star_loop_class. Qed.

Lemma star_class_run (holds : ascii → bool) (k : pos → option pos)
  (run : str) :
  ∀ b tail,
    forallb holds run = true →
    (∀ c, head tail = Some c → holds c = false) →
    is_Some (k (reverse run ++ b, tail)) →
    star_class holds k b (run ++ tail) = k (reverse run ++ b, tail).
Proof.
  induction run as [|c run IH]; intros b tail Hrun Htail Hk; simpl.
  - destruct tail as [|c tail]; [done|]. simpl.
    by rewrite (Htail c eq_refl).
  - simpl in Hrun. apply andb_true_iff in Hrun as [-> Hrun].
    rewrite reverse_cons, <- (assoc_L (++)) in Hk |- *. simpl in *.
    rewrite IH by done. by destruct Hk as [q ->].
Qed.

Lemma star_class_skip (holds : ascii → bool) (k : pos → option pos) :
  ∀ a b, is_Some (k (b, a)) → is_Some (star_class holds k b a).
Proof.
  intros [|c a] b Hk; simpl; [done|].
  destruct (holds c); [|done].
  by destruct (star_class holds k (c :: b) a).
Qed.

Lemma m_seq_of_cons (ic : bool) (depth : nat) (whole x : re) (l : list re)
  (k : pos → option pos) (p0 : pos) :
  m ic depth whole (seq_of (x :: l)) k p0
  = m ic depth whole x (m ic depth whole (seq_of l) k) p0.
Proof. cbn [seq_of foldr]. by rewrite m_eq. Qed.

(** ** Searching *)

Lemma search_from_is_Some (ic : bool) (r : re) (a : list ascii) :
  ∀ b,
    is_Some (search_from ic r b a) ↔
    ∃ before a', a = before ++ a' ∧
                 is_Some (match_at ic r (reverse before ++ b, a')).
Proof.
  induction a as [|c a IH]; intros b; simpl.
  - destruct (match_at ic r (b, [])) eqn:Hm.
    + split; [|by eexists]. intros _. exists [], [].
      rewrite reverse_nil. simpl. by rewrite Hm.
    + split; [intros H; by apply is_Some_None in H|].
      intros (before & a' & Heq & H).
      symmetry in Heq. apply app_eq_nil in Heq as [-> ->].
      rewrite reverse_nil in H. simpl in H. rewrite Hm in H.
      by apply is_Some_None in H.
  - destruct (match_at ic r (b, c :: a)) eqn:Hm.
    + split; [|by eexists]. intros _. exists [], (c :: a).
      rewrite reverse_nil. simpl. by rewrite Hm.
    + rewrite IH. split.
      * intros (before & a' & -> & H). exists (c :: before), a'.
        split; [done|]. by rewrite reverse_cons, <- (assoc_L (++)).
      * intros (before & a' & Heq & H). destruct before as [|c0 before].
        -- rewrite reverse_nil in H. simpl in *. subst a'. rewrite Hm in H.
           by apply is_Some_None in H.
        -- injection Heq as -> ->. exists before, a'. split; [done|].
           by rewrite reverse_cons, <- (assoc_L (++)) in H.
Qed.

Lemma search_from_None (ic : bool) (r : re) (a : list ascii) :
  ∀ b, (∀ before a', a = before ++ a' →
                     match_at ic r (reverse before ++ b, a') = None) →
       search_from ic r b a = None.
Proof.
  intros b Hnone.
  destruct (search_from ic r b a) eqn:Hs; [|done].
  assert (is_Some (search_from ic r b a)) as H by (by eexists).
  apply search_from_is_Some in H as (before & a' & Heq & Hsome).
  rewrite (Hnone before a' Heq) in Hsome. by apply is_Some_None in Hsome.
Qed.

Lemma search_from_prefix (ic : bool) (r : re) (s : str) :
  ∀ b a,
    (∀ before a', s = before ++ a' → a' ≠ [] →
                  match_at ic r (reverse before ++ b, a' ++ a) = None) →
    search_from ic r b (s ++ a) = search_from ic r (reverse s ++ b) a.
Proof.
  induction s as [|c s IH]; intros b a Hnone; [done|].
  cbn [app search_from].
  pose proof (Hnone [] (c :: s) eq_refl ltac:(done)) as Hhere.
  rewrite reverse_nil in Hhere. cbn [app] in Hhere. rewrite Hhere.
  rewrite IH.
  - by rewrite !reverse_cons, <- !(assoc_L (++)).
  - intros before a' -> Ha'.
    specialize (Hnone (c :: before) a' eq_refl Ha').
    by rewrite reverse_cons, <- (assoc_L (++)) in Hnone.
Qed.

Lemma search_from_here (ic : bool) (r : re) (b a : list ascii) (q : pos) :
  match_at ic r (b, a) = Some q →
  search_from ic r b a = Some (mk_match (b, a) q).
Proof. intros H. destruct a; simpl; by rewrite H. Qed.

Lemma finditer_from_skip (ic : bool) (r : re) (s : str) :
  ∀ b rest,
    finditer_from ic r b (s ++ rest) (length s)
    = finditer_from ic r (reverse s ++ b) rest 0.
Proof.
  induction s as [|c s IH]; intros b rest; simpl; [done|].
  by rewrite IH, reverse_cons, <- (assoc_L (++)).
Qed.

Lemma finditer_from_token (ic : bool) (r : re) (c : ascii) (tok : str)
  (b tail : list ascii) :
  match_at ic r (b, (c :: tok) ++ tail) = Some (reverse (c :: tok) ++ b, tail) →
  finditer_from ic r b ((c :: tok) ++ tail) 0
  = RMatch (length b) (length b + length (c :: tok)) (c :: tok)
    :: finditer_from ic r (reverse (c :: tok) ++ b) tail 0.
Proof.
  intros Hm. cbn [app finditer_from]. cbn [app] in Hm. rewrite Hm.
  cbn [fst]. unfold mk_match. cbn [fst].
  rewrite length_app, length_reverse.
  replace (length (c :: tok) + length b - length b) with (length (c :: tok))
    by lia.
  rewrite <- (length_reverse (c :: tok)) at 2.
  rewrite take_app_length, reverse_involutive.
  cbn [length pred]. rewrite finditer_from_skip.
  rewrite reverse_cons, <- (assoc_L (++)).
  by rewrite (Nat.add_comm (S (length tok))).
Qed.


(** ** The conditional resolver *)

Lemma scan_token_classify (exc : list str) (c : cursor) (mm : rmatch) :
  scan_token exc c mm =
  match classify exc mm with
  | TIf k => ret (Some (open_subtree k mm c))
  | TSkip => ret (Some c)
  | TElse =>
      match parents c with
      | [] => print_abort c "unmatched \else" ;;; ret None
      | _ :: _ =>
          match t_else (focus c) with
          | Some _ => print_abort c "duplicate \else" ;;; ret None
          | None => ret (Some (Cursor (set_else (focus c) mm) (parents c)))
          end
      end
  | TFi =>
      match parents c with
      | [] => print_abort c "unmatched \fi" ;;; ret None
      | parent :: rest =>
          ret (Some (Cursor (add_subtree parent (set_end (focus c) mm)) rest))
      end
  | TOther => raise (RuntimeError "Unreachable!")
  end.
Proof.
  unfold scan_token, classify.
  repeat (match goal with |- context [if ?b then _ else _] => destruct b end;
          try reflexivity).
Qed.

Lemma delete_to_end (text : str) (start : nat) :
  delete_span text (start, length text) = take start text.
Proof.
  unfold delete_span. simpl. rewrite lookup_ge_None_2 by lia.
  by rewrite drop_all, app_nil_r.
Qed.

Lemma delete_from_start (text : str) (e s : nat) :
  e ≤ s →
  delete_span (take s text) (0, e) = eat_space (slice e s text).
Proof.
  intros Hes. unfold delete_span, slice, eat_space. rewrite take_0. simpl.
  rewrite take_drop_commute.
  replace (e + (s - e)) with s by lia.
  destruct (decide (e < length (take s text))) as [Hlt|Hge].
  - destruct (lookup_lt_is_Some_2 _ _ Hlt) as [c Hc]. rewrite Hc.
    rewrite (drop_S _ c e Hc).
    destruct (isspace c); [|rewrite <- (drop_S _ c e Hc); done].
    by rewrite Nat.add_1_r.
  - rewrite lookup_ge_None_2 by lia. by rewrite drop_ge by lia.
Qed.

(** The resolution of a text whose tokens are one literal [\if], one
    [\else] and one [\fi], the first at the start of the text and the last
    at its end. *)
Lemma simplify_literal_conditional (text : str) (exc : list str)
  (t0 t1 t2 : rmatch) (k : kind) :
  finditer p text = [t0; t1; t2] →
  classify (exceptions exc) t0 = TIf k →
  classify (exceptions exc) t1 = TElse →
  classify (exceptions exc) t2 = TFi →
  m_start t0 = 0 → m_end t2 = length text →
  _simplify_conditional_blocks text exc =
  match k with
  | iftrue => ret (eat_space (slice (m_end t0) (m_start t1) text))
  | iffalse => ret (eat_space (slice (m_end t1) (m_start t2) text))
  | unknown => ret text
  | toplevel => raise (ValueError "Unreachable!")
  end.
Proof.
  intros Htok H0 H1 H2 Hs He.
  pose proof (finditer_ordered p text) as Hord. rewrite Htok in Hord.
  simpl in Hord. destruct Hord as (_ & ? & _ & ? & ? & _ & ? & ? & _ & _).
  unfold _simplify_conditional_blocks. rewrite Htok. simpl.
  rewrite !scan_token_classify, H0. simpl.
  rewrite !scan_token_classify, H1. simpl.
  rewrite !scan_token_classify, H2. simpl.
  destruct k; cbn -[delete_span].
  - done.
  - rewrite Hs, He, delete_to_end. unfold ret. f_equal. f_equal.
    by apply delete_from_start.
  - rewrite Hs, He, delete_to_end.  unfold ret. f_equal. f_equal.
    by apply delete_from_start.
  - done.
Qed.

(** *** Texts without [\else] and [\fi] *)

Lemma bind_ret {A B} (a : A) (f : A → io B) : bind (ret a) f = f a.
Proof. unfold bind, ret. by destruct (f a). Qed.

Lemma print_tree_eq (t : tree) (indent : nat) :
  print_tree t indent =
  (match t_start t with
   | Some mm => write (spaces indent ++ m_group mm ++ [nl])
   | None => ret tt
   end ;;;
   for_each (λ subtree, print_tree subtree (indent + 2)) (t_left t) ;;;
   match t_else t with
   | Some mm => write (spaces indent ++ m_group mm ++ [nl])
   | None => ret tt
   end ;;;
   for_each (λ _, raise TypeError) (t_right t) ;;;
   match t_end t with
   | Some mm => write (spaces indent ++ m_group mm ++ [nl])
   | None => ret tt
   end).
Proof. by destruct t. Qed.

Lemma nested_lines_app (starts rest : list rmatch) :
  ∀ indent,
    nested_lines indent (starts ++ rest)
    = nested_lines indent starts
      ++ nested_lines (indent + 2 * length starts) rest.
Proof.
  induction starts as [|mm starts IH]; intros indent; simpl.
  - by rewrite Nat.add_0_r.
  - rewrite IH. do 3 f_equal. lia.
Qed.

(** The scan of tokens that open a conditional or are skipped: a node with
    its start token for each token that opens, each below the one
    before. *)
Lemma scan_opened (exc : list str) (tokens : list rmatch) :
  Forall (λ mm, (∃ k, classify exc mm = TIf k) ∨ classify exc mm = TSkip)
         tokens →
  ∀ c, ∃ c' ts,
    scan exc c tokens = ret (Some c') ∧
    Forall2 (λ mm t, ∃ k, t = set_start (new_subtree k) mm)
            (List.filter (opens exc) tokens) ts ∧
    focus c' :: parents c' = reverse ts ++ focus c :: parents c.
Proof.
  induction 1 as [|mm tokens Hmm _ IH]; intros c; simpl.
  - exists c, []. by split_and!; [|constructor|].
  - rewrite scan_token_classify. unfold opens at 1.
    destruct Hmm as [[k ->] | ->]; rewrite bind_ret.
    + destruct (IH (open_subtree k mm c)) as (c' & ts & -> & Hts & Hc').
      exists c', (set_start (new_subtree k) mm :: ts). split_and!; [done| |].
      * constructor; [by exists k | done].
      * by rewrite Hc', reverse_cons, <- (assoc_L (++)).
    + destruct (IH c) as (c' & ts & -> & Hts & Hc'). by exists c', ts.
Qed.

(** A node with a start token only and a subtree below it is printed as
    its token and then the subtree, two columns further in. *)
Lemma print_tree_below (k : kind) (mm : rmatch) (child : tree)
  (w : nat → list str) :
  (∀ indent, print_tree child indent = (w indent, inr tt)) →
  ∀ indent,
    print_tree (add_subtree (set_start (new_subtree k) mm) child) indent
    = ((spaces indent ++ m_group mm ++ [nl]) :: w (indent + 2), inr tt).
Proof.
  intros Hchild indent. rewrite print_tree_eq. cbn. rewrite Hchild. cbn.
  by rewrite !app_nil_r.
Qed.

Lemma print_tree_nested (starts : list rmatch) (ps : list tree) :
  Forall2 (λ mm t, ∃ k, t = set_start (new_subtree k) mm) starts ps →
  ∀ (child : tree) (w : nat → list str),
    (∀ indent, print_tree child indent = (w indent, inr tt)) →
    ∀ indent,
      print_tree (foldl (λ child parent, add_subtree parent child) child ps)
                 indent
      = (nested_lines indent (reverse starts) ++ w (indent + 2 * length ps),
         inr tt).
Proof.
  induction 1 as [|mm parent starts ps [k ->] Hrest IH];
    intros child w Hchild indent.
  - simpl. by rewrite Nat.add_0_r.
  - cbn [foldl].
    rewrite (IH _ _ (print_tree_below k mm child w Hchild)).
    rewrite reverse_cons, nested_lines_app, length_reverse.
    rewrite (Forall2_length _ _ _ Hrest), <- (assoc_L (++)). simpl.
    do 4 f_equal. lia.
Qed.

(** X8.  A text in which the scan finds no [\else] and no [\fi], only
    tokens that open a conditional or that are skipped, is returned as it
    is and nothing is raised.  When no token opens a conditional nothing is
    written.  Otherwise the warning names the last token that opens one as
    unmatched, and the tree printed has a line for each token that opens a
    conditional, in the order of the text, the first indented by 11 spaces
    and each of the others by two more than the one before. *)
Theorem simplify_without_else_fi (text : str) (if_exceptions : list str) :
  Forall (λ mm, (∃ k, classify (exceptions if_exceptions) mm = TIf k)
                ∨ classify (exceptions if_exceptions) mm = TSkip)
         (finditer p text) →
  _simplify_conditional_blocks text if_exceptions
  = match last (List.filter (opens (exceptions if_exceptions))
                            (finditer p text)) with
    | None => ([], inr text)
    | Some st =>
        ( [ "Warning: Found unmatched " ++ m_group st
              ++ "! Not removing any conditional blocks..." ++ [nl];
            "         This is the matched tree (as built up to the error):"
              ++ [nl] ]
          ++ nested_lines 11 (List.filter (opens (exceptions if_exceptions))
                                          (finditer p text))
          ++ [ "         Potentially, you need to supply an exception using --if_exceptions'."
                 ++ [nl] ],
          inr text )
    end.
Proof.
  intros Htokens.
  destruct (scan_opened _ _ Htokens initial_cursor) as (c & ts & Hscan & Hts & Hc).
  unfold _simplify_conditional_blocks. rewrite Hscan, bind_ret.
  set (starts := List.filter _ _) in *. clearbody starts.
  destruct c as [f ps]. cbn [focus parents initial_cursor] in *.
  destruct ts as [|t ts0 _] using rev_ind.
  - apply Forall2_nil_inv_r in Hts as ->.
    rewrite reverse_nil in Hc. injection Hc as -> ->. done.
  - apply Forall2_app_inv_r in Hts as (starts0 & last_start & Hts0 & Hlast & ->).
    inversion Hlast as [|st t' l1 l2 [k Hk] Hnil]; subst.
    apply Forall2_nil_inv_r in Hnil as ->.
    rewrite reverse_snoc in Hc. injection Hc as -> ->.
    rewrite last_snoc.
    destruct (reverse ts0 ++ [new_subtree toplevel]) as [|? ?] eqn:Hps;
      [by destruct (reverse ts0)|]. rewrite <- Hps. clear Hps.
    cbn [focus t_start set_start key]. rewrite bind_ret.
    unfold print_abort, toplevel_tree. cbn [focus parents].
    rewrite foldl_app. cbn [foldl].
    pose proof (print_tree_nested _ _ (Forall2_reverse _ _ _ Hts0)
                  (set_start (new_subtree k) st)
                  (λ indent, [spaces indent ++ m_group st ++ [nl]])
                  (λ indent, eq_refl)) as Hprint.
    rewrite reverse_involutive, length_reverse in Hprint.
    rewrite print_tree_eq. cbn. rewrite Hprint. cbn.
    rewrite nested_lines_app, (Forall2_length _ _ _ Hts0).
    by rewrite !app_nil_r, <- !(assoc_L (++)).
Qed.

Lemma simplify_without_else_fi_witness :
  _simplify_conditional_blocks "\ifdraft a \ifdef b \iftrue c" []
  = ( [ "Warning: Found unmatched \iftrue! Not removing any conditional blocks..."
          ++ [nl];
        "         This is the matched tree (as built up to the error):"
          ++ [nl];
        "           \ifdraft" ++ [nl];
        "             \iftrue" ++ [nl];
        "         Potentially, you need to supply an exception using --if_exceptions'."
          ++ [nl] ],
      inr "\ifdraft a \ifdef b \iftrue c" ).
Proof.
  apply (simplify_without_else_fi "\ifdraft a \ifdef b \iftrue c" []).
  replace (finditer p "\ifdraft a \ifdef b \iftrue c")
    with [RMatch 0 8 "\ifdraft"; RMatch 11 17 "\ifdef"; RMatch 20 27 "\iftrue"]
    by (vm_compute; reflexivity).
  apply Forall_cons; split; [left; eexists; vm_compute; reflexivity|].
  apply Forall_cons; split; [right; vm_compute; reflexivity|].
  apply Forall_cons; split; [left; eexists; vm_compute; reflexivity|].
  apply Forall_nil. done.
Defined.

(** *** The tokens of a literal conditional *)

Lemma p_eq : p = Alt if_re (Alt else_re fi_re).
Proof. vm_compute. reflexivity. Qed.

(** No token starts at a character that is not a backslash. *)
Lemma token_needs_backslash (b a : list ascii) :
  startswith a "\" = false → match_at false p (b, a) = None.
Proof.
  intros Ha. unfold match_at. cbn [snd]. rewrite p_eq at 2.
  rewrite m_eq.
  assert (m false (length a) p if_re Some (b, a) = None) as ->.
  { unfold if_re. rewrite m_eq, (m_eq _ _ _ (Look _ _ _)).
    destruct (xorb _ _); [|done].
    apply m_literals_none. by apply (startswith_longer a "\" "if"). }
  rewrite m_eq.
  unfold else_re, fi_re. rewrite !m_literals_none; [done|..].
  - by apply (startswith_longer a "\" "fi").
  - by apply (startswith_longer a "\" "else").
Qed.

Lemma word_not_space (c : ascii) : re_word c = true → re_space c = false.
Proof.
  destruct c as [[] [] [] [] [] [] [] []]; vm_compute; congruence.
Qed.

Lemma no_word_ahead_passes (depth : nat) (whole : re) (b tail : list ascii) :
  (∀ c, head tail = Some c → re_word c = false) →
  m false depth whole (seq_of [no_word_ahead]) Some (b, tail) = Some (b, tail).
Proof.
  intros Htail. cbn [seq_of foldr]. unfold no_word_ahead, word_re.
  rewrite m_eq, (m_eq _ _ _ (Look _ _ _)), ahead_one_char.
  assert (match tail with
          | c :: _ => in_cset false (One (IWord false)) c
          | [] => false
          end = false) as ->.
  { destruct tail as [|c tail]; [done|]. simpl. by apply Htail. }
  simpl. by rewrite m_eq.
Qed.

(** An [\else] and a [\fi] with no word character after them are tokens,
    whatever stands before them. *)
Lemma else_token (b tail : list ascii) :
  (∀ c, head tail = Some c → re_word c = false) →
  match_at false p (b, "\else" ++ tail) = Some (reverse "\else" ++ b, tail).
Proof.
  intros Htail. unfold match_at. cbn [snd]. rewrite p_eq at 2.
  rewrite m_eq.
  assert (m false (length ("\else" ++ tail)) p if_re Some (b, "\else" ++ tail)
          = None) as ->.
  { unfold if_re. rewrite m_eq, (m_eq _ _ _ (Look _ _ _)).
    destruct (xorb _ _); [|done]. by apply m_literals_none. }
  rewrite m_eq. unfold else_re.
  by rewrite m_literals_eq, no_word_ahead_passes.
Qed.

Lemma fi_token (b tail : list ascii) :
  (∀ c, head tail = Some c → re_word c = false) →
  match_at false p (b, "\fi" ++ tail) = Some (reverse "\fi" ++ b, tail).
Proof.
  intros Htail. unfold match_at. cbn [snd]. rewrite p_eq at 2.
  rewrite m_eq.
  assert (m false (length ("\fi" ++ tail)) p if_re Some (b, "\fi" ++ tail)
          = None) as ->.
  { unfold if_re. rewrite m_eq, (m_eq _ _ _ (Look _ _ _)).
    destruct (xorb _ _); [|done]. by apply m_literals_none. }
  rewrite m_eq. unfold else_re at 1. rewrite m_literals_none by done.
  unfold fi_re.
  by rewrite m_literals_eq, no_word_ahead_passes.
Qed.

(** At the start of a text, an [\if] with a name of word characters, and
    no word character after it, is a token. *)
Lemma if_token (c : ascii) (name tail : list ascii) :
  forallb re_word (c :: name) = true →
  (∀ d, head tail = Some d → re_word d = false) →
  match_at false p ([], "\if" ++ (c :: name) ++ tail)
  = Some (reverse ("\if" ++ c :: name), tail).
Proof.
  intros Hname Htail. unfold match_at. cbn [snd]. rewrite p_eq at 2.
  generalize (length ("\if" ++ (c :: name) ++ tail)). intros depth.
  rewrite m_eq.
  assert (m false depth p if_re Some ([], "\if" ++ (c :: name) ++ tail)
          = Some (reverse ("\if" ++ c :: name), tail)) as ->; [|done].
  unfold if_re. rewrite m_eq, (m_eq _ _ _ (Look _ _ _)).
  assert (ahead_of (m false depth p (Seq (Look false false newif_re) Eps))
                   ([], "\if" ++ (c :: name) ++ tail) = false) as ->.
  { unfold ahead_of. rewrite m_eq, (m_eq _ _ _ (Look _ _ _)).
    unfold behind_of. cbn [fst snd positions_before existsb].
    unfold newif_re.
    rewrite (m_literals_none depth p [Star space_re] _ "\newif") by done.
    done. }
  cbn [xorb negb]. rewrite m_literals_eq.
  cbn [seq_of foldr]. rewrite m_eq. unfold space_re at 1.
  rewrite m_star_class.
  simpl in Hname. apply andb_true_iff in Hname as [Hc Hname].
  cbn [app star_class]. cbn [in_cset in_item xorb].
  rewrite (word_not_space c Hc).
  unfold word_re. rewrite !(m_eq _ _ _ (Seq _ _)), (m_eq _ _ _ (Chr _)).
  cbn [in_cset in_item xorb]. rewrite Hc, m_star_class.
  rewrite star_class_run; [|done|done|].
  - rewrite !(m_eq _ _ _ Eps), app_nil_r.
    change ("\"%char :: "i"%char :: "f"%char :: c :: name)
      with ("\if" ++ c :: name).
    by rewrite reverse_app, (reverse_cons name c), <- (assoc_L (++)).
  - rewrite !(m_eq _ _ _ Eps). by eexists.
Qed.

(** *** The successive tokens *)

Lemma finditer_from_inert (s : str) :
  ∀ b rest,
    backslash ∉ s →
    finditer_from false p b (s ++ rest) 0
    = finditer_from false p (reverse s ++ b) rest 0.
Proof.
  induction s as [|c s IH]; intros b rest Hs; [done|].
  apply not_elem_of_cons in Hs as [Hc Hs].
  cbn [app finditer_from]. rewrite token_needs_backslash.
  - by rewrite IH, reverse_cons, <- (assoc_L (++)).
  - simpl. by rewrite bool_decide_eq_false_2.
Qed.

Lemma finditer_from_end (b : list ascii) : finditer_from false p b [] 0 = [].
Proof. cbn [finditer_from]. by rewrite token_needs_backslash. Qed.

(** *** A literal conditional with inert branches *)

Lemma inert_head (s rest : str) :
  inert s → ∀ d, head (s ++ backslash :: rest) = Some d → re_word d = false.
Proof.
  intros [_ Hhead] d. destruct s as [|c s]; simpl.
  - by intros [= <-].
  - intros [= <-]. by apply Hhead.
Qed.

Lemma literal_tokens (c : ascii) (name A B : str) :
  forallb re_word (c :: name) = true → inert A → inert B →
  finditer p ("\if" ++ (c :: name) ++ A ++ "\else" ++ B ++ "\fi") =
  [ RMatch 0 (length ("\if" ++ c :: name)) ("\if" ++ c :: name);
    RMatch (length ("\if" ++ c :: name) + length A)
           (length ("\if" ++ c :: name) + length A + 5) "\else";
    RMatch (length ("\if" ++ c :: name) + length A + 5 + length B)
           (length ("\if" ++ c :: name) + length A + 5 + length B + 3) "\fi" ].
Proof.
  intros Hname HA HB. unfold finditer.
  change ("\if" ++ (c :: name) ++ A ++ "\else" ++ B ++ "\fi")
    with (("\if" ++ c :: name) ++ A ++ "\else" ++ B ++ "\fi").
  rewrite (finditer_from_token false p "\"%char ("if" ++ c :: name) []).
  2: { rewrite app_nil_r.
       apply (if_token c name (A ++ "\else" ++ B ++ "\fi")); [done|].
       by apply (inert_head A). }
  rewrite finditer_from_inert by apply HA.
  rewrite (finditer_from_token false p "\"%char "else").
  2: { apply else_token. by apply (inert_head B). }
  rewrite finditer_from_inert by apply HB.
  rewrite <- (app_nil_r "\fi").
  rewrite (finditer_from_token false p "\"%char "fi").
  2: { by apply fi_token. }
  rewrite finditer_from_end.
  rewrite !length_app, !length_reverse. simpl.
  repeat (first [lia | reflexivity | f_equal]).
Qed.

Lemma slice_middle (a b c : str) :
  slice (length a) (length a + length b) (a ++ b ++ c) = b.
Proof.
  unfold slice. replace (length a + length b - length a) with (length b) by lia.
  by rewrite drop_app_length, take_app_length.
Qed.

(** X9.  For a text that is a literal conditional, [\iftrue A\else B\fi] or
    [\iffalse A\else B\fi], whose branches hold no backslash and start with
    no word character, the resolver returns the branch that is taken, less
    the character right after the deleted directive when that character is
    whitespace; the other branch and the three directives are removed. *)
Theorem simplify_inert_conditional (A B : str) (if_exceptions : list str) :
  inert A → inert B →
  _simplify_conditional_blocks ("\iftrue" ++ A ++ "\else" ++ B ++ "\fi")
                               if_exceptions = ret (eat_space A) ∧
  _simplify_conditional_blocks ("\iffalse" ++ A ++ "\else" ++ B ++ "\fi")
                               if_exceptions = ret (eat_space B).
Proof.
  intros HA HB. split.
  - pose proof (literal_tokens "t" "rue" A B eq_refl HA HB) as Htok.
    cbn [app length] in Htok.
    rewrite (simplify_literal_conditional _ _ _ _ _ iftrue Htok);
      [|reflexivity..|].
    + cbn [m_end m_start]. do 2 f_equal.
      exact (slice_middle "\iftrue" A ("\else" ++ B ++ "\fi")).
    + cbn [m_end]. simpl. rewrite ?length_app. simpl. rewrite ?length_app.
      simpl. lia.
  - pose proof (literal_tokens "f" "alse" A B eq_refl HA HB) as Htok.
    cbn [app length] in Htok.
    rewrite (simplify_literal_conditional _ _ _ _ _ iffalse Htok);
      [|reflexivity..|].
    + cbn [m_end m_start]. do 2 f_equal.
      etrans; [|exact (slice_middle ("\iffalse" ++ A ++ "\else") B "\fi")].
      f_equal.
      * simpl. rewrite !length_app. simpl. lia.
      * simpl. rewrite !length_app. simpl. lia.
      * by rewrite <- !(assoc_L (++)).
    + cbn [m_end]. simpl. rewrite ?length_app. simpl. rewrite ?length_app.
      simpl. lia.
Qed.

Lemma simplify_inert_conditional_witness :
  _simplify_conditional_blocks ("\iftrue" ++ " A " ++ "\else" ++ " B " ++ "\fi")
                               [] = ret (eat_space " A ") ∧
  _simplify_conditional_blocks ("\iffalse" ++ " A " ++ "\else" ++ " B " ++ "\fi")
                               [] = ret (eat_space " B ").
Proof.
  apply (simplify_inert_conditional " A " " B " []).
  - split; [|by intros d [= <-]].
    vm_compute. intros H.
    repeat (apply elem_of_cons in H as [H|H]; [discriminate|]).
    by apply elem_of_nil in H.
  - split; [|by intros d [= <-]].
    vm_compute. intros H.
    repeat (apply elem_of_cons in H as [H|H]; [discriminate|]).
    by apply elem_of_nil in H.
Defined.

(** *** A literal conditional without [\else] *)

Lemma delete_all (text : str) : delete_span text (0, length text) = [].
Proof. by rewrite delete_to_end, take_0. Qed.

(** The resolution of a text whose tokens are one literal [\if] at its
    start and one [\fi] at its end. *)
Lemma simplify_literal_no_else (text : str) (exc : list str)
  (t0 t2 : rmatch) (k : kind) :
  finditer p text = [t0; t2] →
  classify (exceptions exc) t0 = TIf k →
  classify (exceptions exc) t2 = TFi →
  m_start t0 = 0 → m_end t2 = length text →
  _simplify_conditional_blocks text exc =
  match k with
  | iftrue => ret (eat_space (slice (m_end t0) (m_start t2) text))
  | iffalse => ret []
  | unknown => ret text
  | toplevel => raise (ValueError "Unreachable!")
  end.
Proof.
  intros Htok H0 H2 Hs He.
  pose proof (finditer_ordered p text) as Hord. rewrite Htok in Hord.
  simpl in Hord. destruct Hord as (_ & ? & _ & ? & ? & _ & _).
  unfold _simplify_conditional_blocks. rewrite Htok. simpl.
  rewrite !scan_token_classify, H0. simpl.
  rewrite !scan_token_classify, H2. simpl.
  destruct k; cbn -[delete_span].
  - done.
  - rewrite Hs, He, delete_all. done.
  - rewrite Hs, He, delete_to_end. unfold ret. f_equal. f_equal.
    by apply delete_from_start.
  - done.
Qed.

Lemma literal_tokens_no_else (c : ascii) (name A : str) :
  forallb re_word (c :: name) = true → inert A →
  finditer p ("\if" ++ (c :: name) ++ A ++ "\fi") =
  [ RMatch 0 (length ("\if" ++ c :: name)) ("\if" ++ c :: name);
    RMatch (length ("\if" ++ c :: name) + length A)
           (length ("\if" ++ c :: name) + length A + 3) "\fi" ].
Proof.
  intros Hname HA. unfold finditer.
  change ("\if" ++ (c :: name) ++ A ++ "\fi")
    with (("\if" ++ c :: name) ++ A ++ "\fi").
  rewrite (finditer_from_token false p "\"%char ("if" ++ c :: name) []).
  2: { rewrite app_nil_r.
       apply (if_token c name (A ++ "\fi")); [done|].
       by apply (inert_head A). }
  rewrite finditer_from_inert by apply HA.
  rewrite (finditer_from_token false p "\"%char "fi" _ []).
  2: { by apply fi_token. }
  rewrite finditer_from_end.
  rewrite !length_app, !length_reverse. simpl.
  repeat (first [lia | reflexivity | f_equal]).
Qed.

(** X10.  For a text [\iftrue A\fi] whose body holds no backslash and starts
    with no word character, the resolver returns the body, less its first
    character when that is whitespace; for [\iffalse A\fi] it returns the
    empty text. *)
Theorem simplify_inert_no_else (A : str) (if_exceptions : list str) :
  inert A →
  _simplify_conditional_blocks ("\iftrue" ++ A ++ "\fi") if_exceptions
    = ret (eat_space A) ∧
  _simplify_conditional_blocks ("\iffalse" ++ A ++ "\fi") if_exceptions
    = ret [].
Proof.
  intros HA. split.
  - pose proof (literal_tokens_no_else "t" "rue" A eq_refl HA) as Htok.
    cbn [app length] in Htok.
    rewrite (simplify_literal_no_else _ _ _ _ iftrue Htok);
      [|reflexivity..|].
    + cbn [m_end m_start]. do 2 f_equal.
      exact (slice_middle "\iftrue" A "\fi").
    + cbn [m_end]. simpl. rewrite ?length_app. simpl. lia.
  - pose proof (literal_tokens_no_else "f" "alse" A eq_refl HA) as Htok.
    cbn [app length] in Htok.
    rewrite (simplify_literal_no_else _ _ _ _ iffalse Htok);
      [done|reflexivity..|].
    cbn [m_end]. simpl. rewrite ?length_app. simpl. lia.
Qed.

Lemma simplify_inert_no_else_witness :
  _simplify_conditional_blocks ("\iftrue" ++ " draft " ++ "\fi") []
    = ret (eat_space " draft ") ∧
  _simplify_conditional_blocks ("\iffalse" ++ " draft " ++ "\fi") []
    = ret [].
Proof.
  apply (simplify_inert_no_else " draft " []).
  split.
  - vm_compute. intros H.
    repeat (apply elem_of_cons in H as [H|H]; [discriminate|]).
    by apply elem_of_nil in H.
  - intros c [= <-]. reflexivity.
Defined.

(** *** A conditional of a name the resolver does not know *)

Lemma remove_char_word (s : str) :
  forallb re_word s = true → remove_char " "%char s = s.
Proof.
  unfold remove_char. induction s as [|c s IH]; [done|]. simpl.
  intros H. apply andb_true_iff in H as [Hc Hs].
  rewrite filter_cons, decide_True, IH; [done..|].
  intros ->. discriminate.
Qed.

Lemma classify_unknown (exc : list str) (c : ascii) (name : str)
  (i j : nat) :
  forallb re_word (c :: name) = true →
  c :: name ∉ ["false"; "0"; "true"; "1"] →
  "if" ++ c :: name ∉ exc →
  classify exc (RMatch i j ("\if" ++ c :: name)) = TIf unknown.
Proof.
  intros Hword Hname Hexc. unfold classify. cbn [m_group].
  assert (remove_char " "%char ("\if" ++ c :: name) = "\if" ++ c :: name)
    as ->.
  { change ("\if" ++ c :: name) with ("\"%char :: ("if" ++ c :: name)).
    unfold remove_char. rewrite filter_cons, decide_True by done.
    f_equal. apply remove_char_word.
    change (forallb re_word ("if" ++ c :: name))
      with (re_word "i" && (re_word "f" && forallb re_word (c :: name))).
    by rewrite Hword. }
  rewrite !bool_decide_eq_false_2; [by rewrite startswith_app|..];
    first [exact Hexc | intros [= -> ->]; apply Hname; set_solver].
Qed.

(** X11.  A conditional [\ifNAME A\else B\fi] of a name that is not [true],
    [false], [0] or [1] and is not among the exceptions is left as it is,
    when its branches hold no backslash and start with no word character. *)
Theorem simplify_unknown_conditional (c : ascii) (name A B : str)
  (if_exceptions : list str) :
  forallb re_word (c :: name) = true →
  c :: name ∉ ["false"; "0"; "true"; "1"] →
  "if" ++ c :: name ∉ exceptions if_exceptions →
  inert A → inert B →
  _simplify_conditional_blocks
    ("\if" ++ (c :: name) ++ A ++ "\else" ++ B ++ "\fi") if_exceptions
  = ret ("\if" ++ (c :: name) ++ A ++ "\else" ++ B ++ "\fi").
Proof.
  intros Hword Hname Hexc HA HB.
  pose proof (literal_tokens c name A B Hword HA HB) as Htok.
  rewrite (simplify_literal_conditional _ _ _ _ _ unknown Htok);
    [done| |reflexivity|reflexivity|done|].
  - by apply classify_unknown.
  - cbn [m_end]. simpl. rewrite ?length_app. simpl. rewrite ?length_app.
    simpl. lia.
Qed.

Lemma simplify_unknown_conditional_witness :
  _simplify_conditional_blocks
    ("\if" ++ "draft" ++ " A " ++ "\else" ++ " B " ++ "\fi") []
  = ret ("\if" ++ "draft" ++ " A " ++ "\else" ++ " B " ++ "\fi").
Proof.
  apply (simplify_unknown_conditional "d" "raft" " A " " B " []).
  - reflexivity.
  - vm_compute. intros H.
    repeat (apply elem_of_cons in H as [H|H]; [discriminate|]).
    by apply elem_of_nil in H.
  - vm_compute. intros H.
    repeat (apply elem_of_cons in H as [H|H]; [discriminate|]).
    by apply elem_of_nil in H.
  - split; [|by intros d [= <-]].
    vm_compute. intros H.
    repeat (apply elem_of_cons in H as [H|H]; [discriminate|]).
    by apply elem_of_nil in H.
  - split; [|by intros d [= <-]].
    vm_compute. intros H.
    repeat (apply elem_of_cons in H as [H|H]; [discriminate|]).
    by apply elem_of_nil in H.
Defined.

(** *** Texts without a backslash, and texts that open with a closing token *)

Lemma finditer_no_backslash (text : str) :
  backslash ∉ text → finditer p text = [].
Proof.
  intros Htext. unfold finditer.
  rewrite <- (app_nil_r text).
  rewrite finditer_from_inert by done. apply finditer_from_end.
Qed.

(** X12.  A text that holds no backslash is returned as it is, and nothing is
    written to [stderr]. *)
Theorem simplify_no_backslash (text : str) (if_exceptions : list str) :
  backslash ∉ text →
  _simplify_conditional_blocks text if_exceptions = ret text.
Proof.
  intros Htext. unfold _simplify_conditional_blocks.
  by rewrite finditer_no_backslash.
Qed.

Lemma simplify_no_backslash_witness :
  _simplify_conditional_blocks "if true, else fi" [] = ret "if true, else fi".
Proof.
  apply (simplify_no_backslash "if true, else fi" []).
  vm_compute. intros H.
  repeat (apply elem_of_cons in H as [H|H]; [discriminate|]).
  by apply elem_of_nil in H.
Defined.

(** X13.  When a text holds an [\else] or a [\fi] with no backslash before
    it and no word character right after it, the resolver
    writes its warning, with an empty tree, and returns the text as it is,
    whatever follows the token. *)
Theorem simplify_unmatched_first (A rest : str) (if_exceptions : list str) :
  backslash ∉ A → (∀ d, head rest = Some d → re_word d = false) →
  _simplify_conditional_blocks (A ++ "\fi" ++ rest) if_exceptions
  = ( [ "Warning: Found unmatched \fi! Not removing any conditional blocks..."
          ++ [nl];
        "         This is the matched tree (as built up to the error):"
          ++ [nl];
        "         Potentially, you need to supply an exception using --if_exceptions'."
          ++ [nl] ],
      inr (A ++ "\fi" ++ rest) ) ∧
  _simplify_conditional_blocks (A ++ "\else" ++ rest) if_exceptions
  = ( [ "Warning: Found unmatched \else! Not removing any conditional blocks..."
          ++ [nl];
        "         This is the matched tree (as built up to the error):"
          ++ [nl];
        "         Potentially, you need to supply an exception using --if_exceptions'."
          ++ [nl] ],
      inr (A ++ "\else" ++ rest) ).
Proof.
  intros HA Hrest. split.
  - unfold _simplify_conditional_blocks, finditer.
    rewrite finditer_from_inert by done.
    rewrite (finditer_from_token false p "\"%char "fi")
      by (by apply fi_token).
    set (tokens := finditer_from _ _ _ rest _). clearbody tokens.
    cbn [scan]. rewrite scan_token_classify.
    reflexivity.
  - unfold _simplify_conditional_blocks, finditer.
    rewrite finditer_from_inert by done.
    rewrite (finditer_from_token false p "\"%char "else")
      by (by apply else_token).
    set (tokens := finditer_from _ _ _ rest _). clearbody tokens.
    cbn [scan]. rewrite scan_token_classify.
    reflexivity.
Qed.

Lemma simplify_unmatched_first_witness :
  _simplify_conditional_blocks ("text " ++ "\fi" ++ " \iftrue A\fi") []
  = ( [ "Warning: Found unmatched \fi! Not removing any conditional blocks..."
          ++ [nl];
        "         This is the matched tree (as built up to the error):"
          ++ [nl];
        "         Potentially, you need to supply an exception using --if_exceptions'."
          ++ [nl] ],
      inr ("text " ++ "\fi" ++ " \iftrue A\fi") ) ∧
  _simplify_conditional_blocks ("text " ++ "\else" ++ " \iftrue A\fi") []
  = ( [ "Warning: Found unmatched \else! Not removing any conditional blocks..."
          ++ [nl];
        "         This is the matched tree (as built up to the error):"
          ++ [nl];
        "         Potentially, you need to supply an exception using --if_exceptions'."
          ++ [nl] ],
      inr ("text " ++ "\else" ++ " \iftrue A\fi") ).
Proof.
  apply (simplify_unmatched_first "text " " \iftrue A\fi" []).
  - vm_compute. intros H.
    repeat (apply elem_of_cons in H as [H|H]; [discriminate|]).
    by apply elem_of_nil in H.
  - by intros d [= <-].
Defined.

(** *** A second [\else], and an [\if] that is not closed *)

(** X22.  For a text that opens with [\iftrue A\else B\else], and for a
    text [\iftrue A] with no further token, the resolver writes its
    warning and the tree built so far, which it can print, and returns the
    text as it is. *)
Theorem simplify_malformed_returns (A B rest : str)
  (if_exceptions : list str) :
  inert A → inert B → (∀ d, head rest = Some d → re_word d = false) →
  _simplify_conditional_blocks
    ("\iftrue" ++ A ++ "\else" ++ B ++ "\else" ++ rest) if_exceptions
  = ( [ "Warning: Found duplicate \else! Not removing any conditional blocks..."
          ++ [nl];
        "         This is the matched tree (as built up to the error):"
          ++ [nl];
        "           \iftrue" ++ [nl];
        "           \else" ++ [nl];
        "         Potentially, you need to supply an exception using --if_exceptions'."
          ++ [nl] ],
      inr ("\iftrue" ++ A ++ "\else" ++ B ++ "\else" ++ rest) ) ∧
  _simplify_conditional_blocks ("\iftrue" ++ A) if_exceptions
  = ( [ "Warning: Found unmatched \iftrue! Not removing any conditional blocks..."
          ++ [nl];
        "         This is the matched tree (as built up to the error):"
          ++ [nl];
        "           \iftrue" ++ [nl];
        "         Potentially, you need to supply an exception using --if_exceptions'."
          ++ [nl] ],
      inr ("\iftrue" ++ A) ).
Proof.
  intros HA HB Hrest. split.
  - unfold _simplify_conditional_blocks, finditer.
    change ("\iftrue" ++ A ++ "\else" ++ B ++ "\else" ++ rest)
      with (("\if" ++ "t"%char :: "rue") ++ A ++ "\else" ++ B ++ "\else" ++ rest).
    rewrite (finditer_from_token false p "\"%char ("if" ++ "t"%char :: "rue") []).
    2: { rewrite app_nil_r.
         apply (if_token "t" "rue" (A ++ "\else" ++ B ++ "\else" ++ rest));
           [done|].
         by apply (inert_head A). }
    rewrite finditer_from_inert by apply HA.
    rewrite (finditer_from_token false p "\"%char "else").
    2: { apply else_token. by apply (inert_head B). }
    rewrite finditer_from_inert by apply HB.
    rewrite (finditer_from_token false p "\"%char "else")
      by (by apply else_token).
    set (tokens := finditer_from _ _ _ rest _). clearbody tokens.
    cbn [scan]. rewrite !scan_token_classify. reflexivity.
  - unfold _simplify_conditional_blocks, finditer.
    change ("\iftrue" ++ A) with (("\if" ++ "t"%char :: "rue") ++ A).
    rewrite (finditer_from_token false p "\"%char ("if" ++ "t"%char :: "rue") []).
    2: { rewrite app_nil_r. apply (if_token "t" "rue" A); [done|]. apply HA. }
    rewrite <- (app_nil_r A).
    rewrite finditer_from_inert by apply HA.
    rewrite finditer_from_end.
    cbn [scan]. rewrite !scan_token_classify. reflexivity.
Qed.

Lemma simplify_malformed_returns_witness :
  _simplify_conditional_blocks
    ("\iftrue" ++ " A " ++ "\else" ++ " B " ++ "\else" ++ " C \fi") []
  = ( [ "Warning: Found duplicate \else! Not removing any conditional blocks..."
          ++ [nl];
        "         This is the matched tree (as built up to the error):"
          ++ [nl];
        "           \iftrue" ++ [nl];
        "           \else" ++ [nl];
        "         Potentially, you need to supply an exception using --if_exceptions'."
          ++ [nl] ],
      inr ("\iftrue" ++ " A " ++ "\else" ++ " B " ++ "\else" ++ " C \fi") ) ∧
  _simplify_conditional_blocks ("\iftrue" ++ " A ") []
  = ( [ "Warning: Found unmatched \iftrue! Not removing any conditional blocks..."
          ++ [nl];
        "         This is the matched tree (as built up to the error):"
          ++ [nl];
        "           \iftrue" ++ [nl];
        "         Potentially, you need to supply an exception using --if_exceptions'."
          ++ [nl] ],
      inr ("\iftrue" ++ " A ") ).
Proof.
  apply (simplify_malformed_returns " A " " B " " C \fi" []).
  - split; [|by intros d [= <-]].
    vm_compute. intros H.
    repeat (apply elem_of_cons in H as [H|H]; [discriminate|]).
    by apply elem_of_nil in H.
  - split; [|by intros d [= <-]].
    vm_compute. intros H.
    repeat (apply elem_of_cons in H as [H|H]; [discriminate|]).
    by apply elem_of_nil in H.
  - by intros d [= <-].
Defined.

(** *** A conditional inside an [\iftrue] *)

Lemma positions_before_split (b a : list ascii) (p0 : pos) :
  In p0 (positions_before b a) →
  ∃ t, reverse b = reverse p0.1 ++ t ∧ p0.2 = t ++ a.
Proof.
  revert a. induction b as [|c b IH]; intros a; simpl.
  - intros [<-|[]]. by exists [].
  - intros [<-|Hin]; [by exists []; rewrite app_nil_r|].
    apply IH in Hin as (t & Ht & Ha). exists (t ++ [c]). split.
    + by rewrite reverse_cons, Ht, <- (assoc_L (++)).
    + by rewrite Ha, <- (assoc_L (++)).
Qed.

(** The look behind of the token pattern fails when [\newif] starts
    nowhere before the position. *)
Lemma behind_newif (depth : nat) (whole : re) (b a : list ascii) :
  (∀ x t, reverse b = x ++ t → startswith (t ++ a) "\newif" = false) →
  behind_of (m false depth whole newif_re) (b, a) = false.
Proof.
  intros Hbefore. unfold behind_of. cbn [fst snd].
  destruct (existsb _ _) eqn:Hex; [|done].
  apply existsb_exists in Hex as ([b0 a0] & Hin & Hf).
  apply positions_before_split in Hin as (t & Ht & Ha). simpl in Ht, Ha.
  apply bool_decide_eq_true in Hf. unfold newif_re in Hf.
  rewrite m_literals_none in Hf; [by apply is_Some_None in Hf|].
  rewrite Ha. by apply (Hbefore (reverse b0)).
Qed.

(** An [\if] with a name of word characters, and no word character after
    it, is a token wherever [\newif] does not stand before it. *)
Lemma if_token_after (b : list ascii) (c : ascii) (name tail : list ascii) :
  forallb re_word (c :: name) = true →
  (∀ d, head tail = Some d → re_word d = false) →
  (∀ x t, reverse b = x ++ t →
          startswith (t ++ "\if" ++ (c :: name) ++ tail) "\newif" = false) →
  match_at false p (b, "\if" ++ (c :: name) ++ tail)
  = Some (reverse ("\if" ++ c :: name) ++ b, tail).
Proof.
  intros Hname Htail Hbefore. unfold match_at. cbn [snd]. rewrite p_eq at 2.
  generalize (length ("\if" ++ (c :: name) ++ tail)). intros depth.
  rewrite m_eq.
  assert (m false depth p if_re Some (b, "\if" ++ (c :: name) ++ tail)
          = Some (reverse ("\if" ++ c :: name) ++ b, tail)) as ->; [|done].
  unfold if_re. rewrite m_eq, (m_eq _ _ _ (Look _ _ _)).
  assert (ahead_of (m false depth p (Seq (Look false false newif_re) Eps))
                   (b, "\if" ++ (c :: name) ++ tail) = false) as ->.
  { unfold ahead_of. rewrite m_eq, (m_eq _ _ _ (Look _ _ _)).
    by rewrite behind_newif. }
  cbn [xorb negb]. rewrite m_literals_eq.
  cbn [seq_of foldr]. rewrite m_eq. unfold space_re at 1.
  rewrite m_star_class.
  simpl in Hname. apply andb_true_iff in Hname as [Hc Hname].
  cbn [app star_class]. cbn [in_cset in_item xorb].
  rewrite (word_not_space c Hc).
  unfold word_re. rewrite !(m_eq _ _ _ (Seq _ _)), (m_eq _ _ _ (Chr _)).
  cbn [in_cset in_item xorb]. rewrite Hc, m_star_class.
  rewrite star_class_run; [|done|done|].
  - rewrite !(m_eq _ _ _ Eps).
    change ("\"%char :: "i"%char :: "f"%char :: c :: name)
      with ("\if" ++ c :: name).
    by rewrite reverse_app, (reverse_cons name c), <- !(assoc_L (++)).
  - rewrite !(m_eq _ _ _ Eps). by eexists.
Qed.

Lemma no_newif_before (A rest : str) :
  backslash ∉ A →
  ∀ x t, "\iftrue" ++ A = x ++ t →
         startswith (t ++ "\iffalse" ++ rest) "\newif" = false.
Proof.
  intros HA x t Heq. destruct x as [|c x].
  - simpl in Heq. by subst t.
  - injection Heq as <- Heq. destruct t as [|d t]; [done|].
    simpl. rewrite bool_decide_eq_false_2; [done|]. intros <-.
    assert (backslash ∈ "iftrue" ++ A) as Hin.
    { change (backslash ∈ "i"%char :: "f"%char :: "t"%char :: "r"%char
                          :: "u"%char :: "e"%char :: A).
      rewrite Heq. apply elem_of_app. right. left. }
    apply elem_of_app in Hin as [Hin|Hin]; [|done].
    repeat (apply elem_of_cons in Hin as [Hin|Hin]; [discriminate|]).
    by apply elem_of_nil in Hin.
Qed.

Lemma delete_middle (x y z : str) :
  delete_span (x ++ y ++ z) (length x, length x + length y)
  = x ++ eat_space z.
Proof.
  unfold delete_span, eat_space.
  rewrite take_app_length. f_equal.
  rewrite (assoc_L (++) x y z).
  replace (length x + length y) with (length (x ++ y))
    by (by rewrite length_app).
  destruct z as [|c z].
  - rewrite lookup_ge_None_2 by (rewrite app_nil_r; lia).
    by rewrite drop_app_length.
  - rewrite list_lookup_middle by done.
    destruct (isspace c).
    + replace (length (x ++ y) + 1) with (length ((x ++ y) ++ [c]))
        by (rewrite (length_app _ [c]); simpl; lia).
      change (c :: z) with ([c] ++ z).
      by rewrite (assoc_L (++) (x ++ y) [c] z), drop_app_length.
    + by rewrite drop_app_length.
Qed.

Lemma nested_tokens (A B C : str) (rest : str) :
  inert A → inert B → inert C →
  finditer_from false p [] ("\iftrue" ++ A ++ "\iffalse" ++ B ++ "\fi" ++ C
                            ++ "\"%char :: rest) 0
  = RMatch 0 7 "\iftrue"
    :: RMatch (7 + length A) (7 + length A + 8) "\iffalse"
    :: RMatch (7 + length A + 8 + length B) (7 + length A + 8 + length B + 3)
              "\fi"
    :: finditer_from false p
         (reverse C ++ reverse "\fi" ++ reverse B ++ reverse "\iffalse"
          ++ reverse A ++ reverse "\iftrue")
         ("\"%char :: rest) 0.
Proof.
  intros HA HB HC.
  change ("\iftrue" ++ A ++ "\iffalse" ++ B ++ "\fi" ++ C ++ "\"%char :: rest)
    with (("\if" ++ "t"%char :: "rue")
          ++ A ++ "\iffalse" ++ B ++ "\fi" ++ C ++ "\"%char :: rest).
  rewrite (finditer_from_token false p "\"%char ("if" ++ "t"%char :: "rue") []).
  2: { rewrite app_nil_r.
       apply (if_token "t" "rue"); [done|]. by apply (inert_head A). }
  rewrite finditer_from_inert by apply HA.
  change ("\iffalse" ++ B ++ "\fi" ++ C ++ "\"%char :: rest)
    with (("\if" ++ "f"%char :: "alse") ++ B ++ "\fi" ++ C ++ "\"%char :: rest).
  rewrite (finditer_from_token false p "\"%char ("if" ++ "f"%char :: "alse")).
  2: { apply (if_token_after _ "f" "alse"); [done|by apply (inert_head B)|].
       rewrite app_nil_r, reverse_app, !reverse_involutive.
       apply (no_newif_before A), HA. }
  rewrite finditer_from_inert by apply HB.
  rewrite (finditer_from_token false p "\"%char "fi").
  2: { apply fi_token. by apply (inert_head C). }
  rewrite finditer_from_inert by apply HC.
  rewrite !app_nil_r, !length_app, !length_reverse. cbn [length app].
  repeat (first [lia | reflexivity | f_equal]).
Qed.

(** The resolution of a text whose tokens are a literal [\iftrue], an
    [\if] of any kind and two [\fi]: only the first and the last token are
    deleted. *)
Lemma simplify_nested_no_else (text : str) (exc : list str)
  (t0 t1 t2 t3 : rmatch) (k : kind) :
  finditer p text = [t0; t1; t2; t3] →
  classify (exceptions exc) t0 = TIf iftrue →
  classify (exceptions exc) t1 = TIf k →
  classify (exceptions exc) t2 = TFi →
  classify (exceptions exc) t3 = TFi →
  _simplify_conditional_blocks text exc
  = ret (delete_span (delete_span text (m_start t3, m_end t3))
                     (m_start t0, m_end t0)).
Proof.
  intros Htok H0 H1 H2 H3.
  unfold _simplify_conditional_blocks. rewrite Htok. simpl.
  rewrite !scan_token_classify, H0. simpl.
  rewrite !scan_token_classify, H1. simpl.
  rewrite !scan_token_classify, H2. simpl.
  rewrite !scan_token_classify, H3. by cbn -[delete_span].
Qed.

(** With an [\else] before the last [\fi], the inner [\iffalse] is deleted
    up to its [\fi], and the outer [\else] up to the last [\fi]. *)
Lemma simplify_nested_else (text : str) (exc : list str)
  (t0 t1 t2 t3 t4 : rmatch) :
  finditer p text = [t0; t1; t2; t3; t4] →
  classify (exceptions exc) t0 = TIf iftrue →
  classify (exceptions exc) t1 = TIf iffalse →
  classify (exceptions exc) t2 = TFi →
  classify (exceptions exc) t3 = TElse →
  classify (exceptions exc) t4 = TFi →
  _simplify_conditional_blocks text exc
  = ret (delete_span
           (delete_span (delete_span text (m_start t3, m_end t4))
                        (m_start t1, m_end t2))
           (m_start t0, m_end t0)).
Proof.
  intros Htok H0 H1 H2 H3 H4.
  unfold _simplify_conditional_blocks. rewrite Htok. simpl.
  rewrite !scan_token_classify, H0. simpl.
  rewrite !scan_token_classify, H1. simpl.
  rewrite !scan_token_classify, H2. simpl.
  rewrite !scan_token_classify, H3. simpl.
  rewrite !scan_token_classify, H4. by cbn -[delete_span].
Qed.

(** X29.  A conditional nested in an [\iftrue] is resolved only when the
    [\iftrue] has an [\else].  In [\iftrue A\iffalse B\fi C\fi] the two
    outer directives are removed and the inner conditional stays as it is;
    in [\iftrue A\iffalse B\fi C\else D\fi] the inner conditional is
    removed together with the [\else] branch.  The texts A, B, C and D
    hold no backslash and start with no word character; the character
    after a removed stretch goes with it when it is whitespace. *)
Theorem simplify_nested_in_iftrue (A B C D : str) (if_exceptions : list str) :
  inert A → inert B → inert C → inert D →
  _simplify_conditional_blocks
    ("\iftrue" ++ A ++ "\iffalse" ++ B ++ "\fi" ++ C ++ "\fi") if_exceptions
  = ret (eat_space (A ++ "\iffalse" ++ B ++ "\fi" ++ C)) ∧
  _simplify_conditional_blocks
    ("\iftrue" ++ A ++ "\iffalse" ++ B ++ "\fi" ++ C ++ "\else" ++ D ++ "\fi")
    if_exceptions
  = ret (eat_space (A ++ eat_space C)).
Proof.
  intros HA HB HC HD. split.
  - set (inner := A ++ "\iffalse" ++ B ++ "\fi" ++ C).
    erewrite simplify_nested_no_else;
      [|unfold finditer; rewrite (nested_tokens A B C "fi") by done;
        rewrite <- (app_nil_r ("\"%char :: "fi"));
        rewrite (finditer_from_token false p "\"%char "fi" _ [])
          by (by apply fi_token);
        by rewrite finditer_from_end
       |reflexivity..].
    cbn [m_start m_end]. f_equal.
    rewrite !length_app, !length_reverse.
    assert ("\iftrue" ++ A ++ "\iffalse" ++ B ++ "\fi" ++ C ++ "\fi"
            = ("\iftrue" ++ inner) ++ "\fi" ++ []) as ->
      by (subst inner; by rewrite <- !(assoc_L (++))).
    match goal with
    | |- context [delete_span _ (?n, ?n + _)] =>
        replace n with (length ("\iftrue" ++ inner))
          by (subst inner; rewrite ?length_app; simpl;
              rewrite ?length_app; simpl; lia)
    end.
    rewrite (delete_middle ("\iftrue" ++ inner) "\fi" []).
    cbn [eat_space]. rewrite app_nil_r.
    exact (delete_middle [] "\iftrue" inner).
  - erewrite simplify_nested_else;
      [|unfold finditer;
        change ("\else" ++ D ++ "\fi")
          with ("\"%char :: "else" ++ D ++ "\fi");
        rewrite (nested_tokens A B C ("else" ++ D ++ "\fi")) by done;
        change ("\"%char :: "else" ++ D ++ "\fi")
          with ("\else" ++ D ++ "\fi");
        rewrite (finditer_from_token false p "\"%char "else")
          by (apply else_token; by apply (inert_head D));
        rewrite finditer_from_inert by apply HD;
        rewrite <- (app_nil_r "\fi");
        rewrite (finditer_from_token false p "\"%char "fi" _ [])
          by (by apply fi_token);
        by rewrite finditer_from_end
       |reflexivity..].
    cbn [m_start m_end]. f_equal.
    rewrite !length_app, !length_reverse.
    set (kept := "\iftrue" ++ A).
    set (inner := "\iffalse" ++ B ++ "\fi").
    set (dropped := "\else" ++ D ++ "\fi").
    assert ("\iftrue" ++ A ++ "\iffalse" ++ B ++ "\fi" ++ C ++ dropped
            = (kept ++ inner ++ C) ++ dropped ++ []) as ->
      by (subst kept inner; by rewrite <- !(assoc_L (++)), app_nil_r).
    assert (∀ s (x y z : str) n e,
              n = length x → e = length x + length y → s = x ++ y ++ z →
              delete_span s (n, e) = x ++ eat_space z) as Hdel
      by (intros s x y z n e -> -> ->; apply delete_middle).
    rewrite (Hdel ((kept ++ inner ++ C) ++ dropped ++ [])
               (kept ++ inner ++ C) dropped []);
      [|subst kept inner dropped; rewrite ?length_app; simpl;
        rewrite ?length_app; simpl; lia..|done].
    cbn [eat_space]. rewrite app_nil_r.
    rewrite (Hdel (kept ++ inner ++ C) kept inner C);
      [|subst kept inner; rewrite ?length_app; simpl;
        rewrite ?length_app; simpl; lia..|done].
    subst kept. rewrite <- (assoc_L (++)).
    exact (delete_middle [] "\iftrue" (A ++ eat_space C)).
Qed.

Lemma simplify_nested_in_iftrue_witness :
  _simplify_conditional_blocks
    ("\iftrue" ++ " A " ++ "\iffalse" ++ " B " ++ "\fi" ++ " C " ++ "\fi") []
  = ret (eat_space (" A " ++ "\iffalse" ++ " B " ++ "\fi" ++ " C ")) ∧
  _simplify_conditional_blocks
    ("\iftrue" ++ " A " ++ "\iffalse" ++ " B " ++ "\fi" ++ " C " ++ "\else"
     ++ " D " ++ "\fi") []
  = ret (eat_space (" A " ++ eat_space " C ")).
Proof.
  apply (simplify_nested_in_iftrue " A " " B " " C " " D " []);
    (split; [|by intros d [= <-]]);
    vm_compute; intros H;
    repeat (apply elem_of_cons in H as [H|H]; [discriminate|]);
    by apply elem_of_nil in H.
Defined.

(** ** The conditional resolver: a malformed tree with a right branch *)

(** C3, on the code.  The text below has an unmatched [\fi].  When the scan
    aborts, the tree built so far has a node with a subtree on its right;
    printing it raises [TypeError], and the text is not returned. *)
Theorem simplify_conditional_blocks_raises :
  _simplify_conditional_blocks "\ifx A\else \iftrue B\fi C\fi \fi" [] =
  ( [ "Warning: Found unmatched \fi! Not removing any conditional blocks..."
        ++ [nl];
      "         This is the matched tree (as built up to the error):" ++ [nl];
      "           \ifx" ++ [nl];
      "           \else" ++ [nl] ],
    inl TypeError ).
Proof. vm_compute. reflexivity. Qed.

(** ** The comment stripper on a line without % *)

Lemma head_not_percent (before a' s : str) :
  percent ∉ s → s = before ++ a' → startswith a' "%" = false.
Proof.
  intros Hs ->. destruct a' as [|c a']; [done|]. simpl.
  rewrite bool_decide_eq_false_2; [done|]. intros <-.
  apply Hs. apply elem_of_app. right. left.
Qed.

Lemma auto_ignore_needs_percent (b a : list ascii) :
  startswith a "%" = false →
  match_at false (compiled auto_ignore_pattern) (b, a) = None.
Proof.
  intros Ha. unfold match_at.
  change (compiled auto_ignore_pattern)
    with (Seq (seq_of (map lit "%"
                       ++ Star space_re :: map lit "auto-ignore"))
              (Seq (Star (Chr Dot)) Eps)).
  rewrite (m_eq _ _ _ (Seq _ _)). by apply m_literals_none.
Qed.

Lemma comment_needs_percent (b a : list ascii) :
  startswith a "%" = false →
  match_at false (compiled comment_pattern) (b, a) = None.
Proof.
  intros Ha. unfold match_at.
  change (compiled comment_pattern)
    with (Seq (Look false true (Seq (lit backslash) Eps))
              (Seq (lit percent) Eps)).
  rewrite (m_eq _ _ _ (Seq _ _)), (m_eq _ _ _ (Look _ _ _)).
  unfold lit. destruct (xorb _ _); [|done]. rewrite m_one_char.
  destruct a as [|c a]; [done|]. simpl in Ha.
  apply andb_false_iff in Ha as [Ha|Ha]; [|done].
  apply bool_decide_eq_false in Ha.
  change (in_cset false (One (IChar percent)) c)
    with (bool_decide (c = percent)).
  rewrite bool_decide_eq_false_2; [done|]. intros ->. by apply Ha.
Qed.

Lemma lstrip_where_suffix (holds : ascii → bool) (s : str) :
  ∃ before, s = before ++ lstrip_where holds s.
Proof.
  induction s as [|c s [before IH]]; [by exists []|]. simpl.
  destruct (holds c); [|by exists []].
  exists (c :: before). simpl. by f_equal.
Qed.

Lemma lstrip_not_percent (holds : ascii → bool) (s : str) :
  percent ∉ s → percent ∉ lstrip_where holds s.
Proof.
  intros Hs Hin. apply Hs.
  destruct (lstrip_where_suffix holds s) as [before Heq].
  rewrite Heq. apply elem_of_app. by right.
Qed.

Lemma startswith_percent (s : str) :
  percent ∉ s → startswith s "%" = false.
Proof. intros Hs. by apply (head_not_percent [] s s). Qed.

Lemma remove_comments_no_percent (segment : str) :
  percent ∉ segment → remove_comments segment = (segment, false).
Proof.
  intros Hs. unfold remove_comments, lstrip.
  rewrite startswith_percent by by apply lstrip_not_percent.
  unfold search. rewrite search_from_None; [done|].
  intros before a' Heq. apply comment_needs_percent.
  by apply (head_not_percent before a' segment).
Qed.

Lemma strip_segments_no_percent (segments : list str) :
  Forall (λ s, percent ∉ s) segments → strip_segments segments = segments.
Proof.
  induction 1 as [|s rest Hs _ IH]; simpl; [done|].
  rewrite remove_comments_no_percent, IH by done.
  by case_bool_decide.
Qed.

(** The pieces of a split, put together, are the text. *)
Lemma split_from_concat (r : re) (a : list ascii) :
  ∀ b skip seg,
    skip ≤ length a →
    concat (split_from r b a skip seg) = reverse seg ++ drop skip a.
Proof.
  induction a as [|c a IH]; intros b skip seg Hskip.
  - simpl. by rewrite drop_nil, !app_nil_r.
  - cbn [split_from]. destruct skip as [|skip].
    + cbn [drop].
      destruct (match_at false r (b, c :: a)) as [q|] eqn:Hm.
      * apply match_at_reaches in Hm as (t & Hq1 & Hq2).
        simpl in Hq1, Hq2. rewrite Hq1, length_app, length_reverse.
        replace (length t + length b - length b) with (length t) by lia.
        destruct t as [|d t].
        -- simpl. rewrite IH by lia.
           rewrite reverse_cons, <- (assoc_L (++)). done.
        -- cbn [length Nat.eqb pred]. injection Hq2 as <- Ha.
           cbn [concat]. rewrite IH by (rewrite Ha, length_app; lia).
           rewrite Ha. rewrite reverse_nil. cbn [app].
           change (c :: t ++ q.2) with ((c :: t) ++ q.2).
           replace (S (length t)) with (length (c :: t)) by done.
           by rewrite take_app_length, drop_app_length.
      * rewrite IH by lia. rewrite reverse_cons, <- (assoc_L (++)). done.
    + cbn [drop]. apply IH. simpl in Hskip. lia.
Qed.

Lemma split_concat (r : re) (text : str) : concat (split r text) = text.
Proof.
  unfold split. rewrite split_from_concat by lia. done.
Qed.

Lemma elem_of_concat (c : ascii) (s : str) (segments : list str) :
  c ∈ s → s ∈ segments → c ∈ concat segments.
Proof.
  intros Hc. induction segments as [|s' rest IH]; intros Hs.
  - by apply elem_of_nil in Hs.
  - simpl. apply elem_of_app.
    apply elem_of_cons in Hs as [<-|Hs]; [by left|right; by apply IH].
Qed.

(** X14.  A line that holds no % passes through the comment stripper unchanged,
    but for a newline that is added at its end when it ends neither with a
    newline nor with the two characters backslash and n. *)
Theorem remove_comments_inline_no_percent (text : str) :
  percent ∉ text →
  _remove_comments_inline text
  = if endswith text [nl] || endswith text "\n" then text else text ++ [nl].
Proof.
  intros Htext. unfold _remove_comments_inline.
  assert (search (compiled auto_ignore_pattern) text = None) as ->.
  { apply search_from_None. intros before a' Heq.
    apply auto_ignore_needs_percent.
    by apply (head_not_percent before a' text). }
  rewrite bool_decide_eq_false_2 by (intros H; by apply is_Some_None in H).
  unfold lstrip_chars.
  rewrite startswith_percent by by do 2 apply lstrip_not_percent.
  rewrite strip_segments_no_percent; [by rewrite split_concat|].
  rewrite Forall_forall. intros s Hs Hin. apply Htext.
  rewrite <- (split_concat (compiled ("(" ++ url_pattern ++ ")")) text).
  by apply (elem_of_concat _ s).
Qed.

Lemma remove_comments_inline_no_percent_witness :
  _remove_comments_inline "\section{Results}"
  = if endswith "\section{Results}" [nl] || endswith "\section{Results}" "\n"
    then "\section{Results}" else "\section{Results}" ++ [nl].
Proof.
  apply (remove_comments_inline_no_percent "\section{Results}").
  vm_compute. intros H. 
  repeat (apply elem_of_cons in H as [H|H]; [discriminate|]).
  by apply elem_of_nil in H.
Defined.

(** ** The comment stripper on a line with an auto-ignore marker *)

Lemma auto_ignore_pattern_eq :
  compiled auto_ignore_pattern
  = Seq (compiled auto_ignore_group1) (Seq (Star (Chr Dot)) Eps).
Proof. reflexivity. Qed.

Lemma auto_ignore_group1_eq :
  compiled auto_ignore_group1
  = seq_of (map lit "%" ++ Star space_re :: map lit "auto-ignore").
Proof. reflexivity. Qed.

(** The marker, with whatever continuation that accepts the position
    after it. *)
Lemma m_marker (depth : nat) (whole : re) (k : pos → option pos)
  (b sp a : list ascii) :
  forallb re_space sp = true →
  is_Some (k (reverse ("%" ++ sp ++ "auto-ignore") ++ b, a)) →
  m false depth whole (compiled auto_ignore_group1) k
    (b, "%" ++ sp ++ "auto-ignore" ++ a)
  = k (reverse ("%" ++ sp ++ "auto-ignore") ++ b, a).
Proof.
  intros Hsp Hk. rewrite auto_ignore_group1_eq.
  rewrite m_literals_eq, m_seq_of_cons. unfold space_re. rewrite m_star_class.
  assert (reverse ("%" ++ sp ++ "auto-ignore") ++ b
          = reverse "auto-ignore" ++ reverse sp ++ reverse "%" ++ b) as Heq.
  { by rewrite !reverse_app, <- !(assoc_L (++)). }
  rewrite Heq in Hk |- *.
  assert (m false depth whole (seq_of (map lit "auto-ignore")) k
            (reverse sp ++ reverse "%" ++ b, "auto-ignore" ++ a)
          = k (reverse "auto-ignore" ++ reverse sp ++ reverse "%" ++ b, a))
    as Hword.
  { rewrite <- (app_nil_r (map lit "auto-ignore")), m_literals_eq.
    cbn [seq_of foldr]. by rewrite m_eq. }
  rewrite star_class_run; [done|done| |by rewrite Hword].
  by intros c [= <-].
Qed.

Lemma match_at_auto_ignore (b sp tail rest : list ascii) :
  forallb re_space sp = true → nl ∉ tail →
  (∀ c, head rest = Some c → c = nl) →
  match_at false (compiled auto_ignore_pattern)
    (b, "%" ++ sp ++ "auto-ignore" ++ tail ++ rest)
  = Some (reverse tail ++ reverse ("%" ++ sp ++ "auto-ignore") ++ b, rest).
Proof.
  intros Hsp Htail Hrest. unfold match_at.
  rewrite auto_ignore_pattern_eq, (m_eq _ _ _ (Seq _ _)).
  assert (∀ depth whole b0,
            m false depth whole (Seq (Star (Chr Dot)) Eps) Some
              (b0, tail ++ rest)
            = Some (reverse tail ++ b0, rest)) as Hdots.
  { intros depth whole b0. rewrite (m_eq _ _ _ (Seq _ _)), m_star_class.
    rewrite star_class_run; [by rewrite m_eq| | |by rewrite m_eq].
    - clear -Htail. induction tail as [|c tail IH]; [done|].
      apply not_elem_of_cons in Htail as [Hc Htail]. simpl.
      rewrite bool_decide_eq_false_2 by done. by apply IH.
    - intros c Hc. rewrite (Hrest c Hc). done. }
  rewrite m_marker; [apply Hdots|done|]. by rewrite Hdots.
Qed.

Lemma match_at_auto_ignore_group (b sp a : list ascii) :
  forallb re_space sp = true →
  match_at false (compiled auto_ignore_group1)
    (b, "%" ++ sp ++ "auto-ignore" ++ a)
  = Some (reverse ("%" ++ sp ++ "auto-ignore") ++ b, a).
Proof. intros Hsp. unfold match_at. by rewrite m_marker. Qed.

Lemma sub_group1_prefix (whole g : re) (s : str) :
  ∀ b a,
    (∀ before a', s = before ++ a' → a' ≠ [] →
                  match_at false whole (reverse before ++ b, a' ++ a) = None) →
    sub_group1 whole g b (s ++ a) 0
    = s ++ sub_group1 whole g (reverse s ++ b) a 0.
Proof.
  induction s as [|c s IH]; intros b a Hnone; [done|].
  cbn [app sub_group1].
  pose proof (Hnone [] (c :: s) eq_refl ltac:(done)) as Hhere.
  rewrite reverse_nil in Hhere. cbn [app] in Hhere. rewrite Hhere.
  rewrite IH.
  - by rewrite !reverse_cons, <- !(assoc_L (++)).
  - intros before a' -> Ha'.
    specialize (Hnone (c :: before) a' eq_refl Ha').
    by rewrite reverse_cons, <- (assoc_L (++)) in Hnone.
Qed.

Lemma sub_group1_skip (whole g : re) (s : str) :
  ∀ b a,
    sub_group1 whole g b (s ++ a) (length s)
    = sub_group1 whole g (reverse s ++ b) a 0.
Proof.
  induction s as [|c s IH]; intros b a; [done|].
  cbn [app length sub_group1]. rewrite IH.
  by rewrite reverse_cons, <- (assoc_L (++)).
Qed.

Lemma sub_group1_no_percent (rest : str) (b : list ascii) :
  percent ∉ rest →
  sub_group1 (compiled auto_ignore_pattern) (compiled auto_ignore_group1)
             b rest 0 = rest.
Proof.
  intros Hrest. rewrite <- (app_nil_r rest) at 1.
  rewrite sub_group1_prefix.
  - cbn [sub_group1]. rewrite auto_ignore_needs_percent by done.
    by rewrite app_nil_r.
  - intros before a' Heq Ha'. apply auto_ignore_needs_percent.
    rewrite app_nil_r. by apply (head_not_percent before a' rest).
Qed.

(** X26.  For a line with an auto-ignore marker, that is a %, whitespace
    and the word auto-ignore, after a text with no %, the comment stripper
    keeps the text and the marker and removes what follows the marker up
    to the end of the line. *)
Theorem remove_comments_inline_auto_ignore (pre sp tail rest : str) :
  percent ∉ pre → forallb re_space sp = true → nl ∉ tail →
  percent ∉ rest → (∀ c, head rest = Some c → c = nl) →
  _remove_comments_inline (pre ++ "%" ++ sp ++ "auto-ignore" ++ tail ++ rest)
  = pre ++ "%" ++ sp ++ "auto-ignore" ++ rest.
Proof.
  intros Hpre Hsp Htail Hrest Hhead.
  assert (∀ before a' a, pre = before ++ a' → a' ≠ [] →
            match_at false (compiled auto_ignore_pattern)
                     (reverse before ++ [], a' ++ a) = None) as Hnone.
  { intros before a' a Heq Ha'. apply auto_ignore_needs_percent.
    destruct a' as [|c a']; [done|]. simpl.
    rewrite bool_decide_eq_false_2; [done|]. intros <-.
    apply Hpre. rewrite Heq. apply elem_of_app. right. left. }
  unfold _remove_comments_inline.
  rewrite bool_decide_eq_true_2.
  2: { unfold search. rewrite search_from_prefix by (intros; by apply Hnone).
       rewrite (search_from_here _ _ _ _ _
                  (match_at_auto_ignore _ sp tail rest Hsp Htail Hhead)).
       by eexists. }
  rewrite sub_group1_prefix by (intros; by apply Hnone).
  f_equal.
  set (b := reverse pre ++ []).
  set (marker := "%" ++ sp ++ "auto-ignore").
  assert ("%" ++ sp ++ "auto-ignore" ++ tail ++ rest
          = marker ++ tail ++ rest) as Htext
    by (subst marker; by rewrite <- !(assoc_L (++))).
  pose proof (match_at_auto_ignore b sp tail rest Hsp Htail Hhead) as Hwhole.
  pose proof (match_at_auto_ignore_group b sp (tail ++ rest) Hsp) as Hgroup.
  fold marker in Hwhole, Hgroup. rewrite Htext in Hwhole, Hgroup |- *.
  assert (∃ c marker', marker = c :: marker') as (c & marker' & Hmarker)
    by (by eexists _, _).
  rewrite Hmarker in Hwhole, Hgroup |- *.
  cbn [app sub_group1]. cbn [app] in Hwhole, Hgroup.
  rewrite Hwhole, Hgroup. cbn [fst].
  rewrite !length_app, !length_reverse.
  replace (length (c :: marker') + length b - length b)
    with (length (c :: marker')) by lia.
  replace (length tail + (length (c :: marker') + length b) - length b)
    with (S (length (marker' ++ tail)))
    by (rewrite length_app; simpl; lia).
  cbn [Nat.eqb pred app].
  change (c :: marker' ++ tail ++ rest) with ((c :: marker') ++ tail ++ rest).
  rewrite take_app_length.
  rewrite (assoc_L (++) marker' tail rest), sub_group1_skip.
  rewrite sub_group1_no_percent by done.
  subst marker. by rewrite <- Hmarker, <- !(assoc_L (++)).
Qed.

Lemma remove_comments_inline_auto_ignore_witness :
  _remove_comments_inline
    ("\input{x} " ++ "%" ++ " " ++ "auto-ignore" ++ " this file" ++ [nl])
  = "\input{x} " ++ "%" ++ " " ++ "auto-ignore" ++ [nl].
Proof.
  apply (remove_comments_inline_auto_ignore "\input{x} " " " " this file"
           [nl]).
  - vm_compute. intros H.
    repeat (apply elem_of_cons in H as [H|H]; [discriminate|]).
    by apply elem_of_nil in H.
  - reflexivity.
  - vm_compute. intros H.
    repeat (apply elem_of_cons in H as [H|H]; [discriminate|]).
    by apply elem_of_nil in H.
  - vm_compute. intros H.
    repeat (apply elem_of_cons in H as [H|H]; [discriminate|]).
    by apply elem_of_nil in H.
  - by intros c [= <-].
Defined.


(** ** Lines without the word auto-ignore *)

Lemma find_None_suffix (t : str) :
  ∀ x y, find (x ++ y) t = None → startswith y t = false.
Proof.
  induction x as [|c x IH]; intros y Hfind.
  - destruct y as [|d y]; simpl in Hfind;
      destruct (startswith _ t); done.
  - cbn [app find] in Hfind.
    destruct (startswith (c :: x ++ y) t); [done|].
    destruct (find (x ++ y) t) eqn:Hrest; [done|]. by apply IH.
Qed.

Lemma star_class_none (holds : ascii → bool) (k : pos → option pos) :
  ∀ a b,
    (∀ run a', a = run ++ a' → k (reverse run ++ b, a') = None) →
    star_class holds k b a = None.
Proof.
  induction a as [|c a IH]; intros b Hk.
  - simpl. exact (Hk [] [] eq_refl).
  - pose proof (Hk [] (c :: a) eq_refl) as Hhere.
    rewrite reverse_nil in Hhere. cbn [app] in Hhere.
    simpl. destruct (holds c); [|done].
    rewrite IH; [done|].
    intros run a' ->. specialize (Hk (c :: run) a' eq_refl).
    by rewrite reverse_cons, <- (assoc_L (++)) in Hk.
Qed.

Lemma auto_ignore_absent (text : str) :
  find text "auto-ignore" = None →
  search (compiled auto_ignore_pattern) text = None.
Proof.
  intros Hfind. apply search_from_None. intros before a' Heq.
  destruct (startswith a' "%") eqn:Hpercent;
    [|by apply auto_ignore_needs_percent].
  destruct a' as [|c a']; [done|]. simpl in Hpercent.
  apply andb_true_iff in Hpercent as [Hc _].
  apply bool_decide_eq_true in Hc. subst c.
  unfold match_at. rewrite auto_ignore_pattern_eq, (m_eq _ _ _ (Seq _ _)).
  rewrite auto_ignore_group1_eq.
  change ("%"%char :: a') with ("%" ++ a').
  rewrite (m_literals_eq _ _ _ _ "%"), m_seq_of_cons.
  unfold space_re. rewrite m_star_class.
  apply star_class_none. intros run a3 Ha'.
  rewrite <- (app_nil_r (map lit "auto-ignore")).
  apply m_literals_none.
  apply (find_None_suffix _ (before ++ "%" ++ run)).
  rewrite Heq, Ha' in Hfind. rewrite <- !(assoc_L (++)). exact Hfind.
Qed.

(** ** The comment stripper on a line with a comment *)

Lemma lstrip_where_keeps (holds : ascii → bool) (c : ascii) (s : str) :
  c ∈ s → holds c = false → c ∈ lstrip_where holds s.
Proof.
  intros Hin Hc. induction s as [|d s IH]; [done|]. simpl.
  destruct (holds d) eqn:Hd; [|done].
  apply elem_of_cons in Hin as [->|Hin]; [congruence|by apply IH].
Qed.

Lemma lstrip_where_app (holds : ascii → bool) (c : ascii) (s rest : str) :
  c ∈ s → holds c = false →
  lstrip_where holds (s ++ rest) = lstrip_where holds s ++ rest.
Proof.
  intros Hin Hc. induction s as [|d s IH]; [by apply elem_of_nil in Hin|].
  simpl. destruct (holds d) eqn:Hd; [|done].
  apply elem_of_cons in Hin as [->|Hin]; [congruence|by apply IH].
Qed.

Lemma lstrip_where_within (holds : ascii → bool) (s : str) :
  ∀ c, c ∈ lstrip_where holds s → c ∈ s.
Proof.
  intros c Hc. destruct (lstrip_where_suffix holds s) as [before Heq].
  rewrite Heq. apply elem_of_app. by right.
Qed.

Lemma startswith_head (s rest : str) (c : ascii) :
  c ∈ s → percent ∉ s → startswith (s ++ rest) "%" = false.
Proof.
  intros Hin Hs. destruct s as [|d s]; [by apply elem_of_nil in Hin|].
  simpl. rewrite bool_decide_eq_false_2; [done|].
  intros <-. apply Hs. left.
Qed.

Lemma url_group_needs_backslash (b a : list ascii) :
  startswith a "\" = false →
  match_at false (compiled ("(" ++ url_pattern ++ ")")) (b, a) = None.
Proof.
  intros Ha. unfold match_at.
  change (compiled ("(" ++ url_pattern ++ ")"))
    with (Seq (seq_of (map lit "\url{"
                       ++ [Star (Atomic
                                   (Alt (Seq (Chr (Among true
                                                     [IChar "{"%char;
                                                      IChar "}"%char]))
                                             Eps)
                                        (Seq Recurse Eps)));
                           lit "}"%char]))
              Eps).
  rewrite (m_eq _ _ _ (Seq _ _)). apply m_literals_none.
  by apply (startswith_longer a "\" "url{").
Qed.

Lemma url_needs_backslash (b a : list ascii) :
  startswith a "\" = false →
  match_at false (compiled url_pattern) (b, a) = None.
Proof.
  intros Ha. unfold match_at.
  change (compiled url_pattern)
    with (seq_of (map lit "\url{"
                  ++ [Star (Atomic
                              (Alt (Seq (Chr (Among true
                                                [IChar "{"%char;
                                                 IChar "}"%char]))
                                        Eps)
                                   (Seq Recurse Eps)));
                      lit "}"%char])).
  apply m_literals_none.
  by apply (startswith_longer a "\" "url{").
Qed.

Lemma split_from_prefix (r : re) (s : str) :
  ∀ b a seg,
    (∀ before a', s = before ++ a' → a' ≠ [] →
                  match_at false r (reverse before ++ b, a' ++ a) = None) →
    split_from r b (s ++ a) 0 seg
    = split_from r (reverse s ++ b) a 0 (reverse s ++ seg).
Proof.
  induction s as [|c s IH]; intros b a seg Hnone; [done|].
  cbn [app split_from].
  pose proof (Hnone [] (c :: s) eq_refl ltac:(done)) as Hhere.
  rewrite reverse_nil in Hhere. cbn [app] in Hhere. rewrite Hhere.
  rewrite IH.
  - by rewrite !reverse_cons, <- !(assoc_L (++)).
  - intros before a' -> Ha'.
    specialize (Hnone (c :: before) a' eq_refl Ha').
    by rewrite reverse_cons, <- (assoc_L (++)) in Hnone.
Qed.

Lemma split_from_head (r : re) (a : list ascii) :
  ∀ b skip seg,
    ∃ x rest, split_from r b a skip seg = (reverse seg ++ x) :: rest.
Proof.
  induction a as [|c a IH]; intros b skip seg.
  - exists [], []. simpl. by rewrite app_nil_r.
  - cbn [split_from]. destruct skip as [|skip]; [|apply IH].
    destruct (match_at false r (b, c :: a)) as [q|].
    + destruct (_ =? 0).
      * destruct (IH (c :: b) 0 (c :: seg)) as (x & rest & ->).
        exists (c :: x), rest. by rewrite reverse_cons, <- (assoc_L (++)).
      * eexists [], _. by rewrite app_nil_r.
    + destruct (IH (c :: b) 0 (c :: seg)) as (x & rest & ->).
      exists (c :: x), rest. by rewrite reverse_cons, <- (assoc_L (++)).
Qed.

Lemma comment_here (b x : list ascii) :
  (∀ c, head b = Some c → c ≠ backslash) →
  match_at false (compiled comment_pattern) (b, "%" ++ x)
  = Some (percent :: b, x).
Proof.
  intros Hb. unfold match_at.
  change (compiled comment_pattern)
    with (Seq (Look false true (Seq (lit backslash) Eps))
              (Seq (lit percent) Eps)).
  rewrite (m_eq _ _ _ (Seq _ _)), (m_eq _ _ _ (Look _ _ _)).
  unfold lit. rewrite behind_one_char.
  assert (match b with
          | c :: _ => in_cset false (One (IChar backslash)) c
          | [] => false
          end = false) as ->.
  { destruct b as [|c b]; [done|].
    change (in_cset false (One (IChar backslash)) c)
      with (bool_decide (c = backslash)).
    apply bool_decide_eq_false_2. by apply Hb. }
  cbn [xorb]. by rewrite m_one_char.
Qed.

Lemma search_comment (pre x : str) :
  percent ∉ pre → backslash ∉ pre →
  search (compiled comment_pattern) (pre ++ "%" ++ x)
  = Some (mk_match (reverse pre, "%" ++ x) (percent :: reverse pre, x)).
Proof.
  intros Hpercent Hbackslash. unfold search.
  rewrite search_from_prefix.
  - rewrite app_nil_r. apply search_from_here, comment_here.
    intros c Hc ->. apply Hbackslash.
    rewrite head_reverse in Hc. apply last_Some in Hc as [l' ->].
    apply elem_of_app. right. left.
  - intros before a' -> Ha'. apply comment_needs_percent.
    destruct a' as [|c a']; [done|]. simpl.
    rewrite bool_decide_eq_false_2; [done|]. intros <-.
    apply Hpercent. apply elem_of_app. right. left.
Qed.

(** X21.  For a line that does not hold the word auto-ignore and whose
    first % comes after a text with no backslash and with a character that
    is not whitespace, the comment stripper keeps the text before the % and the
    % itself, and puts a newline in place of what follows it. *)
Theorem remove_comments_inline_cuts (pre post : str) (c : ascii) :
  find (pre ++ "%" ++ post) "auto-ignore" = None →
  percent ∉ pre → backslash ∉ pre → c ∈ pre → isspace c = false →
  _remove_comments_inline (pre ++ "%" ++ post) = pre ++ "%" ++ [nl].
Proof.
  intros Hauto Hpercent Hbackslash Hin Hc. apply auto_ignore_absent in Hauto.
  unfold _remove_comments_inline. rewrite Hauto.
  rewrite bool_decide_eq_false_2 by (intros H; by apply is_Some_None in H).
  assert (startswith (lstrip_chars [tab] (lstrip_chars " " (pre ++ "%" ++ post)))
                     "%" = false) as ->.
  { assert (c ≠ " "%char ∧ c ≠ tab) as [Hspace Htab].
    { split; intros ->; discriminate. }
    unfold lstrip_chars.
    rewrite (lstrip_where_app _ c) by
      (try done; apply bool_decide_eq_false_2; set_solver).
    rewrite (lstrip_where_app _ c).
    - eapply (startswith_head _ _ c).
      + do 2 (apply lstrip_where_keeps;
               [|apply bool_decide_eq_false_2; set_solver]). done.
      + intros H. by do 2 apply lstrip_where_within in H.
    - apply lstrip_where_keeps; [done|].
      apply bool_decide_eq_false_2; set_solver.
    - apply bool_decide_eq_false_2; set_solver. }
  unfold split.
  rewrite (assoc_L (++) pre "%" post).
  rewrite split_from_prefix.
  2: { intros before a' Heq Ha'. apply url_group_needs_backslash.
       destruct a' as [|d a']; [done|]. simpl.
       rewrite bool_decide_eq_false_2; [done|]. intros <-.
       assert (backslash ∈ pre ++ "%") as Hd
         by (rewrite Heq; apply elem_of_app; right; left).
       apply elem_of_app in Hd as [Hd|Hd]; [done|].
       apply list_elem_of_singleton in Hd. discriminate. }
  destruct (split_from_head (compiled ("(" ++ url_pattern ++ ")")) post
              (reverse (pre ++ "%") ++ []) 0 (reverse (pre ++ "%") ++ []))
    as (x & rest & ->).
  rewrite app_nil_r, reverse_involutive, <- (assoc_L (++)).
  cbn [strip_segments].
  rewrite bool_decide_eq_false_2.
  2: { unfold at_text. rewrite url_needs_backslash;
         [intros H; by apply is_Some_None in H|].
       destruct pre as [|d pre]; [by apply elem_of_nil in Hin|].
       simpl. rewrite bool_decide_eq_false_2; [done|]. intros <-.
       apply Hbackslash. left. }
  unfold remove_comments.
  assert (startswith (lstrip (pre ++ "%" ++ x)) "%" = false) as ->.
  { unfold lstrip. rewrite (lstrip_where_app _ c) by done.
    eapply (startswith_head _ _ c).
    - by apply lstrip_where_keeps.
    - intros H. by apply lstrip_where_within in H. }
  rewrite search_comment by done. cbn [mk_match m_end fst length].
  rewrite length_reverse.
  replace (S (length pre)) with (length (pre ++ "%"))
    by (rewrite length_app; simpl; lia).
  rewrite (assoc_L (++) pre "%" x), take_app_length.
  cbn [concat]. rewrite app_nil_r, <- !(assoc_L (++)).
  by rewrite (assoc_L (++) pre "%" [nl]), endswith_app.
Qed.

Lemma remove_comments_inline_cuts_witness :
  _remove_comments_inline ("text " ++ "%" ++ " comment \url{a}")
  = "text " ++ "%" ++ [nl].
Proof.
  apply (remove_comments_inline_cuts "text " " comment \url{a}" "t"%char).
  - vm_compute. reflexivity.
  - vm_compute. intros H.
    repeat (apply elem_of_cons in H as [H|H]; [discriminate|]).
    by apply elem_of_nil in H.
  - vm_compute. intros H.
    repeat (apply elem_of_cons in H as [H|H]; [discriminate|]).
    by apply elem_of_nil in H.
  - left.
  - reflexivity.
Defined.

(** ** A line that is a comment *)

Lemma lstrip_where_replicate (holds : ascii → bool) (c : ascii) (n : nat)
  (s : str) :
  holds c = true →
  lstrip_where holds (replicate n c ++ s) = lstrip_where holds s.
Proof.
  intros Hc. induction n as [|n IH]; [done|]. simpl. by rewrite Hc.
Qed.

Lemma find_cons_other (c t0 : ascii) (y t : str) :
  c ≠ t0 → find y (t0 :: t) = None → find (c :: y) (t0 :: t) = None.
Proof.
  intros Hc Hy. cbn [find startswith].
  rewrite bool_decide_eq_false_2 by done. by rewrite Hy.
Qed.

Lemma find_replicate_other (c t0 : ascii) (n : nat) (y t : str) :
  c ≠ t0 →
  find (replicate n c ++ y) (t0 :: t) = None ↔ find y (t0 :: t) = None.
Proof.
  intros Hc. induction n as [|n IH]; [done|].
  cbn [replicate app find startswith].
  rewrite bool_decide_eq_false_2 by done. cbn [andb].
  rewrite <- IH. by destruct (find (replicate n c ++ y) (t0 :: t)).
Qed.

(** X27.  A line in which only spaces, and then only tabs, stand before
    a %, and which does not hold the word auto-ignore, is mapped to the
    empty string. *)
Theorem remove_comments_inline_comment_only (i j : nat) (post : str) :
  find post "auto-ignore" = None →
  _remove_comments_inline
    (replicate i " "%char ++ replicate j tab ++ "%" ++ post) = [].
Proof.
  intros Hpost.
  assert (search (compiled auto_ignore_pattern)
            (replicate i " "%char ++ replicate j tab ++ "%" ++ post) = None)
    as Hauto.
  { apply auto_ignore_absent.
    rewrite 2!find_replicate_other by done.
    by apply (find_cons_other percent). }
  unfold _remove_comments_inline. rewrite Hauto.
  rewrite bool_decide_eq_false_2 by (intros H; by apply is_Some_None in H).
  assert (lstrip_chars " " (replicate i " "%char ++ replicate j tab ++ "%" ++ post)
          = replicate j tab ++ "%" ++ post) as ->.
  { unfold lstrip_chars. rewrite lstrip_where_replicate by done.
    destruct j; reflexivity. }
  assert (lstrip_chars [tab] (replicate j tab ++ "%" ++ post) = "%" ++ post)
    as ->.
  { unfold lstrip_chars. by rewrite lstrip_where_replicate. }
  done.
Qed.

Lemma remove_comments_inline_comment_only_witness :
  _remove_comments_inline
    (replicate 2 " "%char ++ replicate 1 tab ++ "%" ++ " a comment") = [].
Proof.
  apply (remove_comments_inline_comment_only 2 1 " a comment").
  vm_compute. reflexivity.
Defined.

(** ** The end of the string returned *)


Lemma endswith_newline (s : str) :
  endswith s [nl] = true ↔ last s = Some nl.
Proof.
  unfold endswith. rewrite <- head_reverse.
  change (reverse [nl]) with [nl].
  destruct (reverse s) as [|c r]; simpl; [done|].
  rewrite andb_true_r, bool_decide_eq_true. split; [by intros <-|by intros [= ->]].
Qed.

Lemma forallb_last (holds : ascii → bool) (run : str) (c : ascii) :
  forallb holds run = true → last run = Some c → holds c = true.
Proof.
  intros Hrun Hlast. apply last_Some in Hlast as [run' ->].
  rewrite forallb_app in Hrun. apply andb_true_iff in Hrun as [_ Hc].
  simpl in Hc. by rewrite andb_true_r in Hc.
Qed.

(** A starred class that is followed by nothing takes every character it
    can. *)
Lemma star_class_all (holds : ascii → bool) (k : pos → option pos) :
  (∀ p0, k p0 = Some p0) →
  ∀ a b q, star_class holds k b a = Some q →
           ∃ run, a = run ++ q.2 ∧ forallb holds run = true.
Proof.
  intros Hk. induction a as [|c a IH]; intros b q; simpl.
  - rewrite Hk. intros [= <-]. by exists [].
  - destruct (holds c) eqn:Hc.
    + destruct (star_class holds k (c :: b) a) as [q0|] eqn:Hstar.
      * intros [= <-]. apply IH in Hstar as (run & Ha & Hrun).
        exists (c :: run). split; [by rewrite Ha at 1|]. simpl.
        by rewrite Hc.
      * destruct (star_class_skip holds k a (c :: b)) as [? Hsome];
          [by rewrite Hk|congruence].
    + rewrite Hk. intros [= <-]. by exists [].
Qed.

(** A match of the auto-ignore pattern ends with the word auto-ignore, or
    with a character that is no newline: it does not reach the end of a
    text that ends with a newline. *)
Lemma auto_ignore_match_stops (b a : list ascii) (q : pos) :
  match_at false (compiled auto_ignore_pattern) (b, a) = Some q →
  last a = Some nl → q.2 ≠ [].
Proof.
  unfold match_at. cbn [snd]. generalize (length a). intros depth.
  rewrite auto_ignore_pattern_eq, (m_eq _ _ _ (Seq _ _)).
  rewrite auto_ignore_group1_eq. intros H Hlast Hend.
  assert (is_Some (m false depth
                     (Seq (seq_of (map lit "%" ++ Star space_re
                                   :: map lit "auto-ignore"))
                          (Seq (Star (Chr Dot)) Eps))
                     (seq_of (map lit "%" ++ Star space_re
                              :: map lit "auto-ignore"))
                     (m false depth
                        (Seq (seq_of (map lit "%" ++ Star space_re
                                      :: map lit "auto-ignore"))
                             (Seq (Star (Chr Dot)) Eps))
                        (Seq (Star (Chr Dot)) Eps) Some) (b, a))) as Hsome
    by (by eexists).
  apply m_literals in Hsome as (a1 & -> & _).
  rewrite m_literals_eq, m_seq_of_cons in H.
  apply m_forward in H as ([b1 a2] & (t & _ & Ht) & H). simpl in Ht.
  rewrite <- (app_nil_r (map lit "auto-ignore")) in H.
  assert (is_Some (m false depth
                     (Seq (seq_of (map lit "%" ++ Star space_re
                                   :: map lit "auto-ignore"))
                          (Seq (Star (Chr Dot)) Eps))
                     (seq_of (map lit "auto-ignore" ++ []))
                     (m false depth
                        (Seq (seq_of (map lit "%" ++ Star space_re
                                      :: map lit "auto-ignore"))
                             (Seq (Star (Chr Dot)) Eps))
                        (Seq (Star (Chr Dot)) Eps) Some) (b1, a2))) as Hsome
    by (by eexists).
  apply m_literals in Hsome as (a3 & -> & _).
  rewrite m_literals_eq in H. cbn [seq_of foldr] in H.
  rewrite m_eq, (m_eq _ _ _ (Seq _ _)), m_star_class in H.
  apply star_class_all in H as (run & -> & Hrun);
    [|intros p0; by rewrite !m_eq].
  rewrite Hend, app_nil_r in Ht. subst a1.
  rewrite !last_app in Hlast.
  destruct (last run) as [c|] eqn:Hc.
  - injection Hlast as ->.
    by pose proof (forallb_last _ _ _ Hrun Hc).
  - by simpl in Hlast.
Qed.

Lemma sub_group1_nil (whole g : re) (b : list ascii) (skip : nat) :
  sub_group1 whole g b [] skip = [].
Proof.
  destruct skip; simpl; [|done].
  destruct (match_at false whole (b, [])); [|done].
  destruct (match_at false g (b, [])); by rewrite ?take_nil.
Qed.

(** The substitution keeps the newline at the end of the text when no match
    reaches it. *)
Lemma sub_group1_ends (whole g : re) :
  (∀ b a q, match_at false whole (b, a) = Some q → last a = Some nl →
            q.2 ≠ []) →
  ∀ a b skip,
    last a = Some nl → skip < length a →
    last (sub_group1 whole g b a skip) = Some nl.
Proof.
  intros Hstop. induction a as [|c a IH]; intros b skip Hlast Hskip; [done|].
  assert (a ≠ [] → last a = Some nl) as Hrest.
  { intros Ha. rewrite last_cons in Hlast. by destruct (last a) eqn:E;
      [|apply last_None in E]. }
  assert (a = [] → c = nl) as Hone by (intros ->; by injection Hlast).
  destruct skip as [|skip]; cbn [sub_group1].
  - destruct (match_at false whole (b, c :: a)) as [q|] eqn:Hq.
    + pose proof (Hstop _ _ _ Hq Hlast) as Hq2.
      apply match_at_reaches, reaches_length in Hq. cbn [fst snd] in Hq.
      assert (length q.2 ≠ 0) by (by destruct q.2).
      simpl in Hq. rewrite !last_app.
      destruct a as [|d a].
      * rewrite sub_group1_nil.
        replace (length q.1 - length b) with 0 by (simpl in *; lia).
        simpl. by rewrite Hone.
      * rewrite IH; [done|by apply Hrest|simpl in *; lia].
    + destruct a as [|d a]; [by rewrite sub_group1_nil, Hone|].
      rewrite last_cons, IH; [done|by apply Hrest|simpl; lia].
  - simpl in Hskip. apply IH; [|lia].
    apply Hrest. intros ->. simpl in Hskip. lia.
Qed.



(** What a starred class took, and where its continuation went on. *)
Lemma star_class_inv (holds : ascii → bool) (k : pos → option pos) :
  ∀ a b q, star_class holds k b a = Some q →
           ∃ run a', a = run ++ a' ∧ forallb holds run = true ∧
                     k (reverse run ++ b, a') = Some q.
Proof.
  induction a as [|c a IH]; intros b q; simpl.
  - intros Hk. by exists [], [].
  - destruct (holds c) eqn:Hc; [|intros Hk; by exists [], (c :: a)].
    destruct (star_class holds k (c :: b) a) as [q0|] eqn:Hstar;
      [|intros Hk; by exists [], (c :: a)].
    intros [= <-]. apply IH in Hstar as (run & a' & -> & Hrun & Hk).
    exists (c :: run), a'. split_and!; [done|by simpl; rewrite Hc|].
    by rewrite reverse_cons, <- (assoc_L (++)).
Qed.

(** Where the auto-ignore pattern matches, the text goes on with a marker:
    a %, whitespace and the word auto-ignore. *)
Lemma auto_ignore_match_marker (b a : list ascii) :
  is_Some (match_at false (compiled auto_ignore_pattern) (b, a)) →
  ∃ sp rest, a = "%" ++ sp ++ "auto-ignore" ++ rest ∧
             forallb re_space sp = true.
Proof.
  unfold match_at. cbn [snd]. generalize (length a). intros depth.
  rewrite auto_ignore_pattern_eq, (m_eq _ _ _ (Seq _ _)).
  rewrite auto_ignore_group1_eq. intros Hsome.
  pose proof Hsome as [q H].
  apply m_literals in Hsome as (a1 & -> & _).
  rewrite m_literals_eq, m_seq_of_cons in H.
  unfold space_re in H. rewrite m_star_class in H.
  apply star_class_inv in H as (sp & a2 & -> & Hsp & H).
  rewrite <- (app_nil_r (map lit "auto-ignore")) in H.
  assert (is_Some (Some q)) as Hsome by by eexists.
  rewrite <- H in Hsome.
  apply m_literals in Hsome as (rest & -> & _).
  by exists sp, rest.
Qed.

(** The substitution puts no newline at the end of a text that has none:
    what it keeps of a match ends with the word auto-ignore. *)
Lemma sub_group1_ends_inv :
  ∀ a b skip,
    last (sub_group1 (compiled auto_ignore_pattern)
                     (compiled auto_ignore_group1) b a skip) = Some nl →
    last a = Some nl.
Proof.
  induction a as [|c a IH]; intros b skip; [by rewrite sub_group1_nil|].
  assert (∀ rest : str, last rest = Some nl → last (c :: rest) = Some nl)
    as Hcons by (intros rest Hrest; by rewrite last_cons, Hrest).
  destruct skip as [|skip]; cbn [sub_group1]; [|intros H; eapply Hcons, IH, H].
  destruct (match_at false (compiled auto_ignore_pattern) (b, c :: a))
    as [q|] eqn:Hq.
  - destruct (auto_ignore_match_marker b (c :: a)) as (sp & rest & Ha & Hsp);
      [by eexists|].
    pose proof (match_at_auto_ignore_group b sp rest Hsp) as Hgroup.
    rewrite <- Ha in Hgroup. rewrite Hgroup. cbn [fst].
    clear Hq Hgroup. rewrite !last_app.
    destruct (last (sub_group1 _ _ (c :: b) a _)) as [y|] eqn:Hsub.
    + intros [= ->]. by eapply Hcons, IH, Hsub.
    + destruct (_ =? 0).
      * injection Ha as -> _. done.
      * simpl last at 1.
        rewrite length_app.
        replace (length (reverse ("%" ++ sp ++ "auto-ignore")) + length b
                 - length b)
          with (length ("%" ++ sp ++ "auto-ignore"))
          by (rewrite length_reverse; lia).
        rewrite Ha.
        replace ("%" ++ sp ++ "auto-ignore" ++ rest)
          with (("%" ++ sp ++ "auto-ignore") ++ rest)
          by (by rewrite <- !(assoc_L (++))).
        rewrite take_app_length, (last_app "%"), (last_app sp). done.
  - rewrite last_cons.
    destruct (last (sub_group1 _ _ (c :: b) a 0)) as [y|] eqn:Hsub.
    + intros [= ->]. by eapply Hcons, IH, Hsub.
    + intros [= ->]. destruct a as [|d a]; [done|].
      exfalso. cbn [sub_group1] in Hsub.
      destruct (match_at false (compiled auto_ignore_pattern) (nl :: b, d :: a))
        as [q|] eqn:Hnext.
      * destruct (auto_ignore_match_marker (nl :: b) (d :: a))
          as (sp & rest & Ha & Hsp); [by eexists|].
        pose proof (match_at_auto_ignore_group (nl :: b) sp rest Hsp) as Hgroup.
        rewrite <- Ha in Hgroup. rewrite Hgroup in Hsub. cbn [fst] in Hsub.
        rewrite length_app, length_reverse in Hsub. rewrite Ha in Hsub.
        apply last_None, app_eq_nil in Hsub as [Hkept _].
        replace (length ("%" ++ sp ++ "auto-ignore") + length (nl :: b)
                 - length (nl :: b))
          with (length ("%" ++ sp ++ "auto-ignore")) in Hkept by lia.
        replace ("%" ++ sp ++ "auto-ignore" ++ rest)
          with (("%" ++ sp ++ "auto-ignore") ++ rest) in Hkept
          by (by rewrite <- !(assoc_L (++))).
        by rewrite take_app_length in Hkept.
      * rewrite last_cons in Hsub.
        by destruct (last (sub_group1 _ _ _ a 0)).
Qed.

(** X30.  For a line with an auto-ignore marker, the string returned ends
    with a newline exactly when the line does. *)
Theorem remove_comments_inline_marker_ends (text : str) :
  is_Some (search (compiled auto_ignore_pattern) text) →
  endswith (_remove_comments_inline text) [nl] = endswith text [nl].
Proof.
  intros Hmarker. unfold _remove_comments_inline.
  rewrite bool_decide_eq_true_2 by done.
  apply Bool.eq_iff_eq_true. rewrite !endswith_newline. split.
  - apply sub_group1_ends_inv.
  - intros Hlast.
    apply (sub_group1_ends _ _ auto_ignore_match_stops); [done|].
    destruct text; [done|simpl; lia].
Qed.

Lemma remove_comments_inline_marker_ends_witness :
  endswith (_remove_comments_inline "x %auto-ignore y") [nl]
  = endswith "x %auto-ignore y" [nl].
Proof.
  apply (remove_comments_inline_marker_ends "x %auto-ignore y").
  vm_compute. by eexists.
Defined.

(** ** The comment stripper on a line with a [\url] *)

Lemma url_pattern_eq : compiled url_pattern = url_re.
Proof. reflexivity. Qed.

Lemma url_group_eq : compiled ("(" ++ url_pattern ++ ")") = Seq url_re Eps.
Proof. reflexivity. Qed.

Lemma star_loop_single (mx : (pos → option pos) → pos → option pos)
  (holds : ascii → bool) (k : pos → option pos) :
  (∀ k b a, mx k (b, a) = match a with
                          | c :: a' => if holds c then k (c :: b, a') else None
                          | [] => None
                          end) →
  ∀ n b a, length a ≤ n → star_loop mx k n (b, a) = star_class holds k b a.
Proof.
  intros Hmx. induction n as [|n IH]; intros b a Hlen.
  - destruct a; [done | simpl in Hlen; lia].
  - simpl. rewrite Hmx. destruct a as [|c a]; [done|]. simpl.
    destruct (holds c); [|done].
    rewrite (proj2 (Nat.ltb_lt _ _)) by lia.
    rewrite IH by (simpl in Hlen; lia). done.
Qed.

Section url.
Context (whole : re).
Hypothesis whole_needs_backslash :
  ∀ depth k b a, startswith a "\" = false →
                 m false depth whole whole k (b, a) = None.

Lemma m_url_turn (depth : nat) (k : pos → option pos) (b a : list ascii) :
  m false depth whole url_turn k (b, a)
  = match a with
    | c :: a' => if in_cset false no_brace c then k (c :: b, a') else None
    | [] => None
    end.
Proof.
  unfold url_turn.
  rewrite (m_eq _ _ _ (Atomic _)), (m_eq _ _ _ (Alt _ _)), m_one_char.
  assert (∀ a0, startswith a0 "\" = false →
                m false depth whole (Seq Recurse Eps) Some (b, a0) = None)
    as Hrec.
  { intros a0 Ha0. rewrite (m_eq _ _ _ (Seq _ _)), (m_eq _ _ _ Recurse).
    destruct depth; [done|]. by apply whole_needs_backslash. }
  destruct a as [|c a]; [by rewrite Hrec|].
  destruct (in_cset false no_brace c) eqn:Hc; [done|].
  rewrite Hrec; [done|]. simpl.
  rewrite bool_decide_eq_false_2; [done|]. intros <-. discriminate.
Qed.

Lemma m_url (depth : nat) (k : pos → option pos) (b u post : list ascii) :
  forallb (in_cset false no_brace) u = true →
  is_Some (k (reverse ("\url{" ++ u ++ "}") ++ b, post)) →
  m false depth whole url_re k (b, "\url{" ++ u ++ "}" ++ post)
  = k (reverse ("\url{" ++ u ++ "}") ++ b, post).
Proof.
  intros Hu Hk. unfold url_re.
  rewrite m_literals_eq, m_seq_of_cons, (m_eq _ _ _ (Star _)).
  rewrite (star_loop_single _ (in_cset false no_brace))
    by (first [apply m_url_turn | done]).
  assert (reverse ("\url{" ++ u ++ "}") ++ b
          = "}"%char :: reverse u ++ reverse "\url{" ++ b) as Heq.
  { rewrite !reverse_app, <- !(assoc_L (++)). done. }
  rewrite Heq in Hk |- *.
  assert (m false depth whole (seq_of [lit "}"%char]) k
            (reverse u ++ reverse "\url{" ++ b, "}" ++ post)
          = k ("}"%char :: reverse u ++ reverse "\url{" ++ b, post)) as Hclose.
  { rewrite m_seq_of_cons. unfold lit. rewrite m_eq. cbn [app in_cset in_item].
    rewrite bool_decide_eq_true_2 by done. cbn [seq_of foldr].
    by rewrite m_eq. }
  rewrite star_class_run; [done|done| |by rewrite Hclose].
  by intros c [= <-].
Qed.

End url.

Lemma url_re_needs_backslash (depth : nat) (k : pos → option pos)
  (b a : list ascii) :
  startswith a "\" = false → m false depth url_re url_re k (b, a) = None.
Proof.
  intros Ha. unfold url_re at 2. apply m_literals_none.
  by apply (startswith_longer a "\" "url{").
Qed.

Lemma url_group_re_needs_backslash (depth : nat) (k : pos → option pos)
  (b a : list ascii) :
  startswith a "\" = false →
  m false depth (Seq url_re Eps) (Seq url_re Eps) k (b, a) = None.
Proof.
  intros Ha. rewrite (m_eq _ _ _ (Seq _ _)). unfold url_re at 3.
  apply m_literals_none. by apply (startswith_longer a "\" "url{").
Qed.

Lemma match_at_url (b u post : list ascii) :
  forallb (in_cset false no_brace) u = true →
  match_at false (compiled url_pattern) (b, "\url{" ++ u ++ "}" ++ post)
  = Some (reverse ("\url{" ++ u ++ "}") ++ b, post).
Proof.
  intros Hu. unfold match_at. rewrite url_pattern_eq.
  by rewrite (m_url url_re url_re_needs_backslash).
Qed.

Lemma match_at_url_group (b u post : list ascii) :
  forallb (in_cset false no_brace) u = true →
  match_at false (compiled ("(" ++ url_pattern ++ ")"))
           (b, "\url{" ++ u ++ "}" ++ post)
  = Some (reverse ("\url{" ++ u ++ "}") ++ b, post).
Proof.
  intros Hu. unfold match_at. rewrite url_group_eq, (m_eq _ _ _ (Seq _ _)).
  rewrite (m_url (Seq url_re Eps) url_group_re_needs_backslash);
    [by rewrite m_eq|done|by rewrite m_eq].
Qed.

Lemma split_from_skip (r : re) (s : str) :
  ∀ b a seg,
    a ≠ [] →
    split_from r b (s ++ a) (length s) seg
    = split_from r (reverse s ++ b) a 0 seg.
Proof.
  induction s as [|c s IH]; intros b a seg Ha; [done|].
  cbn [app length split_from]. rewrite IH by done.
  by rewrite reverse_cons, <- (assoc_L (++)).
Qed.

Lemma split_from_skip_end (r : re) (s : str) :
  ∀ b seg, split_from r b s (length s) seg = [reverse seg].
Proof.
  induction s as [|c s IH]; intros b seg; [done|].
  cbn [length split_from]. apply IH.
Qed.

Lemma split_no_backslash (r : re) (s b seg : str) :
  (∀ b a, startswith a "\" = false → match_at false r (b, a) = None) →
  backslash ∉ s →
  split_from r b s 0 seg = [reverse seg ++ s].
Proof.
  intros Hr Hs. rewrite <- (app_nil_r s) at 1.
  rewrite split_from_prefix.
  - cbn [split_from]. by rewrite reverse_app, reverse_involutive.
  - intros before a' Heq Ha'. apply Hr.
    destruct a' as [|c a']; [done|]. simpl.
    rewrite bool_decide_eq_false_2; [done|]. intros <-.
    apply Hs. rewrite Heq. apply elem_of_app. right. left.
Qed.

Lemma lstrip_where_stop (holds : ascii → bool) (x : ascii) (s rest : str) :
  holds x = false →
  ∃ s', lstrip_where holds (s ++ x :: rest) = s' ++ x :: rest ∧
        ∀ c, c ∈ s' → c ∈ s.
Proof.
  intros Hx. induction s as [|c s (s' & IH & Hin)]; simpl.
  - exists []. by rewrite Hx.
  - destruct (holds c).
    + exists s'. split; [done|]. intros d Hd. right. by apply Hin.
    + by exists (c :: s).
Qed.

(** X28.  A % inside a [\url] is no comment: a line that does not hold
    the word auto-ignore, made of a text, a [\url] with no brace inside
    its braces, and a text, the two texts holding no % and no backslash,
    passes through the comment stripper unchanged, but for a newline added
    at its end when it has none. *)
Theorem remove_comments_inline_url (pre u post : str) :
  find (pre ++ "\url{" ++ u ++ "}" ++ post) "auto-ignore" = None →
  percent ∉ pre → backslash ∉ pre →
  forallb (in_cset false no_brace) u = true →
  percent ∉ post → backslash ∉ post →
  _remove_comments_inline (pre ++ "\url{" ++ u ++ "}" ++ post)
  = if endswith (pre ++ "\url{" ++ u ++ "}" ++ post) [nl]
       || endswith (pre ++ "\url{" ++ u ++ "}" ++ post) "\n"
    then pre ++ "\url{" ++ u ++ "}" ++ post
    else (pre ++ "\url{" ++ u ++ "}" ++ post) ++ [nl].
Proof.
  intros Hauto Hpre Hpre' Hu Hpost Hpost'. apply auto_ignore_absent in Hauto.
  unfold _remove_comments_inline. rewrite Hauto.
  rewrite bool_decide_eq_false_2 by (intros H; by apply is_Some_None in H).
  assert (startswith
            (lstrip_chars [tab]
               (lstrip_chars " " (pre ++ "\url{" ++ u ++ "}" ++ post)))
            "%" = false) as ->.
  { unfold lstrip_chars.
    change (pre ++ "\url{" ++ u ++ "}" ++ post)
      with (pre ++ backslash :: "url{" ++ u ++ "}" ++ post).
    destruct (lstrip_where_stop (λ c, bool_decide (c ∈ " ")) backslash pre
                ("url{" ++ u ++ "}" ++ post)) as (s1 & -> & H1);
      [by apply bool_decide_eq_false_2; set_solver|].
    destruct (lstrip_where_stop (λ c, bool_decide (c ∈ [tab])) backslash s1
                ("url{" ++ u ++ "}" ++ post)) as (s2 & -> & H2);
      [by apply bool_decide_eq_false_2; set_solver|].
    destruct s2 as [|c s2]; [done|]. simpl.
    rewrite bool_decide_eq_false_2; [done|]. intros <-.
    apply Hpre, H1, H2. left. }
  assert (split (compiled ("(" ++ url_pattern ++ ")"))
                (pre ++ "\url{" ++ u ++ "}" ++ post)
          = [pre; "\url{" ++ u ++ "}"; post]) as ->.
  { pose proof (match_at_url_group (reverse pre) u post Hu) as Hm.
    assert ("\url{" ++ u ++ "}" ++ post = ("\url{" ++ u ++ "}") ++ post)
      as Htext by (by rewrite <- !(assoc_L (++))).
    rewrite Htext in Hm |- *.
    assert ("\url{" ++ u ++ "}" = backslash :: "url{" ++ u ++ "}") as Hurl
      by reflexivity.
    set (name := "url{" ++ u ++ "}") in *. rewrite Hurl in Hm |- *.
    cbn [app] in Hm.
    unfold split. rewrite split_from_prefix.
    2: { intros before a' Heq Ha'. apply url_group_needs_backslash.
         destruct a' as [|d a']; [done|]. simpl.
         rewrite bool_decide_eq_false_2; [done|]. intros <-.
         apply Hpre'. rewrite Heq. apply elem_of_app. right. left. }
    rewrite !app_nil_r. cbn [app split_from]. rewrite Hm. cbn [fst].
    rewrite length_app, !length_reverse.
    replace (length (backslash :: name) + length pre - length pre)
      with (S (length name)) by (simpl; lia).
    cbn [Nat.eqb pred take]. rewrite reverse_involutive, take_app_length.
    f_equal. f_equal.
    destruct post as [|d post].
    - rewrite app_nil_r. apply split_from_skip_end.
    - rewrite split_from_skip by done.
      by rewrite (split_no_backslash _ _ _ _ url_group_needs_backslash). }
  cbn [strip_segments].
  rewrite (bool_decide_eq_false_2 (is_Some (match_at _ _ (at_text pre)))).
  2: { unfold at_text. rewrite url_needs_backslash;
         [intros H; by apply is_Some_None in H|].
       destruct pre as [|d pre]; [done|]. simpl.
       rewrite bool_decide_eq_false_2; [done|]. intros <-.
       apply Hpre'. left. }
  rewrite remove_comments_no_percent by done.
  rewrite (bool_decide_eq_true_2
             (is_Some (match_at _ _ (at_text ("\url{" ++ u ++ "}"))))).
  2: { unfold at_text. rewrite <- (app_nil_r ("\url{" ++ u ++ "}")).
       rewrite <- !(assoc_L (++)). rewrite match_at_url by done.
       by eexists. }
  rewrite (bool_decide_eq_false_2 (is_Some (match_at _ _ (at_text post)))).
  2: { unfold at_text. rewrite url_needs_backslash;
         [intros H; by apply is_Some_None in H|].
       destruct post as [|d post]; [done|]. simpl.
       rewrite bool_decide_eq_false_2; [done|]. intros <-.
       apply Hpost'. left. }
  rewrite remove_comments_no_percent by done.
  cbn [concat]. rewrite app_nil_r, <- !(assoc_L (++)). done.
Qed.

Lemma remove_comments_inline_url_witness :
  _remove_comments_inline ("see " ++ "\url{" ++ "http://a.org/b%20c" ++ "}" ++ ".")
  = if endswith ("see " ++ "\url{" ++ "http://a.org/b%20c" ++ "}" ++ ".") [nl]
       || endswith ("see " ++ "\url{" ++ "http://a.org/b%20c" ++ "}" ++ ".") "\n"
    then "see " ++ "\url{" ++ "http://a.org/b%20c" ++ "}" ++ "."
    else ("see " ++ "\url{" ++ "http://a.org/b%20c" ++ "}" ++ ".") ++ [nl].
Proof.
  apply (remove_comments_inline_url "see " "http://a.org/b%20c" ".").
  - vm_compute. reflexivity.
  - vm_compute. intros H.
    repeat (apply elem_of_cons in H as [H|H]; [discriminate|]).
    by apply elem_of_nil in H.
  - vm_compute. intros H.
    repeat (apply elem_of_cons in H as [H|H]; [discriminate|]).
    by apply elem_of_nil in H.
  - reflexivity.
  - vm_compute. intros H.
    repeat (apply elem_of_cons in H as [H|H]; [discriminate|]).
    by apply elem_of_nil in H.
  - vm_compute. intros H.
    repeat (apply elem_of_cons in H as [H|H]; [discriminate|]).
    by apply elem_of_nil in H.
Defined.

(** ** The truncation at the end marker *)

(** With the marker [%END], the line [%END] holds the marker with no % at a
    smaller index, and the list is not cut there. *)
Lemma strip_tex_contents_marker_starting_with_percent :
  _strip_tex_contents ["%END"; "x"] "%END" = ["%END"; "x"] ∧
  spec_cut "%END" ["%END"; "x"] = ["%END"] ∧
  _strip_tex_contents ["%END"; "x"] "%END" ≠ spec_cut "%END" ["%END"; "x"].
Proof. repeat split; vm_compute; [reflexivity..|discriminate]. Qed.

Lemma strip_from_step (lines : list str) (end_str : str) (i : nat)
  (line : str) (rest : list str) :
  strip_from lines end_str i (line :: rest) =
  if stops_at end_str line then take (i + 1) lines
  else strip_from lines end_str (i + 1) rest.
Proof.
  simpl. unfold stops_at.
  destruct (find line end_str); [|done].
  destruct (find line "%"); [|done].
  by destruct (_ <? _).
Qed.

Lemma strip_from_prefix (end_str : str) (rest pre : list str) :
  Forall (λ l, stops_at end_str l = false) pre →
  (∃ i line,
      (pre ++ rest) !! i = Some line ∧ stops_at end_str line = true ∧
      (∀ j l, j < i → (pre ++ rest) !! j = Some l → stops_at end_str l = false) ∧
      strip_from (pre ++ rest) end_str (length pre) rest
        = take (S i) (pre ++ rest))
  ∨ (Forall (λ l, stops_at end_str l = false) (pre ++ rest) ∧
     strip_from (pre ++ rest) end_str (length pre) rest = pre ++ rest).
Proof.
  revert pre. induction rest as [|line rest IH]; intros pre Hpre.
  - right. by rewrite app_nil_r.
  - rewrite strip_from_step. destruct (stops_at end_str line) eqn:Hstop.
    + left. exists (length pre), line. split_and!.
      * by rewrite lookup_app_r, Nat.sub_diag by lia.
      * done.
      * intros j l Hj Hl. rewrite lookup_app_l in Hl by done.
        rewrite Forall_forall in Hpre.
        apply Hpre. rewrite list_elem_of_lookup. by exists j.
      * by rewrite Nat.add_1_r.
    + specialize (IH (pre ++ [line])).
      rewrite <- (assoc_L (++)), length_app, Nat.add_1_r in IH. simpl in IH.
      rewrite Nat.add_1_r. apply IH.
      apply Forall_app. split; [done|]. by apply Forall_singleton.
Qed.

(** C10, amended.  The truncation returns a prefix of the lines, each line
    kept as it is: the lines up to and including the first line that holds
    the marker and whose first %, if it has one, stands strictly after the
    start of the first occurrence of the marker; the whole list when no
    line is of that kind. *)
Theorem strip_tex_contents_prefix (lines : list str) (end_str : str) :
  (∃ i line,
      lines !! i = Some line ∧ stops_at end_str line = true ∧
      (∀ j l, j < i → lines !! j = Some l → stops_at end_str l = false) ∧
      _strip_tex_contents lines end_str = take (S i) lines)
  ∨ (Forall (λ l, stops_at end_str l = false) lines ∧
     _strip_tex_contents lines end_str = lines).
Proof.
  unfold _strip_tex_contents.
  exact (strip_from_prefix end_str lines [] (Forall_nil_2 _)).
Qed.


(** ** The truncation, as a function of the lines *)

Lemma strip_from_up_to_stop (end_str : str) (rest : list str) :
  ∀ pre, strip_from (pre ++ rest) end_str (length pre) rest
         = pre ++ up_to_stop end_str rest.
Proof.
  induction rest as [|line rest IH]; intros pre.
  - done.
  - rewrite strip_from_step. simpl.
    destruct (stops_at end_str line).
    + rewrite Nat.add_1_r.
      change (line :: rest) with ([line] ++ rest).
      rewrite (assoc_L (++)).
      replace (S (length pre)) with (length (pre ++ [line]))
        by (rewrite length_app; simpl; lia).
      by rewrite take_app_length.
    + specialize (IH (pre ++ [line])).
      rewrite <- (assoc_L (++)), length_app in IH. simpl in IH.
      by rewrite IH, <- (assoc_L (++)).
Qed.

Lemma strip_tex_contents_up_to_stop (lines : list str) (end_str : str) :
  _strip_tex_contents lines end_str = up_to_stop end_str lines.
Proof. exact (strip_from_up_to_stop end_str lines []). Qed.

Lemma up_to_stop_idempotent (end_str : str) (lines : list str) :
  up_to_stop end_str (up_to_stop end_str lines) = up_to_stop end_str lines.
Proof.
  induction lines as [|line rest IH]; simpl; [done|].
  destruct (stops_at end_str line) eqn:Hstop; simpl; rewrite Hstop; [done|].
  by rewrite IH.
Qed.

(** X15.  Truncating a list of lines that was truncated, at the same marker,
    removes nothing more. *)
Theorem strip_tex_contents_idempotent (lines : list str) (end_str : str) :
  _strip_tex_contents (_strip_tex_contents lines end_str) end_str
  = _strip_tex_contents lines end_str.
Proof.
  rewrite !strip_tex_contents_up_to_stop. apply up_to_stop_idempotent.
Qed.

Lemma find_Some_startswith (t : str) :
  ∀ s i, find s t = Some i → startswith (drop i s) t = true.
Proof.
  induction s as [|c s IH]; intros i; simpl.
  - destruct (startswith [] t) eqn:Hst; [by intros [= <-]|done].
  - destruct (startswith (c :: s) t) eqn:Hst; [by intros [= <-]|].
    destruct (find s t) as [j|] eqn:Hfind; [|done]. simpl.
    intros [= <-]. simpl. by apply IH.
Qed.

Lemma find_char_Some (c : ascii) :
  ∀ s i, find s [c] = Some i →
         s !! i = Some c ∧ c ∉ take i s.
Proof.
  induction s as [|d s IH]; intros i; simpl; [done|].
  case_bool_decide as Heq; simpl.
  - intros [= <-]. subst d. split; [done|]. simpl. apply not_elem_of_nil.
  - destruct (find s [c]) as [j|] eqn:Hfind; [|done]. simpl.
    intros [= <-]. destruct (IH j eq_refl) as [Hj Hnot].
    split; [done|]. simpl. rewrite not_elem_of_cons. split; [congruence|done].
Qed.

Lemma find_char_None (c : ascii) :
  ∀ s, find s [c] = None → c ∉ s.
Proof.
  induction s as [|d s IH]; simpl; [intros _; apply not_elem_of_nil|].
  case_bool_decide as Heq; simpl; [done|].
  destruct (find s [c]) as [j|] eqn:Hfind; [done|]. intros _.
  rewrite not_elem_of_cons. split; [congruence|by apply IH].
Qed.

(** For a marker that starts with a character other than %, the test of
    the loop is the test in the words of the specification. *)
Lemma stops_at_spec (end_str line : str) (c : ascii) :
  head end_str = Some c → c ≠ percent →
  stops_at end_str line
  = contains line end_str && negb (percent_before_marker end_str line).
Proof.
  intros Hhead Hc. unfold stops_at, contains, percent_before_marker.
  destruct (find line end_str) as [at_end|] eqn:Hend; [|done].
  rewrite bool_decide_eq_true_2 by by eexists. simpl.
  assert (line !! at_end = Some c) as Hat.
  { apply find_Some_startswith in Hend.
    destruct end_str as [|c' e]; [done|]. injection Hhead as ->.
    rewrite <- (take_drop at_end line) at 1.
    destruct (drop at_end line) as [|d rest] eqn:Hdrop; [done|].
    simpl in Hend. apply andb_true_iff in Hend as [Hcd _].
    apply bool_decide_eq_true in Hcd. subst d.
    assert (at_end < length line).
    { destruct (decide (at_end < length line)); [done|].
      rewrite drop_ge in Hdrop by lia. done. }
    rewrite lookup_app_r by (rewrite length_take; lia).
    rewrite length_take. replace (at_end - at_end `min` length line) with 0 by lia.
    done. }
  destruct (find line "%") as [at_percent|] eqn:Hpercent.
  - apply find_char_Some in Hpercent as [Hat_percent Hfirst].
    destruct (decide (at_end < at_percent)) as [Hlt|Hge].
    + rewrite (proj2 (Nat.ltb_lt _ _)) by done.
      rewrite bool_decide_eq_false_2; [done|].
      intros Hin. apply Hfirst.
      apply elem_of_take in Hin as (j & Hj & Hlt').
      apply elem_of_take. exists j. split; [done|lia].
    + rewrite (proj2 (Nat.ltb_ge _ _)) by lia.
      assert (at_percent ≠ at_end).
      { intros ->. rewrite Hat in Hat_percent. injection Hat_percent as ->.
        by apply Hc. }
      rewrite bool_decide_eq_true_2; [done|].
      apply elem_of_take. exists at_percent. split; [done|lia].
  - apply find_char_None in Hpercent.
    rewrite bool_decide_eq_false_2; [done|].
    intros Hin. apply Hpercent.
    apply elem_of_take in Hin as (j & Hj & _).
    apply list_elem_of_lookup. by exists j.
Qed.

Lemma up_to_stop_spec_cut (end_str : str) (c : ascii) (lines : list str) :
  head end_str = Some c → c ≠ percent →
  up_to_stop end_str lines = spec_cut end_str lines.
Proof.
  intros Hhead Hc. induction lines as [|line rest IH]; simpl; [done|].
  rewrite (stops_at_spec end_str line c Hhead Hc), IH. done.
Qed.

(** X16.  What [_read_file_content] keeps of the lines of a file is the cut in
    the words of the specification: the lines up to and including the
    first that holds [\end{document}] with no % before it, and all the
    lines when there is no such line. *)
Theorem read_file_content_cut (lines : list str) :
  _read_file_content lines = spec_cut "\end{document}" lines.
Proof.
  unfold _read_file_content. rewrite strip_tex_contents_up_to_stop.
  by apply (up_to_stop_spec_cut _ backslash).
Qed.


(** ** The asset matcher *)

(** C7.  For the candidate [plots/fig.pdf], the search that is not strict
    finds a reference in each of [{plots/fig}], [{plots/fig.pdf}] and
    [{FIG.PDF}]; the strict search finds one in [{plots/fig.pdf}], in any
    case of the letters, and none in [{plots/fig}] or [{FIG.PDF}]. *)
Theorem search_reference_plots_fig :
  _search_reference "plots/fig.pdf" "{plots/fig}" false
    = Some (Some (RMatch 0 11 "{plots/fig}")) ∧
  _search_reference "plots/fig.pdf" "{plots/fig.pdf}" false
    = Some (Some (RMatch 0 15 "{plots/fig.pdf}")) ∧
  _search_reference "plots/fig.pdf" "{FIG.PDF}" false
    = Some (Some (RMatch 0 9 "{FIG.PDF}")) ∧
  _search_reference "plots/fig.pdf" "{plots/fig.pdf}" true
    = Some (Some (RMatch 0 15 "{plots/fig.pdf}")) ∧
  _search_reference "plots/fig.pdf" "{PLOTS/Fig.Pdf}" true
    = Some (Some (RMatch 0 15 "{PLOTS/Fig.Pdf}")) ∧
  _search_reference "plots/fig.pdf" "{plots/fig}" true = Some None ∧
  _search_reference "plots/fig.pdf" "{FIG.PDF}" true = Some None.
Proof. repeat split; vm_compute; reflexivity. Qed.


(** ** The asset matcher on a file in the root *)

(** *** The pattern built from the name *)

Lemma alnum_plain (c : ascii) :
  alnum c = true →
  plain c = true ∧
  (bool_decide (c ∈ escape_chars) || isspace c) = false ∧
  bool_decide (c = "/"%char) = false ∧
  bool_decide (c = "."%char) = false.
Proof.
  destruct c as [[] [] [] [] [] [] [] []]; vm_compute; intros H;
    try discriminate; by repeat split.
Qed.

Lemma forallb_alnum_plain (s : str) :
  forallb alnum s = true → forallb plain s = true.
Proof.
  induction s as [|c s IH]; simpl; [done|].
  intros H. apply andb_true_iff in H as [Hc Hs].
  destruct (alnum_plain c Hc) as (-> & _). by rewrite IH.
Qed.

Lemma regex_escape_alnum (s : str) :
  forallb alnum s = true → regex_escape s = s.
Proof.
  unfold regex_escape. induction s as [|c s IH]; simpl; [done|].
  intros H. apply andb_true_iff in H as [Hc Hs].
  destruct (alnum_plain c Hc) as (_ & -> & _). simpl. by rewrite IH.
Qed.

Lemma alnum_not_in (c : ascii) (s : str) :
  bool_decide (c = "/"%char) = true ∨ bool_decide (c = "."%char) = true →
  forallb alnum s = true → c ∉ s.
Proof.
  intros Hc Hs Hin. induction s as [|d s IH]; [by apply elem_of_nil in Hin|].
  simpl in Hs. apply andb_true_iff in Hs as [Hd Hs].
  apply elem_of_cons in Hin as [->|Hin]; [|by apply IH].
  destruct (alnum_plain d Hd) as (_ & _ & H1 & H2).
  rewrite H1, H2 in Hc. by destruct Hc.
Qed.

Lemma split_sep_plain (s : str) : "/"%char ∉ s → split_sep s = [s].
Proof.
  induction s as [|c s IH]; [done|]. intros Hs.
  apply not_elem_of_cons in Hs as [Hc Hs]. simpl.
  rewrite bool_decide_eq_false_2 by done. by rewrite IH.
Qed.

Lemma rfind_char_None (c : ascii) (s : str) :
  c ∉ s → rfind_char s c = None.
Proof.
  induction s as [|d s IH]; [done|]. intros Hs.
  apply not_elem_of_cons in Hs as [Hc Hs]. simpl.
  rewrite IH by done. by rewrite bool_decide_eq_false_2.
Qed.

Lemma rfind_char_app (c : ascii) (s t : str) :
  c ∉ t → rfind_char (s ++ c :: t) c = Some (length s).
Proof.
  intros Ht. induction s as [|d s IH]; simpl.
  - rewrite rfind_char_None by done. by rewrite bool_decide_eq_true_2.
  - by rewrite IH.
Qed.

Section root_file.
Context (stem ext : str).
Hypothesis stem_letters : forallb alnum stem = true.
Hypothesis ext_letters : forallb alnum ext = true.
Hypothesis stem_not_empty : stem ≠ [].
Hypothesis ext_not_empty : ext ≠ [].

Lemma root_file_parts : path_parts (stem ++ "." ++ ext) = [stem ++ "." ++ ext].
Proof.
  unfold path_parts. rewrite split_sep_plain.
  - rewrite filter_cons, decide_True; [done|]. split.
    + destruct stem; [done|]. done.
    + destruct stem as [|c [|d s]]; [done| |done].
      destruct ext; [done|]. done.
  - intros Hin. apply elem_of_app in Hin as [Hin|Hin].
    + by apply (alnum_not_in "/" stem) in Hin; [|left|].
    + apply elem_of_cons in Hin as [Hin|Hin]; [discriminate|].
      by apply (alnum_not_in "/" ext) in Hin; [|left|].
Qed.

Lemma root_file_name : path_name (stem ++ "." ++ ext) = stem ++ "." ++ ext.
Proof. unfold path_name. by rewrite root_file_parts. Qed.

Lemma root_file_suffix_at :
  suffix_at (stem ++ "." ++ ext) = Some (length stem).
Proof.
  unfold suffix_at.
  change (stem ++ "." ++ ext) with (stem ++ "."%char :: ext).
  rewrite rfind_char_app by (apply alnum_not_in; [by right|done]).
  rewrite length_app. cbn [length].
  assert (0 < length stem) by (destruct stem; [done|simpl; lia]).
  assert (0 < length ext) by (destruct ext; [done|simpl; lia]).
  rewrite (proj2 (Nat.ltb_lt 0 (length stem))) by done.
  rewrite (proj2 (Nat.ltb_lt _ _)) by lia. done.
Qed.

Lemma root_file_pattern (contents : str) :
  _search_reference (stem ++ "." ++ ext) contents false
  = regex_search true (nonstrict_pattern stem ext) contents.
Proof.
  unfold _search_reference, path_stem, path_suffix, parent_names.
  rewrite root_file_name, root_file_parts. cbn [length Nat.sub take foldl].
  rewrite root_file_suffix_at.
  change (stem ++ "." ++ ext) with (stem ++ "."%char :: ext).
  rewrite take_app_length, drop_app_length.
  change (regex_escape ("."%char :: ext)) with ("\." ++ regex_escape ext).
  rewrite (regex_escape_alnum stem), (regex_escape_alnum ext) by done.
  rewrite bool_decide_eq_false_2 by done.
  change (regex_escape []) with (@nil ascii).
  f_equal. unfold nonstrict_pattern, sep.
  cbn [app]. rewrite <- !(assoc_L (++)). cbn [app].
  rewrite <- ?(assoc_L (++)). cbn [app]. done.
Qed.

(** *** Its reading *)

Lemma read_nonstrict_head :
  read start_state "\{[\s%]*(./)?(/)?"
  = Some (PState (MNormal true)
            (Frame GTop []
               [Alt (Seq (lit "/"%char) Eps) Eps;
                Alt (Seq (Chr Dot) (Seq (lit "/"%char) Eps)) Eps;
                blank_re; lit "{"%char])
            []).
Proof. reflexivity. Qed.

Lemma read_nonstrict_open (atoms : list re) :
  read (PState (MNormal false) (Frame GTop [] atoms) []) "(\."
  = Some (PState (MNormal false) (Frame GGroup [] [lit "."%char])
                 [Frame GTop [] atoms]).
Proof. reflexivity. Qed.

Lemma read_nonstrict_tail (atoms inner : list re) :
  read (PState (MNormal false) (Frame GGroup [] inner) [Frame GTop [] atoms])
       ")?[\s%]*\}"
  = Some (PState (MNormal false)
            (Frame GTop []
               (lit "}"%char :: blank_re
                :: Alt (seq_of (reverse inner)) Eps :: atoms))
            []).
Proof. reflexivity. Qed.

Lemma nonstrict_pattern_eq (s e : str) :
  nonstrict_pattern s e
  = "\{[\s%]*(./)?(/)?" ++ s ++ "(\." ++ e ++ ")?[\s%]*\}".
Proof. reflexivity. Qed.

Lemma compile_nonstrict :
  compile (nonstrict_pattern stem ext) = Some (nonstrict_re stem ext).
Proof.
  pose proof (forallb_alnum_plain stem stem_letters) as Hstem.
  pose proof (forallb_alnum_plain ext ext_letters) as Hext.
  destruct stem as [|c stem'] eqn:Estem; [done|].
  simpl in Hstem. apply andb_true_iff in Hstem as [Hc Hstem'].
  unfold compile. rewrite nonstrict_pattern_eq.
  rewrite read_app, read_nonstrict_head.
  cbn [mbind option_bind app read].
  unfold step at 1. cbn [p_mode]. rewrite step_normal_plain by done.
  cbn [mbind option_bind].
  unfold emit, push_atom. cbn [p_cur p_stack f_kind f_alts f_seq].
  rewrite read_app, (read_plain stem' _ false) by done.
  cbn [mbind option_bind].
  rewrite foldl_emit.
  change ("("%char :: "\"%char :: "."%char :: ext ++ ")?[\s%]*\}")
    with ("(\." ++ ext ++ ")?[\s%]*\}").
  rewrite read_app, read_nonstrict_open.
  cbn [mbind option_bind].
  rewrite read_app, (read_plain ext _ false) by done.
  cbn [mbind option_bind].
  rewrite foldl_emit, read_nonstrict_tail.
  cbn [mbind option_bind p_mode p_stack p_cur].
  unfold close_frame. cbn [f_alts f_seq].
  rewrite reverse_singleton. cbn [alt_of].
  unfold nonstrict_re. f_equal. f_equal.
  rewrite !reverse_cons, !reverse_app, !reverse_cons, !reverse_involutive,
    !reverse_nil.
  cbn [app map]. rewrite <- !(assoc_L (++)). done.
Qed.

End root_file.

(** *** Matching, whatever the case of the letters *)

Lemma m_literals_folded (depth : nat) (whole : re) (rest : list re)
  (k : pos → option pos) (s : str) :
  ∀ s' b a,
    map lower s' = map lower s →
    m true depth whole (seq_of (map lit s ++ rest)) k (b, s' ++ a)
    = m true depth whole (seq_of rest) k (reverse s' ++ b, a).
Proof.
  induction s as [|c s IH]; intros [|c' s'] b a Hs; try done.
  injection Hs as Hc Hs.
  cbn [map app]. rewrite m_seq_of_cons. unfold lit at 1. rewrite m_eq.
  cbn [in_cset in_item]. rewrite bool_decide_eq_true_2 by done.
  rewrite IH by done. by rewrite reverse_cons, <- (assoc_L (++)).
Qed.

Lemma m_literal_here (depth : nat) (whole : re) (c : ascii) (l : list re)
  (k : pos → option pos) (b a : list ascii) :
  m true depth whole (seq_of (lit c :: l)) k (b, c :: a)
  = m true depth whole (seq_of l) k (c :: b, a).
Proof.
  rewrite m_seq_of_cons. unfold lit. rewrite m_eq.
  cbn [in_cset in_item]. by rewrite bool_decide_eq_true_2.
Qed.

Lemma m_blank_skip (depth : nat) (whole : re) (l : list re)
  (k : pos → option pos) (b a : list ascii) :
  is_Some (m true depth whole (seq_of l) k (b, a)) →
  is_Some (m true depth whole (seq_of (blank_re :: l)) k (b, a)).
Proof.
  intros H. rewrite m_seq_of_cons. unfold blank_re. rewrite m_star_class.
  by apply star_class_skip.
Qed.

Lemma m_optional_skip (depth : nat) (whole x : re) (l : list re)
  (k : pos → option pos) (p0 : pos) :
  is_Some (m true depth whole (seq_of l) k p0) →
  is_Some (m true depth whole (seq_of (Alt x Eps :: l)) k p0).
Proof.
  intros H. rewrite m_seq_of_cons, (m_eq _ _ _ (Alt _ _)).
  destruct (m true depth whole x _ p0); [done|]. by rewrite (m_eq _ _ _ Eps).
Qed.

Lemma m_optional_take (depth : nat) (whole x : re) (l : list re)
  (k : pos → option pos) (p0 : pos) :
  is_Some (m true depth whole x (m true depth whole (seq_of l) k) p0) →
  is_Some (m true depth whole (seq_of (Alt x Eps :: l)) k p0).
Proof.
  intros [q H]. rewrite m_seq_of_cons, (m_eq _ _ _ (Alt _ _)), H. done.
Qed.

Lemma m_nonstrict_end (depth : nat) (whole : re) (b after : list ascii) :
  is_Some (m true depth whole (seq_of [blank_re; lit "}"%char]) Some
             (b, "}"%char :: after)).
Proof.
  apply m_blank_skip. rewrite m_literal_here.
  cbn [seq_of foldr]. by rewrite m_eq.
Qed.

Lemma match_at_nonstrict (stem ext stem' ext' b after : str) :
  map lower stem' = map lower stem → map lower ext' = map lower ext →
  is_Some (match_at true (nonstrict_re stem ext)
                    (b, "{" ++ stem' ++ "}" ++ after)) ∧
  is_Some (match_at true (nonstrict_re stem ext)
                    (b, "{" ++ stem' ++ "." ++ ext' ++ "}" ++ after)).
Proof.
  intros Hstem Hext. unfold match_at, nonstrict_re. cbn [snd app].
  rewrite !m_literal_here.
  split.
  - apply m_blank_skip. do 2 apply m_optional_skip.
    rewrite m_literals_folded by done.
    apply m_optional_skip, m_nonstrict_end.
  - apply m_blank_skip. do 2 apply m_optional_skip.
    rewrite m_literals_folded by done.
    apply m_optional_take.
    change ("."%char :: ext' ++ "}"%char :: after)
      with (("."%char :: ext') ++ "}"%char :: after).
    rewrite <- (app_nil_r (map lit ext)).
    change (lit "."%char :: map lit ext ++ [])
      with (map lit ("."%char :: ext) ++ []).
    rewrite m_literals_folded by (simpl; by rewrite Hext).
    cbn [seq_of foldr]. rewrite (m_eq _ _ _ Eps).
    apply m_nonstrict_end.
Qed.

(** X24.  A file [stem.ext] in the root, stem and extension made of
    letters and digits, is kept by the search that is not strict when the
    contents hold [{stem}] or [{stem.ext}] anywhere, in any case of the
    letters. *)
Theorem keep_only_referenced_root_file
  (stem ext stem' ext' before after : str) :
  stem ≠ [] → ext ≠ [] →
  forallb alnum stem = true → forallb alnum ext = true →
  map lower stem' = map lower stem → map lower ext' = map lower ext →
  _keep_only_referenced [stem ++ "." ++ ext]
                        (before ++ "{" ++ stem' ++ "}" ++ after) false
  = Some [stem ++ "." ++ ext] ∧
  _keep_only_referenced [stem ++ "." ++ ext]
                        (before ++ "{" ++ stem' ++ "." ++ ext' ++ "}" ++ after)
                        false
  = Some [stem ++ "." ++ ext].
Proof.
  intros Hstem0 Hext0 Hstem Hext Hstem' Hext'.
  destruct (match_at_nonstrict stem ext stem' ext' (reverse before ++ [])
              after Hstem' Hext') as [Hshort Hlong].
  unfold _keep_only_referenced. cbn [foldr].
  rewrite !root_file_pattern by done.
  unfold regex_search. rewrite compile_nonstrict by done.
  cbn [mbind option_bind].
  split; (rewrite bool_decide_eq_true_2; [done|]);
    apply search_from_is_Some; exists before; eexists; (split; [done|]);
    done.
Qed.

Lemma keep_only_referenced_root_file_witness :
  _keep_only_referenced ["fig1" ++ "." ++ "pdf"]
    ("\includegraphics[width=2cm]" ++ "{" ++ "Fig1" ++ "}" ++ " text") false
  = Some ["fig1" ++ "." ++ "pdf"] ∧
  _keep_only_referenced ["fig1" ++ "." ++ "pdf"]
    ("\includegraphics[width=2cm]" ++ "{" ++ "Fig1" ++ "." ++ "PDF" ++ "}"
     ++ " text") false
  = Some ["fig1" ++ "." ++ "pdf"].
Proof.
  by apply (keep_only_referenced_root_file "fig1" "pdf" "Fig1" "PDF"
              "\includegraphics[width=2cm]" " text").
Defined.

(** ** The strict search *)

Lemma strict_search_pattern (filename contents : str) :
  _search_reference filename contents true
  = regex_search true (strict_pattern filename) contents.
Proof.
  unfold _search_reference, strict_pattern, sep. by f_equal.
Qed.

Lemma escape_dots_cons (c : ascii) (s : str) :
  escape_dots (c :: s)
  = (if bool_decide (c = "."%char) then "\." else [c]) ++ escape_dots s.
Proof. done. Qed.

Lemma read_path_char (st : pstate) (q : bool) (c : ascii) (rest : str) :
  p_mode st = MNormal q → path_char c = true →
  read st ((if bool_decide (c = "."%char) then "\." else [c]) ++ rest)
  = read (emit (lit c) st) rest.
Proof.
  intros Hmode Hc. case_bool_decide as Hdot.
  - subst c. destruct st as [md cur stack]. simpl in Hmode. subst md.
    reflexivity.
  - unfold path_char in Hc. rewrite (bool_decide_eq_false_2 _ Hdot) in Hc.
    rewrite orb_false_r in Hc.
    cbn [app read]. unfold step. rewrite Hmode, step_normal_plain by done.
    done.
Qed.

Lemma read_escape_dots (s rest : str) :
  ∀ st q,
    p_mode st = MNormal q → forallb path_char s = true →
    read st (escape_dots s ++ rest)
    = read (foldl (λ st c, emit (lit c) st) st s) rest.
Proof.
  induction s as [|c s IH]; intros st q Hmode Hs; [done|].
  simpl in Hs. apply andb_true_iff in Hs as [Hc Hs].
  rewrite escape_dots_cons, <- (assoc_L (++)).
  rewrite (read_path_char st q) by done.
  by rewrite (IH _ false).
Qed.

Lemma read_strict_head :
  read start_state "(\{)?[\s%]*(./)?"
  = Some (PState (MNormal true)
            (Frame GTop []
               [Alt (Seq (Chr Dot) (Seq (lit "/"%char) Eps)) Eps;
                blank_re; Alt (Seq (lit "{"%char) Eps) Eps])
            []).
Proof. reflexivity. Qed.

Lemma read_strict_tail (atoms : list re) :
  read (PState (MNormal false) (Frame GTop [] atoms) []) "[\s%]*(\})?"
  = Some (PState (MNormal true)
            (Frame GTop []
               (Alt (Seq (lit "}"%char) Eps) Eps :: blank_re :: atoms))
            []).
Proof. reflexivity. Qed.

Lemma compile_strict (c : ascii) (s : str) :
  forallb path_char (c :: s) = true →
  compile (strict_pattern (c :: s)) = Some (strict_re (c :: s)).
Proof.
  intros Hs. unfold compile.
  assert (strict_pattern (c :: s)
          = "(\{)?[\s%]*(./)?" ++ escape_dots (c :: s) ++ "[\s%]*(\})?")
    as -> by reflexivity.
  rewrite read_app, read_strict_head. cbn [mbind option_bind].
  rewrite (read_escape_dots _ _ _ true) by done.
  cbn [foldl]. unfold emit at 2, push_atom.
  cbn [p_cur p_stack f_kind f_alts f_seq].
  rewrite foldl_emit, read_strict_tail.
  cbn [mbind option_bind p_mode p_stack p_cur].
  unfold close_frame. cbn [f_alts f_seq].
  rewrite reverse_singleton. cbn [alt_of].
  unfold strict_re. f_equal. f_equal.
  rewrite !reverse_cons, !reverse_app, !reverse_cons, !reverse_involutive,
    !reverse_nil.
  cbn [app map]. rewrite <- !(assoc_L (++)). done.
Qed.

Lemma match_at_strict (filename filename' b after : str) :
  map lower filename' = map lower filename →
  is_Some (match_at true (strict_re filename) (b, filename' ++ after)).
Proof.
  intros Hname. unfold match_at, strict_re. cbn [snd app].
  apply m_optional_skip, m_blank_skip, m_optional_skip.
  rewrite m_literals_folded by done.
  apply m_blank_skip, m_optional_skip.
  cbn [seq_of foldr]. by rewrite m_eq.
Qed.

Lemma m_literals_folded_inv (depth : nat) (whole : re) (rest : list re)
  (k : pos → option pos) (s : str) :
  ∀ b a,
    is_Some (m true depth whole (seq_of (map lit s ++ rest)) k (b, a)) →
    ∃ s' a', a = s' ++ a' ∧ map lower s' = map lower s.
Proof.
  induction s as [|c s IH]; intros b a H.
  - by exists [], a.
  - cbn [map app] in H. rewrite m_seq_of_cons in H. unfold lit at 1 in H.
    rewrite m_eq in H. destruct a as [|c' a]; [by apply is_Some_None in H|].
    cbn [in_cset in_item] in H. case_bool_decide as Hc;
      [|by apply is_Some_None in H].
    apply IH in H as (s' & a' & -> & Hs').
    exists (c' :: s'), a'. split; [done|]. simpl. by rewrite Hc, Hs'.
Qed.

Lemma m_seq_of_forward (ic : bool) (depth : nat) (whole x : re)
  (l : list re) (k : pos → option pos) (p0 : pos) :
  is_Some (m ic depth whole (seq_of (x :: l)) k p0) →
  ∃ q, reaches p0 q ∧ is_Some (m ic depth whole (seq_of l) k q).
Proof.
  intros [res H]. rewrite m_seq_of_cons in H.
  apply m_forward in H as (q & Hq & H). exists q. split; [done|by eexists].
Qed.

Lemma match_at_strict_inv (filename b a : str) :
  is_Some (match_at true (strict_re filename) (b, a)) →
  ∃ before filename' after,
    a = before ++ filename' ++ after ∧ map lower filename' = map lower filename.
Proof.
  unfold match_at, strict_re. cbn [snd app]. intros H.
  apply m_seq_of_forward in H as (q1 & Hq1 & H).
  apply m_seq_of_forward in H as (q2 & Hq2 & H).
  apply m_seq_of_forward in H as (q3 & Hq3 & H).
  destruct (reaches_trans _ _ _ (reaches_trans _ _ _ Hq1 Hq2) Hq3)
    as (before & _ & Hbefore).
  destruct q3 as [b3 a3].
  apply m_literals_folded_inv in H as (filename' & after & -> & Hname).
  exists before, filename', after. done.
Qed.

(** X25.  The strict search is a search for the path in any case of the
    letters: a file whose path is made of dots and of characters that
    stand for themselves in a pattern is kept exactly when the contents
    hold the path somewhere, with or without braces around it, the case of
    the letters set aside. *)
Theorem keep_only_referenced_strict (c : ascii) (filename contents : str) :
  forallb path_char (c :: filename) = true →
  _keep_only_referenced [c :: filename] contents true = Some [c :: filename]
  ↔ ∃ before filename' after,
      contents = before ++ filename' ++ after ∧
      map lower filename' = map lower (c :: filename).
Proof.
  intros Hchars.
  unfold _keep_only_referenced. cbn [foldr].
  rewrite strict_search_pattern.
  unfold regex_search. rewrite compile_strict by done.
  cbn [mbind option_bind]. split.
  - case_bool_decide as Hfound; [intros _|done].
    apply search_from_is_Some in Hfound as (before0 & a' & -> & Hmatch).
    apply match_at_strict_inv in Hmatch
      as (before & filename' & after & -> & Hname).
    exists (before0 ++ before), filename', after.
    by rewrite <- !(assoc_L (++)).
  - intros (before & filename' & after & -> & Hname).
    rewrite bool_decide_eq_true_2; [done|].
    apply search_from_is_Some. exists before, (filename' ++ after).
    split; [done|]. by apply match_at_strict.
Qed.

Lemma keep_only_referenced_strict_witness :
  _keep_only_referenced ["plots/fig.pdf"] "<Plots/Fig.PDF, id=1, page=1>" true
  = Some ["plots/fig.pdf"]
  ↔ ∃ before filename' after,
      "<Plots/Fig.PDF, id=1, page=1>" = before ++ filename' ++ after ∧
      map lower filename' = map lower "plots/fig.pdf".
Proof.
  by apply (keep_only_referenced_strict "p" "lots/fig.pdf"
              "<Plots/Fig.PDF, id=1, page=1>").
Defined.

(** ** The reference closure *)

Section closure.
Context (contents : gmap str (list str)).

Lemma for_referenced_Some (fn : str) (referenced : list str)
  (next : gset str) :
  Forall (λ fn2, is_Some (mentions contents fn fn2)) referenced →
  ∃ next', for_referenced contents fn referenced next = Some next' ∧
           ∀ x, x ∈ next' ↔ x ∈ next ∨ (x = fn ∧ hit contents fn referenced).
Proof.
  intros Hdef. revert next.
  induction Hdef as [|fn2 rest [b Hb] _ IH]; intros next; simpl.
  - exists next. split; [done|]. intros x. unfold hit.
    rewrite Exists_nil. naive_solver.
  - rewrite Hb. simpl.
    destruct (IH (if b then {[fn]} ∪ next else next)) as (next' & -> & Hnext').
    exists next'. split; [done|]. intros x. rewrite Hnext'. unfold hit.
    rewrite Exists_cons, Hb. destruct b; set_solver.
Qed.

Lemma for_referenced_None (fn : str) (referenced : list str)
  (next : gset str) :
  Exists (λ fn2, mentions contents fn fn2 = None) referenced →
  for_referenced contents fn referenced next = None.
Proof.
  intros Hex. revert next.
  induction Hex as [fn2 rest Hnone|fn2 rest _ IH]; intros next; simpl.
  - by rewrite Hnone.
  - destruct (mentions contents fn fn2); simpl; [apply IH | done].
Qed.

Lemma for_old_referenced_Some (old_referenced referenced : list str)
  (next : gset str) :
  defined_on contents old_referenced referenced →
  ∃ next', for_old_referenced contents old_referenced referenced next
             = Some next' ∧
           ∀ x, x ∈ next' ↔
                x ∈ next ∨ (x ∈ old_referenced ∧ hit contents x referenced).
Proof.
  intros Hdef. revert next.
  induction Hdef as [|fn rest Hfn _ IH]; intros next; simpl.
  - exists next. split; [done|]. intros x. set_solver.
  - destruct (for_referenced_Some fn referenced next Hfn) as (n1 & -> & Hn1).
    simpl. destruct (IH n1) as (next' & -> & Hnext').
    exists next'. split; [done|]. intros x.
    rewrite Hnext', Hn1, elem_of_cons. naive_solver.
Qed.

Lemma for_old_referenced_None (old_referenced referenced : list str)
  (next : gset str) :
  ¬ defined_on contents old_referenced referenced →
  for_old_referenced contents old_referenced referenced next = None.
Proof.
  intros Hundef. apply not_Forall_Exists in Hundef; [|apply _].
  revert next.
  induction Hundef as [fn rest Hfn|fn rest _ IH]; intros next; simpl.
  - apply not_Forall_Exists in Hfn; [|apply _].
    rewrite for_referenced_None; [done|].
    eapply Exists_impl; [exact Hfn|]. simpl.
    intros fn2 H. destruct (mentions contents fn fn2); [|done].
    destruct H. by eexists.
  - destruct (for_referenced contents fn referenced next); simpl;
      [apply IH | done].
Qed.

Lemma defined_on_perm (l1 l1' l2 l2' : list str) :
  l1 ≡ₚ l1' → l2 ≡ₚ l2' → defined_on contents l1 l2 → defined_on contents l1' l2'.
Proof.
  unfold defined_on. intros H1 H2. rewrite !Forall_forall.
  intros Hdef fn Hfn. rewrite Forall_forall. intros fn2 Hfn2.
  rewrite <- H1 in Hfn. rewrite <- H2 in Hfn2.
  specialize (Hdef fn Hfn). rewrite Forall_forall in Hdef. by apply Hdef.
Qed.

Lemma hit_perm (fn : str) (l l' : list str) : l ≡ₚ l' → hit contents fn l → hit contents fn l'.
Proof.
  unfold hit. rewrite !Exists_exists. intros Hl (fn2 & Hin & H).
  exists fn2. by rewrite <- Hl.
Qed.

(** What a pass computes, whatever the order: it fails when a search
    fails; otherwise it adds the files that a referenced file mentions. *)
Lemma pass_spec (order : gset str → list str) (old_referenced referenced : gset str) :
  enumerates order →
  (defined_on contents (elements old_referenced) (elements referenced) ∧
   ∃ next, pass order contents old_referenced referenced = Some next ∧
           ∀ x, x ∈ next ↔
                x ∈ referenced ∨
                (x ∈ old_referenced ∧ hit contents x (elements referenced)))
  ∨ (¬ defined_on contents (elements old_referenced) (elements referenced) ∧
     pass order contents old_referenced referenced = None).
Proof.
  intros Horder. unfold pass.
  destruct (decide (defined_on contents (elements old_referenced) (elements referenced)))
    as [Hdef|Hundef].
  - left. split; [done|].
    destruct (for_old_referenced_Some (order old_referenced) (order referenced)
                referenced) as (next & Hnext & Hin).
    { eapply defined_on_perm; [symmetry; apply Horder..|done]. }
    exists next. split; [done|]. intros x. rewrite Hin.
    rewrite (Horder old_referenced), elem_of_elements.
    split; (intros [?|[? Hhit]]; [by left|right; split; [done|]]);
      (eapply hit_perm; [|exact Hhit]); [apply Horder|symmetry; apply Horder].
  - right. split; [done|]. apply for_old_referenced_None.
    intros Hdef. apply Hundef.
    eapply defined_on_perm; [apply Horder..|done].
Qed.

Lemma pass_order_independent (order order' : gset str → list str)
  (old_referenced referenced : gset str) :
  enumerates order → enumerates order' →
  pass order contents old_referenced referenced
  = pass order' contents old_referenced referenced.
Proof.
  intros H H'.
  destruct (pass_spec order old_referenced referenced H)
    as [(Hdef & next & -> & Hnext)|(Hundef & ->)];
  destruct (pass_spec order' old_referenced referenced H')
    as [(Hdef' & next' & -> & Hnext')|(Hundef' & ->)]; try done.
  f_equal. apply set_eq. intros x. by rewrite Hnext, Hnext'.
Qed.

Lemma closure_order_independent (order order' : gset str → list str)
  (passes : nat) (old_referenced referenced : gset str) :
  enumerates order → enumerates order' →
  closure passes order contents old_referenced referenced
  = closure passes order' contents old_referenced referenced.
Proof.
  intros H H'. revert referenced.
  induction passes as [|passes IH]; intros referenced; simpl; [done|].
  rewrite (pass_order_independent order order' _ _ H H').
  destruct (pass order' contents old_referenced referenced); [|done].
  case_bool_decide; [done|apply IH].
Qed.

End closure.

(** X1.  The set of files returned by the reference closure is the same
    whatever the order in which the sets of files are iterated, and
    whatever the order in which the files are listed. *)
Theorem keep_only_referenced_tex_order_independent
  (passes : nat) (order order' : gset str → list str)
  (contents : gmap str (list str)) (sp sp' : splits)
  (start_with : option str) :
  enumerates order → enumerates order' →
  tex_in_root sp ≡ₚ tex_in_root sp' →
  tex_not_in_root sp ≡ₚ tex_not_in_root sp' →
  required_set (_keep_only_referenced_tex passes order contents sp start_with)
  = required_set
      (_keep_only_referenced_tex passes order' contents sp' start_with).
Proof.
  intros H H' Hroot Hnot. unfold _keep_only_referenced_tex, required_set.
  assert (list_to_set (tex_in_root sp ++ tex_not_in_root sp)
          = (list_to_set (tex_in_root sp' ++ tex_not_in_root sp') : gset str))
    as ->.
  { apply set_eq. intros x. rewrite !elem_of_list_to_set, !elem_of_app.
    by rewrite Hroot, Hnot. }
  assert (list_to_set (tex_in_root sp)
          = (list_to_set (tex_in_root sp') : gset str)) as Hstart.
  { apply set_eq. intros x. by rewrite !elem_of_list_to_set, Hroot. }
  rewrite (closure_order_independent contents order order' _ _ _ H H').
  destruct start_with; [|rewrite Hstart];
    (destruct (closure _ _ _ _ _) as [R| |]; simpl; [|done..]; f_equal;
     apply set_eq; intros x;
     by rewrite !elem_of_list_to_set, (H R), (H' R)).
Qed.

Lemma keep_only_referenced_tex_order_independent_witness :
  required_set
    (_keep_only_referenced_tex 3 elements example_contents example_splits
                               (Some "main.tex"))
  = required_set
      (_keep_only_referenced_tex 3 (λ X, reverse (elements X))
         example_contents
         (Splits ["main.tex"] ["b.tex"; "a.tex"; "c.tex"] [])
         (Some "main.tex")).
Proof.
  apply (keep_only_referenced_tex_order_independent 3 elements
           (λ X, reverse (elements X)) example_contents example_splits
           (Splits ["main.tex"] ["b.tex"; "a.tex"; "c.tex"] [])
           (Some "main.tex")).
  - intros X. reflexivity.
  - intros X. apply reverse_Permutation.
  - reflexivity.
  - apply perm_swap.
Defined.

Section termination.
Context (contents : gmap str (list str)) (order : gset str → list str).
Context (files : gset str).
Hypothesis order_enumerates : enumerates order.
Hypothesis searches_defined :
  ∀ fn fn2, fn ∈ files → fn2 ∈ files → is_Some (mentions contents fn fn2).

Lemma defined_on_files (referenced : gset str) :
  referenced ⊆ files →
  defined_on contents (elements files) (elements referenced).
Proof.
  intros Hsub. unfold defined_on. rewrite Forall_forall. intros fn Hfn.
  rewrite Forall_forall. intros fn2 Hfn2.
  rewrite elem_of_elements in Hfn, Hfn2. apply searches_defined; set_solver.
Qed.

(** A pass over referenced files returns, and the set only grows, within
    the files. *)
Lemma pass_grows (referenced : gset str) :
  referenced ⊆ files →
  ∃ next, pass order contents files referenced = Some next ∧
          referenced ⊆ next ∧ next ⊆ files.
Proof.
  intros Hsub.
  destruct (pass_spec contents order files referenced order_enumerates)
    as [(_ & next & Hpass & Hnext)|(Hundef & _)].
  - exists next. split; [done|].
    split; intros x; rewrite Hnext; [by left | set_solver].
  - destruct Hundef. by apply defined_on_files.
Qed.

Lemma pass_empty : pass order contents files ∅ = Some ∅.
Proof.
  destruct (pass_spec contents order files ∅ order_enumerates)
    as [(_ & next & -> & Hnext)|(Hundef & _)].
  - f_equal. apply set_eq. intros x. rewrite Hnext, elements_empty.
    unfold hit. rewrite Exists_nil. set_solver.
  - destruct Hundef. apply defined_on_files. set_solver.
Qed.

(** The loop returns once the passes allowed exceed the number of files
    not yet referenced; what it returns is stable under a further pass. *)
Lemma closure_returns (d : nat) :
  ∀ referenced,
    referenced ⊆ files → size (files ∖ referenced) ≤ d →
    ∃ final,
      (∀ passes, d < passes →
                 closure passes order contents files referenced
                 = Returns final) ∧
      pass order contents files final = Some final ∧
      referenced ⊆ final ∧ final ⊆ files.
Proof.
  induction d as [|d IH]; intros referenced Hsub Hsize;
    destruct (pass_grows referenced Hsub) as (next & Hpass & Hle & Hnext).
  - assert (referenced = next) as <-.
    { apply set_eq. intros x. split; [set_solver|]. intros Hx.
      destruct (decide (x ∈ referenced)) as [|Hnot]; [done|].
      assert (files ∖ referenced = ∅) as Hempty
        by (apply leibniz_equiv, size_empty_iff; lia).
      assert (x ∈ files ∖ referenced) as Hin by set_solver.
      rewrite Hempty in Hin. set_solver. }
    exists referenced. split_and!; [|done..].
    intros [|passes] ?; [lia|]. simpl. rewrite Hpass.
    by rewrite bool_decide_eq_true_2.
  - destruct (decide (referenced = next)) as [<-|Hne].
    + exists referenced. split_and!; [|done..].
      intros [|passes] ?; [lia|]. simpl. rewrite Hpass.
      by rewrite bool_decide_eq_true_2.
    + destruct (IH next Hnext) as (final & Hfinal & Hstable & Hsub' & Hin).
      { assert (files ∖ next ⊂ files ∖ referenced) as Hlt.
        { assert (∃ x, x ∈ next ∧ x ∉ referenced) as (x & Hx & Hnx).
          { destruct (set_choose_L (next ∖ referenced)) as [x Hx].
            - intros Hempty. apply Hne. apply set_eq. intros x.
              split; [set_solver|]. intros Hx.
              destruct (decide (x ∈ referenced)); [done|].
              assert (x ∈ next ∖ referenced) as Hd by set_solver.
              rewrite Hempty in Hd. set_solver.
            - exists x. set_solver. }
          split; [set_solver|]. intros Hback.
          assert (x ∈ files ∖ referenced) as Hd by set_solver.
          apply Hback in Hd. set_solver. }
        apply subset_size in Hlt. lia. }
      exists final. split_and!; [|done|set_solver|done].
      intros [|passes] ?; [lia|]. simpl. rewrite Hpass.
      rewrite bool_decide_eq_false_2 by done. apply Hfinal. lia.
Qed.

(** With a start inside a non-empty set of files, as many passes as there
    are files are enough. *)
Lemma closure_within_files (referenced : gset str) :
  referenced ⊆ files → files ≠ ∅ →
  ∃ final,
    (∀ passes, size files ≤ passes →
               closure passes order contents files referenced
               = Returns final) ∧
    pass order contents files final = Some final ∧
    referenced ⊆ final ∧ final ⊆ files.
Proof.
  intros Hsub Hfiles.
  assert (0 < size files) as Hpos.
  { destruct (decide (size files = 0)) as [H0|]; [|lia].
    apply size_empty_iff, leibniz_equiv in H0. done. }
  destruct (decide (referenced = ∅)) as [->|Hne].
  - exists ∅. split_and!; [|apply pass_empty|done..].
    intros [|passes] ?; [lia|]. simpl. rewrite pass_empty.
    by rewrite bool_decide_eq_true_2.
  - destruct (closure_returns (size files - 1) referenced Hsub)
      as (final & Hfinal & Hrest).
    { rewrite size_difference by done.
      assert (0 < size referenced).
      { destruct (decide (size referenced = 0)) as [H0|]; [|lia].
        apply size_empty_iff, leibniz_equiv in H0. done. }
      lia. }
    exists final. split; [|done]. intros passes ?. apply Hfinal. lia.
Qed.

End termination.

(** X2.  When the search of every file in every file is defined and the
    entry file is one of the files, a pass only adds files to the set of
    referenced files, and the loop returns within as many passes as there
    are files, with a set that a further pass leaves as it is. *)
Theorem keep_only_referenced_tex_terminates
  (order : gset str → list str) (contents : gmap str (list str))
  (sp : splits) (start_with : option str) (files : gset str) :
  files = list_to_set (tex_in_root sp ++ tex_not_in_root sp) →
  enumerates order →
  (∀ fn fn2, fn ∈ files → fn2 ∈ files → is_Some (mentions contents fn fn2)) →
  match start_with with
  | Some fn => fn ∈ files
  | None => files ≠ ∅
  end →
  (∀ referenced, referenced ⊆ files →
     ∃ next, pass order contents files referenced = Some next ∧
             referenced ⊆ next ∧ next ⊆ files) ∧
  ∃ required,
    (∀ passes, size files ≤ passes →
       _keep_only_referenced_tex passes order contents sp start_with
       = Returns (Splits (tex_in_root sp) (tex_not_in_root sp)
                         (order required))) ∧
    pass order contents files required = Some required.
Proof.
  intros -> Horder Hdef Hstart. split.
  - intros referenced. by apply pass_grows.
  - set (files := list_to_set _) in *.
    set (referenced := match start_with with
                       | Some fn => {[fn]}
                       | None => list_to_set (tex_in_root sp)
                       end : gset str).
    assert (referenced ⊆ files ∧ files ≠ ∅) as [Hsub Hfiles].
    { subst referenced. destruct start_with as [fn|]; [split; set_solver|].
      split; [|done]. subst files. intros x.
      rewrite !elem_of_list_to_set, elem_of_app. by left. }
    destruct (closure_within_files contents order files Horder Hdef
                referenced Hsub Hfiles) as (final & Hfinal & Hstable & _).
    exists final. split; [|done]. intros passes Hpasses.
    unfold _keep_only_referenced_tex. fold files. fold referenced.
    by rewrite (Hfinal passes Hpasses).
Qed.

Lemma keep_only_referenced_tex_terminates_witness :
  (∀ referenced,
     referenced ⊆ known_files example_splits →
     ∃ next,
       pass elements example_contents (known_files example_splits) referenced
         = Some next ∧
       referenced ⊆ next ∧ next ⊆ known_files example_splits) ∧
  ∃ required,
    (∀ passes, size (known_files example_splits) ≤ passes →
       _keep_only_referenced_tex passes elements example_contents
                                 example_splits (Some "main.tex")
       = Returns (Splits (tex_in_root example_splits)
                         (tex_not_in_root example_splits)
                         (elements required))) ∧
    pass elements example_contents (known_files example_splits) required
      = Some required.
Proof.
  apply (keep_only_referenced_tex_terminates elements example_contents
           example_splits (Some "main.tex") (known_files example_splits)).
  - reflexivity.
  - intros X. reflexivity.
  - intros fn fn2 Hfn Hfn2.
    apply elem_of_list_to_set in Hfn, Hfn2. simpl in Hfn, Hfn2.
    repeat (apply elem_of_cons in Hfn as [->|Hfn]);
      try (by apply elem_of_nil in Hfn);
      repeat (apply elem_of_cons in Hfn2 as [->|Hfn2]);
      try (by apply elem_of_nil in Hfn2);
      vm_compute; by eexists.
  - apply elem_of_list_to_set. left.
Defined.

(** ** The pattern of a reference *)

Lemma read_reference_tail (atoms : list re) (top : frame) :
  read (PState (MNormal false) (Frame GGroup [] atoms) [top]) "[.}])"
  = Some (PState (MNormal false)
            (push_atom
               (seq_of (reverse
                  (Chr (Among false [IChar "."%char; IChar "}"%char]) :: atoms)))
               top) []).
Proof. reflexivity. Qed.

Lemma compile_reference (stem : str) :
  forallb plain stem = true →
  compile ("(?<!\w)(" ++ stem ++ "[.}])") = Some (reference_re stem).
Proof.
  intros Hplain. destruct stem as [|c stem]; [reflexivity|].
  simpl in Hplain. apply andb_true_iff in Hplain as [Hc Hstem].
  unfold compile.
  rewrite read_app.
  set (st0 := read start_state "(?<!\w)("). vm_compute in st0. subst st0.
  cbn [mbind option_bind app read].
  assert (c ≠ "?"%char) as Hq.
  { intros ->. discriminate. }
  unfold step at 1. cbn [p_mode]. rewrite bool_decide_eq_false_2 by done.
  rewrite step_normal_plain by done. cbn [mbind option_bind].
  unfold open_group, emit, push_atom. cbn [p_cur p_stack f_kind f_alts f_seq].
  rewrite read_app, (read_plain stem _ false) by done.
  cbn [mbind option_bind].
  rewrite foldl_emit, read_reference_tail.
  cbn [mbind option_bind p_mode p_stack p_cur push_atom f_kind f_alts f_seq].
  unfold close_frame, push_atom. cbn [f_alts f_seq f_kind].
  rewrite reverse_singleton. cbn [alt_of].
  rewrite !reverse_cons, !reverse_app, !reverse_cons, reverse_involutive,
    !reverse_nil.
  unfold reference_re. cbn [seq_of foldr app map]. fold (lit c).
  done.
Qed.

Lemma m_stem_then_mark (depth : nat) (whole : re) (stem : str)
  (b a : list ascii) :
  is_Some (m false depth whole
             (Seq (seq_of (map lit stem
                           ++ [Chr (Among false [IChar "."%char; IChar "}"%char])]))
                  Eps) Some (b, a)) ↔
  ∃ c after, a = stem ++ c :: after ∧ (c = "."%char ∨ c = "}"%char).
Proof.
  rewrite m_eq, m_literals. cbn [seq_of foldr].
  split.
  - intros (a' & -> & H). rewrite m_one_char in H.
    destruct a' as [|c after]; [by destruct H|].
    exists c, after. split; [done|]. simpl in H.
    repeat case_bool_decide; auto. by destruct H.
  - intros (c & after & -> & Hc). exists (c :: after). split; [done|].
    rewrite m_one_char. simpl.
    destruct Hc as [-> | ->]; simpl; rewrite m_eq; by eexists.
Qed.

Lemma match_at_reference (stem : str) (b a : list ascii) :
  is_Some (match_at false (reference_re stem) (b, a)) ↔
  (∀ d, head b = Some d → re_word d = false) ∧
  ∃ c after, a = stem ++ c :: after ∧ (c = "."%char ∨ c = "}"%char).
Proof.
  unfold match_at, reference_re. cbn [snd].
  rewrite m_eq. rewrite (m_eq _ _ _ (Look _ _ _)), behind_one_char.
  destruct b as [|d b]; simpl.
  - rewrite m_stem_then_mark. naive_solver.
  - destruct (re_word d) eqn:Hd; simpl.
    + split; [intros H; by apply is_Some_None in H|].
      intros [H _]. specialize (H d eq_refl). congruence.
    + rewrite m_stem_then_mark. naive_solver.
Qed.

(** The search for a reference finds the stem where it stands bounded. *)
Lemma search_reference_re (stem text : str) :
  is_Some (search_from false (reference_re stem) [] text) ↔
  occurs_bounded stem text.
Proof.
  rewrite search_from_is_Some. unfold occurs_bounded. split.
  - intros (before & a' & -> & H). apply match_at_reference in H.
    destruct H as (Hword & c & after & -> & Hc).
    exists before, c, after. split_and!; [done..|].
    intros d Hd. apply Hword. by rewrite app_nil_r, head_reverse.
  - intros (before & c & after & -> & Hc & Hword).
    exists before, (stem ++ c :: after). split; [done|].
    apply match_at_reference. split; [|by exists c, after].
    intros d Hd. apply Hword. by rewrite app_nil_r, head_reverse in Hd.
Qed.

(** ** One pass of the reference closure *)

Lemma mentions_plain (contents : gmap str (list str)) (fn fn2 : str)
  (lines : list str) :
  forallb plain (splitext fn).1 = true →
  contents !! fn2 = Some lines →
  ∃ b, mentions contents fn fn2 = Some b ∧
       (b = true ↔ occurs_bounded (splitext fn).1 (join [nl] lines)).
Proof.
  intros Hplain Hlines. unfold mentions, reference_pattern, regex_search.
  rewrite Hlines, compile_reference by done. simpl.
  eexists. split; [done|].
  rewrite bool_decide_eq_true. apply search_reference_re.
Qed.

(** A file is not matched on its basename: [sections/intro.tex] is not
    added for a file that holds [\input{intro}], although [intro] stands
    there with no word character before it and [}] after it. *)
Lemma pass_ignores_basename :
  pass elements
       (<["main.tex" := ["\input{intro}"]]>
          (<["sections/intro.tex" := ["Introduction."]]> ∅))
       {["main.tex"; "sections/intro.tex"]} {["main.tex"]}
  = Some {["main.tex"]} ∧
  ("sections/intro.tex" ∉ ({["main.tex"]} : gset str)) ∧
  spec_basename "sections/intro.tex" = "intro" ∧
  occurs_bounded (spec_basename "sections/intro.tex")
                 (join [nl] ["\input{intro}"]).
Proof.
  split_and!.
  - vm_compute. reflexivity.
  - apply not_elem_of_singleton. discriminate.
  - reflexivity.
  - exists "\input{", "}"%char, []. split_and!; [reflexivity|by right|].
    intros d [= <-]. reflexivity.
Qed.

(** X4.  When the paths without extension of the files are made
    of plain characters and every referenced file has contents, one pass
    returns the referenced files and, of the known files, those whose path
    without extension, directories included, stands in the contents of a
    referenced file with no word character before it and [.] or [}] right
    after it. *)
Theorem pass_adds_mentioned (order : gset str → list str)
  (contents : gmap str (list str)) (files referenced : gset str) :
  enumerates order →
  (∀ fn, fn ∈ files → forallb plain (splitext fn).1 = true) →
  (∀ r, r ∈ referenced → is_Some (contents !! r)) →
  ∃ next,
    pass order contents files referenced = Some next ∧
    ∀ f, f ∈ next ↔
         f ∈ referenced ∨
         (f ∈ files ∧
          ∃ r lines, r ∈ referenced ∧ contents !! r = Some lines ∧
                     occurs_bounded (splitext f).1 (join [nl] lines)).
Proof.
  intros Horder Hplain Hcontents.
  destruct (pass_spec contents order files referenced Horder)
    as [(_ & next & Hpass & Hnext)|(Hundef & _)].
  - exists next. split; [done|]. intros f. rewrite Hnext.
    split; (intros [?|[Hf Hhit]]; [by left|right; split; [done|]]).
    + unfold hit in Hhit. apply Exists_exists in Hhit as (r & Hr & Hm).
      apply elem_of_elements in Hr.
      destruct (Hcontents r Hr) as [lines Hlines].
      destruct (mentions_plain contents f r lines (Hplain f Hf) Hlines)
        as (b & Hb & Hiff).
      exists r, lines. split_and!; [done..|]. apply Hiff. congruence.
    + destruct Hhit as (r & lines & Hr & Hlines & Hocc).
      apply Exists_exists. exists r. split; [by apply elem_of_elements|].
      destruct (mentions_plain contents f r lines (Hplain f Hf) Hlines)
        as (b & Hb & Hiff).
      apply Hiff in Hocc. by subst b.
  - destruct Hundef. unfold defined_on. rewrite Forall_forall. intros fn Hfn.
    rewrite Forall_forall. intros fn2 Hfn2.
    apply elem_of_elements in Hfn, Hfn2.
    destruct (Hcontents fn2 Hfn2) as [lines Hlines].
    destruct (mentions_plain contents fn fn2 lines (Hplain fn Hfn) Hlines)
      as (b & Hb & _).
    by eexists.
Qed.

Lemma pass_adds_mentioned_witness :
  ∃ next,
    pass elements
         (<["main.tex" := ["\input{sections/intro}"]]>
            (<["sections/intro.tex" := ["Introduction."]]> ∅))
         {["main.tex"; "sections/intro.tex"]} {["main.tex"]} = Some next ∧
    ∀ f, f ∈ next ↔
         f ∈ ({["main.tex"]} : gset str) ∨
         (f ∈ ({["main.tex"; "sections/intro.tex"]} : gset str) ∧
          ∃ r lines,
            r ∈ ({["main.tex"]} : gset str) ∧
            (<["main.tex" := ["\input{sections/intro}"]]>
               (<["sections/intro.tex" := ["Introduction."]]> ∅)
             : gmap str (list str)) !! r = Some lines ∧
            occurs_bounded (splitext f).1 (join [nl] lines)).
Proof.
  apply (pass_adds_mentioned elements).
  - intros X. reflexivity.
  - intros fn Hfn. apply elem_of_union in Hfn as [Hfn|Hfn];
      apply elem_of_singleton in Hfn; subst fn; vm_compute; reflexivity.
  - intros r Hr. apply elem_of_singleton in Hr. subst r.
    vm_compute. eexists. reflexivity.
Defined.

(** ** The reference closure: what the loop returns *)

Section least.
Context (contents : gmap str (list str)) (order : gset str → list str).
Context (files : gset str).
Hypothesis order_enumerates : enumerates order.

Lemma pass_next (referenced next : gset str) :
  pass order contents files referenced = Some next →
  ∀ x, x ∈ next ↔
       x ∈ referenced ∨ (x ∈ files ∧ hit contents x (elements referenced)).
Proof.
  intros Hpass.
  destruct (pass_spec contents order files referenced order_enumerates)
    as [(_ & next' & Hpass' & Hnext)|(_ & Hnone)]; [|congruence].
  rewrite Hpass in Hpass'. by injection Hpass' as <-.
Qed.

Lemma hit_elements (fn : str) (S : gset str) :
  hit contents fn (elements S)
  ↔ ∃ fn2, fn2 ∈ S ∧ mentions contents fn fn2 = Some true.
Proof.
  unfold hit. rewrite Exists_exists.
  split; intros (fn2 & H1 & H2); exists fn2; split; try done;
    by apply elem_of_elements.
Qed.

Lemma pass_stable_closed (R : gset str) :
  pass order contents files R = Some R → closed contents files R.
Proof.
  intros Hpass fn fn2 Hfn Hfn2 Hm.
  apply (pass_next R R Hpass). right. split; [done|].
  apply hit_elements. by exists fn2.
Qed.

Lemma pass_within_closed (referenced next S : gset str) :
  pass order contents files referenced = Some next →
  closed contents files S → referenced ⊆ S → next ⊆ S.
Proof.
  intros Hpass Hclosed Hsub x Hx.
  apply (pass_next _ _ Hpass) in Hx as [Hx|[Hx Hhit]]; [by apply Hsub|].
  apply hit_elements in Hhit as (fn2 & Hfn2 & Hm).
  apply (Hclosed x fn2); [done|by apply Hsub|done].
Qed.

Lemma closure_least (passes : nat) :
  ∀ referenced R,
    closure passes order contents files referenced = Returns R →
    referenced ⊆ R ∧ closed contents files R ∧
    ∀ S, referenced ⊆ S → closed contents files S → R ⊆ S.
Proof.
  induction passes as [|passes IH]; intros referenced R; simpl; [done|].
  destruct (pass order contents files referenced) as [next|] eqn:Hpass;
    [|done].
  case_bool_decide as Heq.
  - intros [= <-]. subst next. split_and!; [done| |done].
    by apply pass_stable_closed.
  - intros HR. destruct (IH next R HR) as (Hsub & Hclosed & Hleast).
    assert (referenced ⊆ next) as Hgrow.
    { intros x Hx. apply (pass_next _ _ Hpass). by left. }
    split_and!; [set_solver|done|].
    intros S HS HSclosed. apply Hleast; [|done].
    by apply (pass_within_closed referenced).
Qed.

End least.

(** X3.  When the loop returns, the files listed under [tex_to_copy] are the
    least set that holds the files the loop starts from and is closed under
    references: the start files are in it, a known file mentioned by one of
    its files is in it, and every set with these two properties holds all
    of it. *)
Theorem keep_only_referenced_tex_least (passes : nat)
  (order : gset str → list str) (contents : gmap str (list str))
  (sp sp' : splits) (start_with : option str) :
  enumerates order →
  _keep_only_referenced_tex passes order contents sp start_with = Returns sp' →
  start_set sp start_with ⊆ list_to_set (tex_to_copy sp') ∧
  closed contents (known_files sp) (list_to_set (tex_to_copy sp')) ∧
  ∀ S : gset str,
    start_set sp start_with ⊆ S → closed contents (known_files sp) S →
    list_to_set (tex_to_copy sp') ⊆ S.
Proof.
  intros Horder. unfold _keep_only_referenced_tex.
  fold (known_files sp). fold (start_set sp start_with).
  destruct (closure passes order contents (known_files sp)
              (start_set sp start_with)) as [R| |] eqn:Hclosure; [|done..].
  simpl. intros [= <-]. simpl.
  assert (list_to_set (order R) = R) as ->.
  { apply set_eq. intros x. by rewrite elem_of_list_to_set, (Horder R), elem_of_elements. }
  by apply (closure_least contents order (known_files sp) Horder passes).
Qed.

Lemma keep_only_referenced_tex_least_witness :
  start_set example_splits (Some "main.tex")
    ⊆ list_to_set (tex_to_copy
        (Splits ["main.tex"] ["a.tex"; "b.tex"; "c.tex"]
                ["main.tex"; "b.tex"; "a.tex"])) ∧
  closed example_contents (known_files example_splits)
         (list_to_set (tex_to_copy
            (Splits ["main.tex"] ["a.tex"; "b.tex"; "c.tex"]
                    ["main.tex"; "b.tex"; "a.tex"]))) ∧
  ∀ S : gset str,
    start_set example_splits (Some "main.tex") ⊆ S →
    closed example_contents (known_files example_splits) S →
    list_to_set (tex_to_copy
       (Splits ["main.tex"] ["a.tex"; "b.tex"; "c.tex"]
               ["main.tex"; "b.tex"; "a.tex"])) ⊆ S.
Proof.
  apply (keep_only_referenced_tex_least 3 elements example_contents
           example_splits
           (Splits ["main.tex"] ["a.tex"; "b.tex"; "c.tex"]
                   ["main.tex"; "b.tex"; "a.tex"])
           (Some "main.tex")).
  - intros X. reflexivity.
  - vm_compute. reflexivity.
Defined.

(** ** [_add_root_tex_files] *)

Lemma foldl_add_missing (root : list str) :
  ∀ to_copy,
    ∃ added,
      foldl add_missing to_copy root = to_copy ++ added ∧
      NoDup added ∧ sublist added root ∧
      ∀ fn, fn ∈ added ↔ fn ∈ root ∧ fn ∉ to_copy.
Proof.
  induction root as [|fn root IH]; intros to_copy; simpl.
  - exists []. rewrite app_nil_r. split_and!; [done|constructor|done|].
    intros fn. set_solver.
  - unfold add_missing at 2. case_bool_decide as Hin.
    + destruct (IH to_copy) as (added & -> & Hnodup & Hsub & Hadded).
      exists added. split_and!; [done|done|by apply sublist_cons|].
      intros x. rewrite Hadded, elem_of_cons. naive_solver.
    + destruct (IH (to_copy ++ [fn])) as (added & -> & Hnodup & Hsub & Hadded).
      exists (fn :: added). split_and!.
      * by rewrite <- (assoc_L (++)).
      * constructor; [|done]. rewrite Hadded. set_solver.
      * by apply sublist_skip.
      * intros x. rewrite !elem_of_cons, Hadded, elem_of_app, list_elem_of_singleton.
        destruct (decide (x = fn)) as [->|]; naive_solver.
Qed.

Lemma foldl_add_missing_present (root to_copy : list str) :
  (∀ fn, fn ∈ root → fn ∈ to_copy) →
  foldl add_missing to_copy root = to_copy.
Proof.
  intros Hall.
  destruct (foldl_add_missing root to_copy) as (added & -> & _ & _ & Hadded).
  destruct added as [|fn added]; [by rewrite app_nil_r|].
  assert (fn ∈ fn :: added) as Hfn by left.
  apply Hadded in Hfn as [Hroot Hnot]. destruct Hnot. by apply Hall.
Qed.

(** X5.  The call keeps the list under [tex_to_copy] as its start and appends
    to it, each once and in the order of [tex_in_root], the root files that
    are not in it; the two other lists are not touched. *)
Theorem add_root_tex_files_extends (sp : splits) :
  tex_in_root (_add_root_tex_files sp) = tex_in_root sp ∧
  tex_not_in_root (_add_root_tex_files sp) = tex_not_in_root sp ∧
  ∃ added,
    tex_to_copy (_add_root_tex_files sp) = tex_to_copy sp ++ added ∧
    NoDup added ∧ sublist added (tex_in_root sp) ∧
    ∀ fn, fn ∈ added ↔ fn ∈ tex_in_root sp ∧ fn ∉ tex_to_copy sp.
Proof.
  split_and!; [done..|]. apply foldl_add_missing.
Qed.

(** X6.  A second call changes nothing. *)
Theorem add_root_tex_files_idempotent (sp : splits) :
  _add_root_tex_files (_add_root_tex_files sp) = _add_root_tex_files sp.
Proof.
  unfold _add_root_tex_files at 1 3. simpl. f_equal.
  apply foldl_add_missing_present. intros fn Hfn.
  destruct (foldl_add_missing (tex_in_root sp) (tex_to_copy sp))
    as (added & -> & _ & _ & Hadded).
  rewrite elem_of_app, Hadded.
  destruct (decide (fn ∈ tex_to_copy sp)); [by left|by right].
Qed.

(** X7.  Where [run_arxiv_cleaner] calls it, after a closure that was started
    from the root files, the call adds nothing: the closure has returned
    all the root files already. *)
Theorem add_root_tex_files_after_closure (passes : nat)
  (order : gset str → list str) (contents : gmap str (list str))
  (sp sp' : splits) :
  enumerates order →
  _keep_only_referenced_tex passes order contents sp None = Returns sp' →
  _add_root_tex_files sp' = sp'.
Proof.
  intros Horder. unfold _keep_only_referenced_tex.
  destruct (closure _ _ _ _ _) as [R| |] eqn:Hclosure; [|done..]. simpl.
  intros [= <-]. unfold _add_root_tex_files. simpl. f_equal.
  apply foldl_add_missing_present. intros fn Hfn.
  destruct (closure_least contents order _ Horder passes _ _ Hclosure)
    as (Hstart & _).
  rewrite (Horder R), elem_of_elements.
  by apply Hstart, elem_of_list_to_set.
Qed.

Lemma add_root_tex_files_after_closure_witness :
  _add_root_tex_files
    (Splits ["main.tex"] ["a.tex"; "b.tex"; "c.tex"]
            ["main.tex"; "b.tex"; "a.tex"])
  = Splits ["main.tex"] ["a.tex"; "b.tex"; "c.tex"]
           ["main.tex"; "b.tex"; "a.tex"].
Proof.
  apply (add_root_tex_files_after_closure 3 elements example_contents
           example_splits).
  - intros X. reflexivity.
  - vm_compute. reflexivity.
Defined.

(** ** The reference closure: an entry file without contents *)

(** X23.  When the entry file has no entry in [contents] and there is a
    known file, the first search of the first pass fails: the function
    raises, whatever the number of passes allowed. *)
Theorem keep_only_referenced_tex_missing_entry (passes : nat)
  (order : gset str → list str) (contents : gmap str (list str))
  (sp : splits) (fn : str) :
  enumerates order →
  contents !! fn = None →
  known_files sp ≠ ∅ →
  _keep_only_referenced_tex (S passes) order contents sp (Some fn) = Raises.
Proof.
  intros Horder Hfn Hfiles. unfold _keep_only_referenced_tex.
  fold (known_files sp). cbn [closure].
  destruct (pass_spec contents order (known_files sp) {[fn]} Horder)
    as [(Hdef & _)|(_ & ->)]; [|done].
  apply set_choose_L in Hfiles as [fn0 Hfn0].
  unfold defined_on in Hdef. rewrite Forall_forall in Hdef.
  specialize (Hdef fn0). rewrite elem_of_elements in Hdef.
  specialize (Hdef Hfn0). rewrite elements_singleton in Hdef.
  apply Forall_inv in Hdef. unfold mentions in Hdef.
  rewrite Hfn in Hdef. by apply is_Some_None in Hdef.
Qed.

Lemma keep_only_referenced_tex_missing_entry_witness :
  _keep_only_referenced_tex 3 elements example_contents example_splits
                            (Some "main") = Raises.
Proof.
  apply (keep_only_referenced_tex_missing_entry 2 elements example_contents
           example_splits "main").
  - intros X. reflexivity.
  - vm_compute. reflexivity.
  - intros H. assert ("main.tex" ∈ known_files example_splits) as Hin.
    { apply elem_of_list_to_set. left. }
    rewrite H in Hin. by apply elem_of_empty in Hin.
Defined.

(** ** The lines of a file *)

Lemma split_on_cons (sep : ascii) (content : str) :
  ∃ line lines, split_on sep content = line :: lines.
Proof.
  destruct content as [|c content]; simpl; [by eexists _, _|].
  case_bool_decide; [by eexists _, _|].
  destruct (split_on sep content); by eexists _, _.
Qed.

Lemma join_cons_cons (sep s t : str) (rest : list str) :
  join sep (s :: t :: rest) = s ++ sep ++ join sep (t :: rest).
Proof. done. Qed.

Lemma join_split_on (sep : ascii) (content : str) :
  join [sep] (split_on sep content) = content.
Proof.
  induction content as [|c content IH]; [done|]. simpl.
  destruct (split_on_cons sep content) as (line & lines & Hsplit).
  rewrite Hsplit in *. case_bool_decide as Heq.
  - subst c. rewrite join_cons_cons, IH. done.
  - destruct lines as [|line' lines].
    + simpl in *. by rewrite IH.
    + rewrite join_cons_cons in IH |- *. by rewrite <- IH.
Qed.

Lemma split_on_free (sep : ascii) (content : str) :
  Forall (λ line, sep ∉ line) (split_on sep content).
Proof.
  induction content as [|c content IH]; simpl.
  - constructor; [apply not_elem_of_nil|constructor].
  - case_bool_decide as Heq.
    + constructor; [apply not_elem_of_nil|done].
    + destruct (split_on sep content) as [|line lines].
      * constructor; [|constructor]. rewrite not_elem_of_cons.
        split; [congruence|apply not_elem_of_nil].
      * inversion IH as [|? ? Hline Hlines]; subst.
        constructor; [|done]. rewrite not_elem_of_cons. split; [congruence|done].
Qed.

(** X18.  The lines kept for a file, joined again with newlines, are the text
    of the file; no line holds a newline; and the search of the reference
    closure in a file kept this way is the search in its text. *)
Theorem split_lines_join_lines (content : str) :
  join_lines (split_lines content) = content ∧
  Forall (λ line, nl ∉ line) (split_lines content) ∧
  ∀ (contents : gmap str (list str)) (fn fn2 : str),
    mentions (<[fn2 := split_lines content]> contents) fn fn2
    = (r ← regex_search false (reference_pattern fn) content;
       Some (bool_decide (is_Some r))).
Proof.
  split_and!.
  - apply join_split_on.
  - apply split_on_free.
  - intros contents fn fn2. unfold mentions.
    rewrite lookup_insert_eq. simpl. unfold split_lines.
    by rewrite (join_split_on nl content).
Qed.


(** ** Keeping and removing by pattern *)

Lemma keep_pattern_foldl (patterns : list str) (haystack : list str) :
  ∀ acc,
    foldl (λ out item,
             out ← out;
             b ← any_findall patterns item;
             Some (if b : bool then out ++ [item] else out))
          (Some acc) haystack
    = out ← _keep_pattern haystack patterns; Some (acc ++ out).
Proof.
  unfold _keep_pattern.
  induction haystack as [|item rest IH] using rev_ind; intros acc.
  - simpl. by rewrite app_nil_r.
  - rewrite !foldl_app. simpl. rewrite IH.
    destruct (foldl _ (Some []) rest) as [out|]; simpl; [|done].
    destruct (any_findall patterns item) as [[]|]; simpl; [|done..].
    by rewrite (assoc_L (++)).
Qed.

Lemma keep_pattern_cons (patterns : list str) (item : str)
  (rest : list str) :
  _keep_pattern (item :: rest) patterns
  = b ← any_findall patterns item;
    out ← _keep_pattern rest patterns;
    Some (if b : bool then item :: out else out).
Proof.
  unfold _keep_pattern at 1. simpl.
  destruct (any_findall patterns item) as [[]|] eqn:Hany; simpl.
  - rewrite keep_pattern_foldl. done.
  - rewrite keep_pattern_foldl. by destruct (_keep_pattern rest patterns).
  - induction rest as [|x rest IH]; [done|]. simpl. exact IH.
Qed.

Lemma remove_pattern_cons (patterns : list str) (item : str)
  (rest : list str) :
  _remove_pattern (item :: rest) patterns
  = b ← any_findall patterns item;
    out ← _remove_pattern rest patterns;
    Some (if b : bool then out else item :: out).
Proof.
  cbn [_remove_pattern]. rewrite keep_pattern_cons.
  destruct (any_findall patterns item) as [[]|]; simpl; [| |done].
  - destruct (_remove_pattern rest patterns); simpl; [|done].
    rewrite bool_decide_eq_false_2; [done|]. intros H. apply H. by left.
  - by destruct (_remove_pattern rest patterns).
Qed.

Lemma keep_remove_split (patterns : list str) (haystack : list str) :
  ∀ kept,
    _keep_pattern haystack patterns = Some kept →
    ∃ removed,
      _remove_pattern haystack patterns = Some removed ∧
      kept = filter (λ item, any_findall patterns item = Some true) haystack ∧
      removed = filter (λ item, any_findall patterns item = Some false) haystack ∧
      Forall (λ item, is_Some (any_findall patterns item)) haystack.
Proof.
  induction haystack as [|item rest IH]; intros kept.
  - intros [= <-]. exists []. by split_and!.
  - rewrite keep_pattern_cons, remove_pattern_cons.
    destruct (any_findall patterns item) as [b|] eqn:Hany; simpl; [|done].
    destruct (_keep_pattern rest patterns) as [out|]; simpl; [|done].
    destruct (IH out eq_refl) as (removed & -> & Hout & Hremoved & Hall).
    simpl. intros [= <-]. eexists. split; [done|].
    rewrite !filter_cons, Hany.
    destruct b; simpl.
    + split_and!; [by f_equal|done|]. constructor; [by eexists|done].
    + split_and!; [done|by f_equal|]. constructor; [by eexists|done].
Qed.

(** X19.  When [_keep_pattern] returns for a list and patterns, [_remove_pattern]
    returns for them too, and the two results split the list: each keeps
    the order of the list, no string is in both, and together they hold
    the strings of the list, each as often as the list does. *)
Theorem keep_remove_partition (haystack patterns kept : list str) :
  _keep_pattern haystack patterns = Some kept →
  ∃ removed,
    _remove_pattern haystack patterns = Some removed ∧
    sublist kept haystack ∧ sublist removed haystack ∧
    (∀ item, item ∈ kept → item ∉ removed) ∧
    kept ++ removed ≡ₚ haystack.
Proof.
  intros Hkept.
  destruct (keep_remove_split patterns haystack kept Hkept)
    as (removed & Hremoved & -> & -> & Hall).
  exists (filter (λ item, any_findall patterns item = Some false) haystack).
  split_and!; [done|apply sublist_filter..| |].
  - intros item. rewrite !list_elem_of_filter. intros [H1 _] [H2 _]. congruence.
  - clear Hkept Hremoved.
    induction Hall as [|item rest [b Hb] _ IH]; [done|].
    rewrite !filter_cons, Hb. destruct b.
    + rewrite decide_True by done. rewrite decide_False by done.
      simpl. by f_equiv.
    + rewrite decide_False by done. rewrite decide_True by done.
      rewrite <- Permutation_middle. by f_equiv.
Qed.

Lemma keep_remove_partition_witness :
  ∃ removed,
    _remove_pattern [".git/config"; "main.tex"; "fig/.git/x"] [".git/"]
      = Some removed ∧
    sublist [".git/config"; "fig/.git/x"]
            [".git/config"; "main.tex"; "fig/.git/x"] ∧
    sublist removed [".git/config"; "main.tex"; "fig/.git/x"] ∧
    (∀ item, item ∈ [".git/config"; "fig/.git/x"] → item ∉ removed) ∧
    [".git/config"; "fig/.git/x"] ++ removed
      ≡ₚ [".git/config"; "main.tex"; "fig/.git/x"].
Proof.
  apply (keep_remove_partition [".git/config"; "main.tex"; "fig/.git/x"]
                               [".git/"]).
  vm_compute. reflexivity.
Defined.

(** ** [strip_whitespace] *)

Lemma whitespace_pattern :
  compiled "\s+" = Seq (Seq space_re (Star space_re)) Eps.
Proof. reflexivity. Qed.

Lemma space_run (a : str) :
  ∃ run tail,
    a = run ++ tail ∧ forallb re_space run = true ∧
    ∀ c, head tail = Some c → re_space c = false.
Proof.
  induction a as [|c a (run & tail & -> & Hrun & Htail)].
  - exists [], []. by split_and!.
  - destruct (re_space c) eqn:Hc.
    + exists (c :: run), tail. split_and!; [done| |done].
      simpl. by rewrite Hc.
    + exists [], (c :: run ++ tail). split_and!; [done..|].
      by intros d [= <-].
Qed.

Lemma whitespace_match (b : list ascii) (c : ascii) (run tail : str) :
  re_space c = true → forallb re_space run = true →
  (∀ d, head tail = Some d → re_space d = false) →
  match_at false (compiled "\s+") (b, c :: run ++ tail)
  = Some (reverse (c :: run) ++ b, tail).
Proof.
  intros Hc Hrun Htail. unfold match_at. rewrite whitespace_pattern.
  rewrite (m_eq _ _ _ (Seq _ _)), (m_eq _ _ _ (Seq _ _)).
  unfold space_re. rewrite (m_eq _ _ _ (Chr _)).
  cbn [app]. change (in_cset false (One (ISpace false)) c) with (re_space c).
  rewrite Hc. rewrite m_star_class.
  rewrite reverse_cons, <- (assoc_L (++)).
  rewrite star_class_run; [by rewrite !(m_eq _ _ _ Eps)|done|done|].
  by rewrite !(m_eq _ _ _ Eps).
Qed.

Lemma whitespace_no_match (b a : list ascii) :
  (∀ c, head a = Some c → re_space c = false) →
  match_at false (compiled "\s+") (b, a) = None.
Proof.
  intros Ha. unfold match_at. rewrite whitespace_pattern.
  rewrite (m_eq _ _ _ (Seq _ _)), (m_eq _ _ _ (Seq _ _)).
  unfold space_re. rewrite (m_eq _ _ _ (Chr _)).
  destruct a as [|c a]; [done|].
  change (in_cset false (One (ISpace false)) c) with (re_space c).
  by rewrite (Ha c eq_refl).
Qed.

Lemma sub_empty_whitespace (a : str) :
  ∀ b skip,
    sub_empty (compiled "\s+") b a skip
    = filter (λ c, re_space c = false) (drop skip a).
Proof.
  induction a as [|c a IH]; intros b skip.
  - destruct skip; simpl; [|done].
    by destruct (match_at false (compiled "\s+") (b, [])).
  - destruct skip as [|skip]; [|simpl; apply IH].
    cbn [sub_empty drop].
    destruct (re_space c) eqn:Hc.
    + destruct (space_run a) as (run & tail & -> & Hrun & Htail).
      rewrite (whitespace_match b c run tail Hc Hrun Htail).
      cbn [fst]. rewrite length_app, length_reverse.
      replace (length (c :: run) + length b - length b)
        with (S (length run)) by (simpl; lia).
      cbn [Nat.eqb pred app]. rewrite IH.
      rewrite drop_app_length, filter_cons, Hc.
      rewrite decide_False by done.
      rewrite filter_app.
      assert (filter (λ c, re_space c = false) run = []) as ->; [|done].
      clear -Hrun. induction run as [|d run IH]; [done|].
      simpl in Hrun. apply andb_true_iff in Hrun as [Hd Hrun].
      rewrite filter_cons, Hd. rewrite decide_False by done. by apply IH.
    + rewrite whitespace_no_match by (by intros d [= <-]).
      rewrite IH, filter_cons, Hc. by rewrite decide_True by done.
Qed.

(** X17.  [strip_whitespace] returns the characters of the text that the
    pattern [\s] does not match, in their order. *)
Theorem strip_whitespace_filter (text : str) :
  strip_whitespace text = filter (λ c, re_space c = false) text.
Proof. exact (sub_empty_whitespace text [] 0). Qed.

(** ** [merge_args_into_config] *)

Lemma merge_arg_merged (args config_params final_args final : gmap str value)
  (key : str) (v : value) :
  args !! key = None →
  merged args config_params final_args →
  merge_arg config_params key v final_args = Some final →
  merged (<[key := v]> args) config_params final.
Proof.
  intros Hfresh Hmerged Hstep key'.
  destruct (decide (key' = key)) as [->|Hne].
  - rewrite lookup_insert_eq. specialize (Hmerged key).
    rewrite Hfresh in Hmerged. unfold merge_arg in Hstep.
    destruct (config_params !! key) as [config_value|] eqn:Hconfig.
    + destruct (scalar v) eqn:Hscalar.
      * injection Hstep as <-. by rewrite lookup_insert_eq.
      * destruct v as [| | | |l|d|]; try discriminate.
        -- destruct config_value as [| | | |config_list| |]; try discriminate.
           injection Hstep as <-. exists config_list.
           by rewrite lookup_insert_eq.
        -- rewrite Hmerged in Hstep.
           destruct config_value as [| | | | |config_dict|]; try discriminate.
           injection Hstep as <-. exists config_dict.
           by rewrite lookup_insert_eq.
        -- by injection Hstep as <-.
    + injection Hstep as <-. by rewrite lookup_insert_eq.
  - rewrite lookup_insert_ne by done. specialize (Hmerged key').
    assert (final !! key' = final_args !! key') as Hsame.
    { unfold merge_arg in Hstep.
      destruct (config_params !! key) as [config_value|].
      - destruct (scalar v) eqn:Hscalar.
        + injection Hstep as <-. by rewrite lookup_insert_ne.
        + destruct v as [| | | |l|d|]; try discriminate.
          * destruct config_value; try discriminate.
            injection Hstep as <-. by rewrite lookup_insert_ne.
          * destruct (final_args !! key) as [[]|]; try discriminate.
            injection Hstep as <-. by rewrite lookup_insert_ne.
          * by injection Hstep as <-.
      - injection Hstep as <-. by rewrite lookup_insert_ne. }
    rewrite Hsame. exact Hmerged.
Qed.

Lemma merge_args_into_config_merged (args config_params : gmap str value) :
  ∀ final, merge_args_into_config args config_params = Some final →
           merged args config_params final.
Proof.
  unfold merge_args_into_config.
  apply (map_fold_weak_ind
           (λ r m, ∀ final, r = Some final → merged m config_params final)).
  - intros final [= <-] key. by rewrite lookup_empty.
  - intros key v m r Hfresh IH final Hstep.
    destruct r as [final_args|]; [|done]. simpl in Hstep.
    apply (merge_arg_merged m config_params final_args final key v);
      [done|by apply IH|done].
Qed.

(** X20.  When the merge returns, the result holds: under a key that the
    arguments do not have, the value of the configuration; under a key
    that only the arguments have, their value; under a key of both, the
    argument when it is a string, a boolean or a number, the list of the
    argument followed by the list of the configuration when the argument
    is a list, the dictionary of the configuration updated with that of
    the argument when the argument is a dictionary, and the value of the
    configuration when the argument is [None]. *)
Theorem merge_args_into_config_lookup
  (args config_params final : gmap str value) (key : str) :
  merge_args_into_config args config_params = Some final →
  (args !! key = None → final !! key = config_params !! key) ∧
  (∀ v, args !! key = Some v → config_params !! key = None →
        final !! key = Some v) ∧
  (∀ v, args !! key = Some v → scalar v = true → final !! key = Some v) ∧
  (∀ l config_value,
     args !! key = Some (VList l) → config_params !! key = Some config_value →
     ∃ config_list, config_value = VList config_list ∧
                    final !! key = Some (VList (l ++ config_list))) ∧
  (∀ d config_value,
     args !! key = Some (VDict d) → config_params !! key = Some config_value →
     ∃ config_dict, config_value = VDict config_dict ∧
                    final !! key = Some (VDict (d ∪ config_dict))) ∧
  (∀ config_value,
     args !! key = Some VNone → config_params !! key = Some config_value →
     final !! key = Some config_value).
Proof.
  intros Hfinal.
  pose proof (merge_args_into_config_merged args config_params final Hfinal key)
    as Hkey.
  split_and!.
  - intros Hargs. by rewrite Hargs in Hkey.
  - intros v Hargs Hconfig. by rewrite Hargs, Hconfig in Hkey.
  - intros v Hargs Hscalar. rewrite Hargs in Hkey.
    destruct (config_params !! key); [by rewrite Hscalar in Hkey|done].
  - intros l config_value Hargs Hconfig. by rewrite Hargs, Hconfig in Hkey.
  - intros d config_value Hargs Hconfig. by rewrite Hargs, Hconfig in Hkey.
  - intros config_value Hargs Hconfig. by rewrite Hargs, Hconfig in Hkey.
Qed.

Lemma merge_args_into_config_lookup_witness :
  (example_args !! "keep_bib" = None →
   example_merged !! "keep_bib" = example_config !! "keep_bib") ∧
  (∀ v, example_args !! "keep_bib" = Some v →
        example_config !! "keep_bib" = None →
        example_merged !! "keep_bib" = Some v) ∧
  (∀ v, example_args !! "keep_bib" = Some v → scalar v = true →
        example_merged !! "keep_bib" = Some v) ∧
  (∀ l config_value,
     example_args !! "keep_bib" = Some (VList l) →
     example_config !! "keep_bib" = Some config_value →
     ∃ config_list, config_value = VList config_list ∧
                    example_merged !! "keep_bib"
                    = Some (VList (l ++ config_list))) ∧
  (∀ d config_value,
     example_args !! "keep_bib" = Some (VDict d) →
     example_config !! "keep_bib" = Some config_value →
     ∃ config_dict, config_value = VDict config_dict ∧
                    example_merged !! "keep_bib"
                    = Some (VDict (d ∪ config_dict))) ∧
  (∀ config_value,
     example_args !! "keep_bib" = Some VNone →
     example_config !! "keep_bib" = Some config_value →
     example_merged !! "keep_bib" = Some config_value).
Proof.
  apply (merge_args_into_config_lookup example_args example_config
           example_merged "keep_bib").
  vm_compute. reflexivity.
Defined.

